(** * Verification of the in-memory index of typesense (src/unnamed/part_001)

    Shallow embedding of [Index] (index.h / index.cpp): typo-cost bounding,
    the float-to-integer mapping, document validation, facet entries of array
    fields, string equality filtering, the per-field candidate search loop with
    token dropping, wildcard search and the update path. *)

From Stdlib Require Import ZArith Lia Bool Ascii Sorting.
From stdpp Require Import base gmap strings list pretty sorting.

Open Scope Z_scope.

(** ** Machine integers *)
Module Int.
Definition INT32_MAX : Z := 2147483647.
Definition INT32_MIN : Z := -2147483648.

(** conversion of an arbitrary integer to a signed 32-bit [int]
    (two's complement wrap-around, as C++20 specifies) *)
Definition to_int32 (z : Z) : Z :=
  let r := z mod 2 ^ 32 in if r >=? 2 ^ 31 then r - 2 ^ 32 else r.

Definition is_size_t (z : Z) : Prop := 0 <= z < 2 ^ 64.
End Int.

(** ** Typo cost bounding (Index::get_bounded_typo_cost, Index::search_field) *)
Module TypoCost.
Import Int.

(** [int Index::get_bounded_typo_cost(const size_t max_cost, const size_t token_len)] *)
Definition get_bounded_typo_cost (max_cost token_len : Z) : Z :=
  let bounded_cost := to_int32 max_cost in
  if (token_len >? 0) && (max_cost >=? token_len) && ((token_len =? 1) || (token_len =? 2))
  then to_int32 (token_len - 1)
  else bounded_cost.

(** [const size_t max_cost = (num_typos < 0 || num_typos > 2) ? 2 : num_typos;] *)
Definition max_cost_of (num_typos : Z) : Z :=
  if (num_typos <? 0) || (num_typos >? 2) then 2 else num_typos.

(** [for(int cost = 0; cost <= bounded_cost; cost++) all_costs.push_back(cost);] *)
Definition costs_upto (bounded_cost : Z) : list Z :=
  map Z.of_nat (seq 0 (Z.to_nat (bounded_cost + 1))).

(** the costs [search_field] enumerates for one token of length [token_len] *)
Definition token_costs (num_typos token_len : Z) : list Z :=
  costs_upto (get_bounded_typo_cost (max_cost_of num_typos) token_len).
End TypoCost.

(** ** IEEE-754 binary32 values and Index::float_to_in64_t *)
Module FloatBits.
Import Int.

(** A [float] is represented by its 32-bit pattern [b], [0 <= b < 2^32]. *)
Definition is_bits32 (b : Z) : Prop := 0 <= b < 2 ^ 32.

(** [memcpy(&i, &f, sizeof i)]: the pattern read as a signed [int32_t] *)
Definition bits_as_int32 (b : Z) : Z := if b >=? 2 ^ 31 then b - 2 ^ 32 else b.

(** [int64_t Index::float_to_in64_t(float f)] *)
Definition float_to_in64_t (b : Z) : Z :=
  let i := bits_as_int32 b in
  if i <? 0 then Z.lxor i INT32_MAX else i.

(** IEEE-754 reading of a pattern: sign, biased exponent, fraction. *)
Definition f_sign (b : Z) : bool := b >=? 2 ^ 31.
Definition f_exp (b : Z) : Z := (b / 2 ^ 23) mod 2 ^ 8.
Definition f_frac (b : Z) : Z := b mod 2 ^ 23.
Definition is_nan (b : Z) : bool := (f_exp b =? 255) && negb (f_frac b =? 0).

(** extended values: the real value scaled by 2^149 is an integer *)
Inductive ext := NegInf | Fin (z : Z) | PosInf.

Definition magnitude (e m : Z) : Z :=
  if e =? 0 then m else (2 ^ 23 + m) * 2 ^ (e - 1).

Definition value (b : Z) : ext :=
  if f_exp b =? 255 then (if f_sign b then NegInf else PosInf)
  else let m := magnitude (f_exp b) (f_frac b) in
       Fin (if f_sign b then - m else m).

Definition ext_lt (x y : ext) : Prop :=
  match x, y with
  | NegInf, NegInf => False
  | NegInf, _ => True
  | Fin a, Fin c => a < c
  | Fin _, PosInf => True
  | _, _ => False
  end.

Definition ext_le (x y : ext) : Prop := ext_lt x y \/ x = y.

Definition pos_zero : Z := 0.
Definition neg_zero : Z := 2 ^ 31.
End FloatBits.

(** ** JSON documents (nlohmann::json as the index sees it) *)
Module Json.
(** Numbers: [JInt] is [number_integer]/[number_unsigned]; [JFloat] is
    [number_float], carried as the IEEE-754 binary64 pattern of the double. *)
#[local] Set Warnings "-register-all".
Inductive json :=
| JNull
| JBool (b : bool)
| JInt (z : Z)
| JFloat (d : Z)
| JString (s : string)
| JArray (l : list json)
| JObject (kv : list (string * json)).

(** an object's members, in key order (std::map) *)
Definition doc := list (string * json).

Definition count (d : doc) (k : string) : bool :=
  existsb (fun kv => bool_decide (kv.1 = k)) d.

Fixpoint find (d : doc) (k : string) : option json :=
  match d with
  | [] => None
  | (k', v) :: d' => if bool_decide (k' = k) then Some v else find d' k
  end.

(** [document[k] = v] on an object: replace the member or add it *)
Fixpoint set (d : doc) (k : string) (v : json) : doc :=
  match d with
  | [] => [(k, v)]
  | (k', v') :: d' => if bool_decide (k' = k) then (k, v) :: d' else (k', v') :: set d' k v
  end.

(** [document.erase(k)] *)
Definition erase (d : doc) (k : string) : doc := filter (fun kv => kv.1 <> k) d.

Definition is_string (j : json) : bool := match j with JString _ => true | _ => false end.
Definition is_boolean (j : json) : bool := match j with JBool _ => true | _ => false end.
Definition is_number_integer (j : json) : bool := match j with JInt _ => true | _ => false end.
Definition is_number_float (j : json) : bool := match j with JFloat _ => true | _ => false end.
Definition is_number (j : json) : bool := is_number_integer j || is_number_float j.
Definition is_array (j : json) : bool := match j with JArray _ => true | _ => false end.

(** [j.size()] (nlohmann: 0 for null, 1 for scalars) and [j[0]] *)
Definition size (j : json) : nat :=
  match j with JNull => 0 | JArray l => length l | JObject kv => length kv | _ => 1 end.
Definition at0 (j : json) : json :=
  match j with JArray (x :: _) => x | _ => JNull end.

(** Computations that may throw (nlohmann's [type_error], [out_of_range]). *)
Inductive exc (A : Type) := Ok (a : A) | Throw (what : string).
Arguments Ok {A} a.
Arguments Throw {A} what.

Definition bind {A B} (m : exc A) (f : A -> exc B) : exc B :=
  match m with Ok a => f a | Throw e => Throw e end.

Notation "'let!' x ':=' m 'in' k" := (bind m (fun x => k))
  (at level 200, x name, m at level 100, k at level 200).

Fixpoint mapM {A B} (f : A -> exc B) (l : list A) : exc (list B) :=
  match l with
  | [] => Ok []
  | x :: l' => let! y := f x in let! ys := mapM f l' in Ok (y :: ys)
  end.

(** [get<std::string>()], [get<bool>()], [get<int64_t>()] *)
Definition get_string (j : json) : exc string :=
  match j with JString s => Ok s | _ => Throw "type must be string" end.
Definition get_bool (j : json) : exc bool :=
  match j with JBool b => Ok b | _ => Throw "type must be boolean" end.
End Json.

(** ** Schema fields (field.h is not part of src/) *)
Module Schema.
Inductive field_type :=
| STRING | INT32 | INT64 | FLOAT | BOOL
| STRING_ARRAY | INT32_ARRAY | INT64_ARRAY | FLOAT_ARRAY | BOOL_ARRAY.

Record field := mk_field { name : string; type : field_type; facet : bool; optional : bool }.

(** Modelled from the spec: the predicates of [field] (field.h, not in src/),
    read from their names and uses in index.cpp. *)
Definition is_string (f : field) : bool :=
  match type f with STRING | STRING_ARRAY => true | _ => false end.
Definition is_int32 (f : field) : bool :=
  match type f with INT32 | INT32_ARRAY => true | _ => false end.
Definition is_int64 (f : field) : bool :=
  match type f with INT64 | INT64_ARRAY => true | _ => false end.
Definition is_integer (f : field) : bool := is_int32 f || is_int64 f.
Definition is_float (f : field) : bool :=
  match type f with FLOAT | FLOAT_ARRAY => true | _ => false end.
Definition is_bool (f : field) : bool :=
  match type f with BOOL | BOOL_ARRAY => true | _ => false end.
Definition is_array (f : field) : bool :=
  match type f with
  | STRING_ARRAY | INT32_ARRAY | INT64_ARRAY | FLOAT_ARRAY | BOOL_ARRAY => true
  | _ => false
  end.
Definition is_single_float (f : field) : bool :=
  match type f with FLOAT => true | _ => false end.
Definition is_single_integer (f : field) : bool :=
  match type f with INT32 | INT64 => true | _ => false end.
Definition is_single_bool (f : field) : bool :=
  match type f with BOOL => true | _ => false end.
Definition is_facet (f : field) : bool := facet f.

(** [std::unordered_map<std::string, field>] in its iteration order *)
Definition schema := list (string * field).

Fixpoint schema_at (s : schema) (k : string) : option field :=
  match s with
  | [] => None
  | (k', f) :: s' => if bool_decide (k' = k) then Some f else schema_at s' k
  end.
End Schema.

(** ** Index::validate_index_in_memory *)
Module Validate.
Import Json Schema.

(** [Option<uint32_t>]: a success code, or an error code with its message *)
Inductive option_code := OptOk (code : Z) | OptErr (code : Z) (msg : string).

Section Validate.
(** [document[default_sorting_field].get<float>() > std::numeric_limits<float>::max()]:
    the double-to-float conversion is left abstract. *)
Variable exceeds_float_max : json -> bool.

Definition err400 (msg : string) : exc option_code := Ok (OptErr 400 msg).

(** the type test of one present field, as in the [if ... else if] chain *)
Definition check_field_type (field_name : string) (f : field) (v : json) : option option_code :=
  match type f with
  | STRING => if Json.is_string v then None else Some (OptErr 400 ("Field `" ++ field_name ++ "` must be a string."))
  | INT32 =>
      if negb (is_number_integer v) then Some (OptErr 400 ("Field `" ++ field_name ++ "` must be an int32."))
      else match v with
           | JInt z => if z >? Int.INT32_MAX then Some (OptErr 400 ("Field `" ++ field_name ++ "` exceeds maximum value of int32.")) else None
           | _ => None
           end
  | INT64 => if is_number_integer v then None else Some (OptErr 400 ("Field `" ++ field_name ++ "` must be an int64."))
  | FLOAT => if is_number v then None else Some (OptErr 400 ("Field `" ++ field_name ++ "` must be a float."))
  | BOOL => if is_boolean v then None else Some (OptErr 400 ("Field `" ++ field_name ++ "` must be a bool."))
  | STRING_ARRAY =>
      if negb (Json.is_array v) then Some (OptErr 400 ("Field `" ++ field_name ++ "` must be a string array."))
      else if (0 <? size v)%nat && negb (Json.is_string (at0 v)) then Some (OptErr 400 ("Field `" ++ field_name ++ "` must be a string array."))
      else None
  | INT32_ARRAY =>
      if negb (Json.is_array v) then Some (OptErr 400 ("Field `" ++ field_name ++ "` must be an int32 array."))
      else if (0 <? size v)%nat && negb (is_number_integer (at0 v)) then Some (OptErr 400 ("Field `" ++ field_name ++ "` must be an int32 array."))
      else None
  | INT64_ARRAY =>
      if negb (Json.is_array v) then Some (OptErr 400 ("Field `" ++ field_name ++ "` must be an int64 array."))
      else if (0 <? size v)%nat && negb (is_number_integer (at0 v)) then Some (OptErr 400 ("Field `" ++ field_name ++ "` must be an int64 array."))
      else None
  | FLOAT_ARRAY =>
      if negb (Json.is_array v) then Some (OptErr 400 ("Field `" ++ field_name ++ "` must be a float array."))
      else if (0 <? size v)%nat && negb (is_number (at0 v)) then Some (OptErr 400 ("Field `" ++ field_name ++ "` must be a float array."))
      else None
  | BOOL_ARRAY =>
      if negb (Json.is_array v) then Some (OptErr 400 ("Field `" ++ field_name ++ "` must be a bool array."))
      else if (0 <? size v)%nat && negb (is_boolean (at0 v)) then Some (OptErr 400 ("Field `" ++ field_name ++ "` must be a bool array."))
      else None
  end.

(** the [for(const auto& field_pair: search_schema)] loop *)
Fixpoint check_fields (document : doc) (is_update : bool) (s : schema) : option option_code :=
  match s with
  | [] => None
  | (field_name, f) :: s' =>
      if (optional f || is_update) && negb (count document field_name) then check_fields document is_update s'
      else match find document field_name with
           | None => Some (OptErr 400 ("Field `" ++ field_name ++ "` has been declared in the schema, but is not found in the document."))
           | Some v =>
               match check_field_type field_name f v with
               | Some e => Some e
               | None => check_fields document is_update s'
               end
           end
  end.

(** [search_schema.at(default_sorting_field)] throws [std::out_of_range]
    when the field is not in the schema. *)
Definition validate_index_in_memory (document : doc) (seq_id : Z) (default_sorting_field : string)
    (search_schema : schema) (is_update : bool) : exc option_code :=
  let has_default_sort_field := count document default_sorting_field in
  if negb has_default_sort_field && negb is_update then
    err400 ("Field `" ++ default_sorting_field ++ "` has been declared as a default sorting field, but is not found in the document.")
  else
  let dsf := match find document default_sorting_field with Some v => v | None => JNull end in
  if has_default_sort_field && negb (is_number_integer dsf) && negb (is_number_float dsf) then
    err400 ("Default sorting field `" ++ default_sorting_field ++ "` must be a single valued numerical field.")
  else
  let! over :=
    (if has_default_sort_field then
       match schema_at search_schema default_sorting_field with
       | None => Throw "unordered_map::at"
       | Some f => Ok (is_single_float f && exceeds_float_max dsf)
       end
     else Ok false) in
  if over then
    err400 ("Default sorting field `" ++ default_sorting_field ++ "` exceeds maximum value of a float.")
  else
  match check_fields document is_update search_schema with
  | Some e => Ok e
  | None => Ok (OptOk 200)
  end.
End Validate.

(** the collection of the tests: a string-array field and an int32 default sorting field *)
Definition tags_schema : schema :=
  [("tags", mk_field "tags" STRING_ARRAY false false); ("points", mk_field "points" INT32 false false)].

(** a document whose string array also holds an integer *)
Definition mixed_tags_doc : doc := [("points", JInt 1); ("tags", JArray [JString "a"; JInt 1])].
End Validate.

(** ** The tokenizer (tokenizer.h is not part of src/) *)
Module SpecTokenizer.
(** Modelled from the spec: ASCII letters are case-folded to lower case,
    and text is split at every ASCII character that is neither a letter nor
    a digit; bytes above 127 (UTF-8 sequences) stay inside tokens.  Tokens
    are numbered from 0 in the order they are emitted. *)
Definition is_alnum_byte (c : ascii) : bool :=
  let n := Ascii.nat_of_ascii c in
  ((48 <=? n)%nat && (n <=? 57)%nat) || ((65 <=? n)%nat && (n <=? 90)%nat) ||
  ((97 <=? n)%nat && (n <=? 122)%nat) || (128 <=? n)%nat.

Definition fold_lower (c : ascii) : ascii :=
  let n := Ascii.nat_of_ascii c in
  if (65 <=? n)%nat && (n <=? 90)%nat then Ascii.ascii_of_nat (n + 32) else c.

(** the words of the text, each reversed while it is being read *)
Fixpoint words (s : string) (cur : string) : list string :=
  match s with
  | EmptyString => match cur with EmptyString => [] | _ => [String.rev cur] end
  | String c s' =>
      if is_alnum_byte c then words s' (String (fold_lower c) cur)
      else match cur with EmptyString => words s' EmptyString | _ => String.rev cur :: words s' EmptyString end
  end.

Fixpoint alnum_string (s : string) : bool :=
  match s with EmptyString => true | String c s' => is_alnum_byte c && alnum_string s' end.

Definition tokenizer (text : string) (no_op : bool) : list (string * Z) :=
  let ws := words text EmptyString in
  zip ws (map Z.of_nat (seq 0 (length ws))).

(** A tokenizer that keeps the text whole when [no_op] is set: [index_field]
    passes [no_op = !is_string()], so the texts of numbers and booleans
    stay one token each. *)
Definition tokenizer_keep (text : string) (no_op : bool) : list (string * Z) :=
  if no_op then match text with EmptyString => [] | _ => [(text, 0)] end else tokenizer text no_op.
End SpecTokenizer.

(** ** The in-memory index: state, conversions and the state/exception monad *)
Module Ingest.
Import Json Schema Validate FloatBits.

Definition FACET_ARRAY_DELIMETER : Z := 2 ^ 64 - 1.

(** the sentinel markers of a facet entry *)
Definition count_delimiters (entry : list Z) : nat :=
  length (List.filter (Z.eqb FACET_ARRAY_DELIMETER) entry).

Definition to_int64 (z : Z) : Z :=
  let r := z mod 2 ^ 64 in if r >=? 2 ^ 63 then r - 2 ^ 64 else r.
Definition to_uint32 (z : Z) : Z := z mod 2 ^ 32.
Definition to_uint64 (z : Z) : Z := z mod 2 ^ 64.

(** [atoll] (glibc: strtoll in base 10, saturating): leading white space,
    an optional sign, then the longest run of digits *)
Definition is_space (c : ascii) : bool :=
  let n := Ascii.nat_of_ascii c in (n =? 32)%nat || ((9 <=? n)%nat && (n <=? 13)%nat).
Definition is_digit (c : ascii) : bool :=
  let n := Ascii.nat_of_ascii c in (48 <=? n)%nat && (n <=? 57)%nat.
Definition digit_value (c : ascii) : Z := Z.of_nat (Ascii.nat_of_ascii c) - 48.

Fixpoint skip_spaces (s : string) : string :=
  match s with
  | String c s' => if is_space c then skip_spaces s' else s
  | EmptyString => s
  end.

Fixpoint digits_value (acc : Z) (s : string) : Z :=
  match s with
  | String c s' => if is_digit c then digits_value (acc * 10 + digit_value c) s' else acc
  | EmptyString => acc
  end.

Definition atoll (s : string) : Z :=
  match skip_spaces s with
  | String "-" s' => Z.max (- 2 ^ 63) (- digits_value 0 s')
  | String "+" s' => Z.min (2 ^ 63 - 1) (digits_value 0 s')
  | s' => Z.min (2 ^ 63 - 1) (digits_value 0 s')
  end.

(** Modelled from the spec: a posting of an ART leaf, the document's id,
    score and token offsets (art.h and art.cpp are not in src/). *)
Record posting := mk_posting { p_id : Z; p_score : Z; p_offsets : list Z }.
Definition art := gmap string (list posting).

(** Modelled from the spec: [art_insert] puts the document's posting in the
    leaf of the key, replacing an earlier posting of the same id. *)
Definition art_insert (t : art) (key : string) (d : posting) : art :=
  let leaf := default [] (t !! key) in
  let leaf' := if existsb (fun p => p_id p =? p_id d) leaf
               then map (fun p => if p_id p =? p_id d then d else p) leaf
               else leaf ++ [d] in
  <[key := leaf']> t.

(** Modelled from the spec: a numeric tree as the (value, seq_id) pairs it holds. *)
Definition num_tree := list (Z * Z).
Definition num_tree_insert (nt : num_tree) (value seq_id : Z) : num_tree := nt ++ [(value, seq_id)].
Definition num_tree_remove (nt : num_tree) (value seq_id : Z) : num_tree :=
  List.filter (fun p => negb ((p.1 =? value) && (p.2 =? seq_id))) nt.

(** the members of [Index] the ingestion path writes *)
Record index := mk_index {
  search_index : gmap string art;
  numerical_index : gmap string num_tree;
  sort_index : gmap string (gmap Z Z);
  facet_index_v2 : gmap Z (list (list Z));
  num_documents : Z
}.

(** A computation on the index that may throw; the index it leaves behind
    when it throws is kept, as C++ does not roll back. *)
Inductive res (A : Type) := ROk (a : A) (s : index) | RThrow (what : string) (s : index).
Arguments ROk {A} a s.
Arguments RThrow {A} what s.
Definition M (A : Type) := index -> res A.

Definition ret {A} (a : A) : M A := fun s => ROk a s.
Definition mbind {A B} (m : M A) (f : A -> M B) : M B :=
  fun s => match m s with ROk a s' => f a s' | RThrow e s' => RThrow e s' end.
Notation "'let*' x ':=' m 'in' k" := (mbind m (fun x => k))
  (at level 200, x name, m at level 100, k at level 200).
Definition lift {A} (e : exc A) : M A :=
  fun s => match e with Ok a => ROk a s | Throw w => RThrow w s end.
Definition modify (f : index -> index) : M unit := fun s => ROk tt (f s).
Definition gets {A} (f : index -> A) : M A := fun s => ROk (f s) s.

Fixpoint mapM_ {A} (f : A -> M unit) (l : list A) : M unit :=
  match l with [] => ret tt | x :: l' => let* _ := f x in mapM_ f l' end.

Definition set_search_index (m : gmap string art) (s : index) : index :=
  mk_index m (numerical_index s) (sort_index s) (facet_index_v2 s) (num_documents s).
Definition set_numerical_index (m : gmap string num_tree) (s : index) : index :=
  mk_index (search_index s) m (sort_index s) (facet_index_v2 s) (num_documents s).
Definition set_sort_index (m : gmap string (gmap Z Z)) (s : index) : index :=
  mk_index (search_index s) (numerical_index s) m (facet_index_v2 s) (num_documents s).
Definition set_facet_index_v2 (m : gmap Z (list (list Z))) (s : index) : index :=
  mk_index (search_index s) (numerical_index s) (sort_index s) m (num_documents s).
Definition set_num_documents (n : Z) (s : index) : index :=
  mk_index (search_index s) (numerical_index s) (sort_index s) (facet_index_v2 s) n.

(** [map.at(key)]: [std::out_of_range] when the key is absent *)
Definition at_or_throw {V} (m : gmap string V) : string -> M V :=
  fun k s => match m !! k with Some v => ROk v s | None => RThrow "out_of_range" s end.
Definition art_at (k : string) : M art := fun s => at_or_throw (search_index s) k s.
Definition num_at (k : string) : M num_tree := fun s => at_or_throw (numerical_index s) k s.
Definition sort_at (k : string) : M (gmap Z Z) := fun s => at_or_throw (sort_index s) k s.

(** writes through the [art_tree*], [num_tree_t*] and sort map pointers *)
Definition modify_art (k : string) (f : art -> art) : M unit :=
  modify (fun s => set_search_index (alter f k (search_index s)) s).
Definition modify_num (k : string) (f : num_tree -> num_tree) : M unit :=
  modify (fun s => set_numerical_index (alter f k (numerical_index s)) s).
Definition modify_sort (k : string) (f : gmap Z Z -> gmap Z Z) : M unit :=
  modify (fun s => set_sort_index (alter f k (sort_index s)) s).
(** [facet_index_v2[seq_id][facet_id]]; the entry exists on every path that reaches it *)
Definition modify_facet (seq_id facet_id : Z) (f : list Z -> list Z) : M unit :=
  modify (fun s => set_facet_index_v2 (alter (alter f (Z.to_nat facet_id)) seq_id (facet_index_v2 s)) s).
Section Ingestion.
(** [search_schema] in its iteration order, and [facet_schema] (a std::map) in key order *)
Variable search_schema : schema.
Variable facet_schema : schema.
(** [field::faceted_name()]: the name of the string ART of a non-string facet field *)
Variable faceted_name : field -> string.
(** [Tokenizer(text, true, true, no_op)]: the (token, token_index) pairs its [next] yields *)
Variable tokenizer : string -> bool -> list (string * Z).
(** [StringUtils::hash_wy] *)
Variable hash_wy : string -> Z.
(** [std::stof], as the bit pattern of the float it returns *)
Variable stof : string -> Z.
(** [get<float>()] of a number or boolean: the bit pattern of the converted float *)
Variable json_to_float : json -> Z.
(** [get<integer type>()] of a floating-point number: the C++ conversion of the double *)
Variable double_to_int : Z -> Z.
(** [std::to_string(float)] *)
Variable float_to_string : Z -> string.

(** nlohmann's arithmetic [get]: numbers and booleans convert, anything else throws *)
Definition get_number (wrap : Z -> Z) (j : json) : exc Z :=
  match j with
  | JInt z => Ok (wrap z)
  | JFloat d => Ok (wrap (double_to_int d))
  | JBool b => Ok (if b then 1 else 0)
  | _ => Throw "type must be number"
  end.
Definition get_float (j : json) : exc Z :=
  if is_number j || is_boolean j then Ok (json_to_float j) else Throw "type must be number".
Definition get_array {A} (g : json -> exc A) (j : json) : exc (list A) :=
  match j with JArray l => mapM g l | _ => Throw "type must be array" end.

(** [document[field_name]] on a document that has the key (validation made sure of it) *)
Definition field_value (document : doc) (k : string) : json := default JNull (find document k).

(** [std::to_string] of integers and booleans *)
Definition int_to_string (z : Z) : string := pretty z.
Definition bool_to_string (b : bool) : string := if b then "1" else "0".

Definition tokenize (text : string) (no_op : bool) : list string := map fst (tokenizer text no_op).

Definition facet_token_hash (a_field : field) (token : string) : Z :=
  if Schema.is_float a_field then stof token
  else if is_integer a_field || Schema.is_bool a_field then to_uint64 (atoll token)
  else hash_wy token.

(** [facet_to_id] / [get_facet_to_index]: the position of the field in [facet_schema] *)
Fixpoint facet_pos (fs : schema) (k : string) : option nat :=
  match fs with
  | [] => None
  | (k', _) :: fs' => if bool_decide (k' = k) then Some 0%nat else S <$> facet_pos fs' k
  end.

Definition nonempty_tokens (text : string) (a_field : field) : list (string * Z) :=
  List.filter (fun p => negb (String.eqb p.1 "")) (tokenizer text (negb (Schema.is_string a_field))).

Definition push_offset (m : gmap string (list Z)) (token : string) (i : Z) : gmap string (list Z) :=
  <[token := default [] (m !! token) ++ [i]]> m.

Definition insert_doc (score : Z) (t : string) (seq_id : Z) (token_to_offsets : gmap string (list Z)) : M unit :=
  mapM_ (fun kv => modify_art t (fun a => art_insert a kv.1 (mk_posting seq_id score kv.2)))
        (map_to_list token_to_offsets).

Definition index_string_field (text : string) (score : Z) (t : string) (seq_id : Z) (facet_id : Z)
    (a_field : field) : M unit :=
  let toks := nonempty_tokens text a_field in
  let* _ := (if facet_id >=? 0
             then modify_facet seq_id facet_id (fun v => v ++ map (fun p => facet_token_hash a_field p.1) toks)
             else ret tt) in
  let token_to_offsets := foldl (fun m p => push_offset m p.1 p.2) ∅ toks in
  insert_doc score t seq_id token_to_offsets.

(** one array element: its facet values (token hashes, then the delimiter) and its offsets *)
Definition array_element (a_field : field) (acc : list Z * gmap string (list Z))
    (elem : nat * string) : list Z * gmap string (list Z) :=
  let '(array_index, str) := elem in
  let toks := nonempty_tokens str a_field in
  let facet_vals := acc.1 ++ map (fun p => facet_token_hash a_field p.1) toks ++ [FACET_ARRAY_DELIMETER] in
  let positions := foldl (fun m p => push_offset m p.1 p.2) acc.2 toks in
  let token_set := remove_dups (map fst toks) in
  let positions := foldl (fun m tok =>
                           let l := default [] (m !! tok) in
                           <[tok := l ++ [default 0 (last l); Z.of_nat array_index]]> m)
                         positions token_set in
  (facet_vals, positions).

Definition index_string_array_field (strings : list string) (score : Z) (t : string) (seq_id : Z)
    (facet_id : Z) (a_field : field) : M unit :=
  let '(facet_vals, token_positions) :=
    foldl (array_element a_field) ([], ∅) (zip (seq 0 (length strings)) strings) in
  let* _ := (if facet_id >=? 0 then modify_facet seq_id facet_id (fun v => v ++ facet_vals) else ret tt) in
  insert_doc score t seq_id token_positions.

(** [Index::get_points_from_doc]: the float's four bytes are copied into
    the low half of the zero [int64_t] (little endian) *)
Definition get_points_from_doc (document : doc) (default_sorting_field : string) : exc Z :=
  if String.eqb default_sorting_field "" then Ok 0 else
  let v := field_value document default_sorting_field in
  if is_number_float v then
    let points := json_to_float v in
    let points := Z.lxor points (Z.lor (Z.shiftr points (31 - 1)) Int.INT32_MIN) in
    Ok (-1 * (Int.INT32_MAX - points))
  else get_number to_int64 v.

(** the strings a non-string array facet field is indexed under *)
Definition facet_strings (f : field) (v : json) : exc (list string) :=
  match type f with
  | INT32_ARRAY => let! vs := get_array (get_number Int.to_int32) v in Ok (map int_to_string vs)
  | INT64_ARRAY => let! vs := get_array (get_number to_int64) v in Ok (map int_to_string vs)
  | FLOAT_ARRAY => let! vs := get_array get_float v in Ok (map float_to_string vs)
  | BOOL_ARRAY => let! vs := get_array get_bool v in Ok (map bool_to_string vs)
  | _ => Ok []
  end.

Definition facet_text (f : field) (v : json) : exc string :=
  match type f with
  | INT32 => let! z := get_number Int.to_int32 v in Ok (int_to_string z)
  | INT64 => let! z := get_number to_int64 v in Ok (int_to_string z)
  | FLOAT => let! x := get_float v in Ok (float_to_string x)
  | BOOL => let! b := get_bool v in Ok (bool_to_string b)
  | _ => Ok ""
  end.

(** the facet hashes of the elements' tokens that equal the array
    delimiter themselves *)
Definition extra_delimiters (a_field : field) (strings : list string) : nat :=
  sum_list_with (fun str => count_delimiters (map (fun p => facet_token_hash a_field p.1)
                                                 (nonempty_tokens str a_field))) strings.

(** the element texts [index_field] hands to [index_string_array_field] for
    an array field: the strings of a string array, the [std::to_string]
    texts of the values of a numeric or boolean array *)
Definition array_strings (f : field) (v : json) : exc (list string) :=
  if Schema.is_string f then get_array get_string v else facet_strings f v.

Definition num_insert (k : string) (value seq_id : Z) : M unit :=
  modify_num k (fun nt => num_tree_insert nt value seq_id).

(** [doc_to_score->emplace(seq_id, value)]: an existing entry is kept *)
Definition sort_emplace (k : string) (seq_id value : Z) : M unit :=
  modify_sort k (fun m => match m !! seq_id with Some _ => m | None => <[seq_id := value]> m end).

(** the body of the field loop of [index_in_memory] *)
Definition index_field (document : doc) (seq_id points : Z) (is_update : bool)
    (field_pair : string * field) : M unit :=
  let '(field_name, f) := field_pair in
  if (optional f || is_update) && negb (count document field_name) then ret tt else
  let v := field_value document field_name in
  let facet_id := match facet_pos facet_schema field_name with Some i => Z.of_nat i | None => -1 end in
  let* _ :=
    (if facet f && negb (Schema.is_string f) then
       let* _ := art_at (faceted_name f) in
       if Schema.is_array f then
         let* strings := lift (facet_strings f v) in
         index_string_array_field strings points (faceted_name f) seq_id facet_id f
       else
         let* text := lift (facet_text f v) in
         index_string_field text points (faceted_name f) seq_id facet_id f
     else ret tt) in
  let* _ :=
    match type f with
    | STRING =>
        let* _ := art_at field_name in
        let* text := lift (get_string v) in
        index_string_field text points field_name seq_id facet_id f
    | INT32 =>
        let* _ := num_at field_name in
        let* value := lift (get_number to_uint32 v) in
        num_insert field_name value seq_id
    | INT64 =>
        let* _ := num_at field_name in
        let* value := lift (get_number to_uint64 v) in
        num_insert field_name (to_int64 value) seq_id
    | FLOAT =>
        let* _ := num_at field_name in
        let* fvalue := lift (get_float v) in
        num_insert field_name (float_to_in64_t fvalue) seq_id
    | BOOL =>
        let* _ := num_at field_name in
        let* value := lift (get_bool v) in
        num_insert field_name (if value then 1 else 0) seq_id
    | STRING_ARRAY =>
        let* _ := art_at field_name in
        let* strings := lift (get_array get_string v) in
        index_string_array_field strings points field_name seq_id facet_id f
    | INT32_ARRAY =>
        let* _ := num_at field_name in
        let* arr_values := lift (get_array (get_number Int.to_int32) v) in
        mapM_ (fun value => num_insert field_name value seq_id) arr_values
    | INT64_ARRAY =>
        let* _ := num_at field_name in
        let* arr_values := lift (get_array (get_number to_int64) v) in
        mapM_ (fun value => num_insert field_name value seq_id) arr_values
    | FLOAT_ARRAY =>
        let* arr_values := lift (get_array get_float v) in
        mapM_ (fun fvalue => let* _ := num_at field_name in
                             num_insert field_name (float_to_in64_t fvalue) seq_id) arr_values
    | BOOL_ARRAY =>
        let* _ := num_at field_name in
        let* arr_values := lift (get_array get_bool v) in
        mapM_ (fun (value : bool) => num_insert field_name (if value then 1 else 0) seq_id) arr_values
    end in
  match type f with
  | INT32 | INT64 | FLOAT | BOOL =>
      let* _ := sort_at field_name in
      if is_integer f then
        let* value := lift (get_number to_int64 v) in sort_emplace field_name seq_id value
      else if Schema.is_float f then
        let* fvalue := lift (get_float v) in sort_emplace field_name seq_id (float_to_in64_t fvalue)
      else if Schema.is_bool f then
        let* value := lift (get_bool v) in sort_emplace field_name seq_id (if value then 1 else 0)
      else ret tt
  | _ => ret tt
  end.

(** [sort_index[default_sorting_field]->at(seq_id)] *)
Definition stored_points (default_sorting_field : string) (seq_id : Z) : M Z :=
  fun s => match sort_index s !! default_sorting_field with
           | None => RThrow "null sort index" s
           | Some m => match m !! seq_id with Some p => ROk p s | None => RThrow "out_of_range" s end
           end.

Definition index_in_memory (document : doc) (seq_id : Z) (default_sorting_field : string)
    (is_update : bool) : M option_code :=
  let* points :=
    (if is_update && negb (count document default_sorting_field)
     then stored_points default_sorting_field seq_id
     else lift (get_points_from_doc document default_sorting_field)) in
  let values := replicate (length facet_schema) [] in
  let* _ := modify (fun s => set_facet_index_v2
                      (match facet_index_v2 s !! seq_id with
                       | Some _ => facet_index_v2 s
                       | None => <[seq_id := values]> (facet_index_v2 s)
                       end) s) in
  let* _ := mapM_ (index_field document seq_id points is_update) search_schema in
  let* _ := modify (fun s => set_num_documents (num_documents s + 1) s) in
  ret (OptOk 201).

Definition tokenize_doc_field (document : doc) (search_field : field) : exc (list string) :=
  let field_name := Schema.name search_field in
  match type search_field with
  | STRING =>
      let! text := get_string (field_value document field_name) in
      Ok (tokenize text (negb (Schema.is_string search_field)))
  | STRING_ARRAY =>
      let! values := get_array get_string (field_value document field_name) in
      Ok (concat (map (fun value => tokenize value (negb (Schema.is_string search_field))) values))
  | _ => Ok []
  end.

(** [_arrays_match]: same size, then element-wise [!=] *)
Fixpoint arrays_match {A} (eqb : A -> A -> bool) (a b : list A) : bool :=
  match a, b with
  | [], [] => true
  | x :: a', y :: b' => eqb x y && arrays_match eqb a' b'
  | _, _ => false
  end.

(** [==] on floats: NaN equals nothing, and +0.0 equals -0.0 *)
Definition float_eqb (a b : Z) : bool :=
  negb (is_nan a) && negb (is_nan b) &&
  ((a =? b) || ((Z.land a (2 ^ 31 - 1) =? 0) && (Z.land b (2 ^ 31 - 1) =? 0))).

(** the values of a numeric field, as [std::vector{doc[k].get<T>()}] or [doc[k].get<std::vector<T>>()] *)
Definition values_of {A} (single : bool) (g : json -> exc A) (v : json) : exc (list A) :=
  if single then let! x := g v in Ok [x] else get_array g v.

Definition field_unchanged (update_doc old_doc : doc) (field_name : string) (f : field) : exc bool :=
  let nv := field_value update_doc field_name in
  let ov := field_value old_doc field_name in
  if Schema.is_string f then
    let! reindex_vals := tokenize_doc_field update_doc f in
    let! old_vals := tokenize_doc_field old_doc f in
    Ok (arrays_match String.eqb reindex_vals old_vals)
  else if is_int32 f then
    let! reindex_vals := values_of (is_single_integer f) (get_number Int.to_int32) nv in
    let! old_vals := values_of (is_single_integer f) (get_number Int.to_int32) ov in
    Ok (arrays_match Z.eqb reindex_vals old_vals)
  else if is_int64 f then
    let! reindex_vals := values_of (is_single_integer f) (get_number to_int64) nv in
    let! old_vals := values_of (is_single_integer f) (get_number to_int64) ov in
    Ok (arrays_match Z.eqb reindex_vals old_vals)
  else if Schema.is_float f then
    let! reindex_vals := values_of (is_single_float f) get_float nv in
    let! old_vals := values_of (is_single_float f) get_float ov in
    Ok (arrays_match float_eqb reindex_vals old_vals)
  else if Schema.is_bool f then
    let! reindex_vals := values_of (is_single_bool f) get_bool nv in
    let! old_vals := values_of (is_single_bool f) get_bool ov in
    Ok (arrays_match Bool.eqb reindex_vals old_vals)
  else Ok false.

(** [Index::scrub_reindex_doc]: the scrubbed update document and delete document *)
Fixpoint scrub_reindex_doc (update_doc del_doc old_doc : doc) : exc (doc * doc) :=
  match del_doc with
  | [] => Ok (update_doc, [])
  | (field_name, dv) :: del_rest =>
      match schema_at search_schema field_name with
      | None =>
          let! r := scrub_reindex_doc update_doc del_rest old_doc in
          Ok (r.1, (field_name, dv) :: r.2)
      | Some search_field =>
          let! same := field_unchanged update_doc old_doc field_name search_field in
          if same then scrub_reindex_doc (erase update_doc field_name) del_rest old_doc
          else let! r := scrub_reindex_doc update_doc del_rest old_doc in
               Ok (r.1, (field_name, dv) :: r.2)
      end
  end.

(** removal of one token's posting of the document *)
Definition remove_token (field_name : string) (seq_id : Z) (token : string) : M unit :=
  let* t := art_at field_name in
  match t !! token with
  | None => ret tt
  | Some leaf =>
      if negb (existsb (fun p => p_id p =? seq_id) leaf) then ret tt
      else
        let leaf' := List.filter (fun p => negb (p_id p =? seq_id)) leaf in
        match leaf' with
        | [] => modify_art field_name (delete token)
        | _ => modify_art field_name (insert token leaf')
        end
  end.

Definition remove_values (field_name : string) (seq_id : Z) (values : list Z) : M unit :=
  mapM_ (fun value => let* _ := num_at field_name in
                      modify_num field_name (fun nt => num_tree_remove nt value seq_id)) values.

Definition remove_field (seq_id : Z) (document : doc) (field_name : string) : M unit :=
  match schema_at search_schema field_name with
  | None => ret tt
  | Some search_field =>
      let v := field_value document field_name in
      let* _ :=
        (match type search_field with
         | STRING_ARRAY | STRING =>
             let* tokens := lift (tokenize_doc_field document search_field) in
             mapM_ (remove_token field_name seq_id) tokens
         | _ =>
             if is_int32 search_field then
               let* values := lift (values_of (is_single_integer search_field) (get_number Int.to_int32) v) in
               remove_values field_name seq_id values
             else if is_int64 search_field then
               let* values := lift (values_of (is_single_integer search_field) (get_number to_int64) v) in
               remove_values field_name seq_id values
             else if Schema.is_float search_field then
               let* values := lift (values_of (is_single_float search_field) get_float v) in
               remove_values field_name seq_id (map float_to_in64_t values)
             else if Schema.is_bool search_field then
               let* values := lift (values_of (is_single_bool search_field) get_bool v) in
               remove_values field_name seq_id (map (fun b : bool => if b then 1 else 0) values)
             else ret tt
         end) in
      let* has_facets := gets (fun s => bool_decide (is_Some (facet_index_v2 s !! seq_id))) in
      let* _ :=
        (match facet_pos facet_schema field_name with
         | Some facet_index => if has_facets then modify_facet seq_id (Z.of_nat facet_index) (fun _ => []) else ret tt
         | None => ret tt
         end) in
      let* has_sort := gets (fun s => bool_decide (is_Some (sort_index s !! field_name))) in
      if has_sort then modify_sort field_name (delete seq_id) else ret tt
  end.

Definition remove (seq_id : Z) (document : doc) : M Z :=
  let* _ := mapM_ (fun kv => remove_field seq_id document kv.1) document in
  ret seq_id.

(** [Option<bool> indexed] of an [index_record] *)
Inductive indexed_t := Indexed (b : bool) | IndexFailure (code : Z) (msg : string).

Inductive index_operation_t := CREATE | UPSERT | UPDATE | DELETE.

Record index_record := mk_record {
  position : Z;
  rec_seq_id : Z;
  rec_doc : doc;
  rec_old_doc : doc;
  rec_del_doc : doc;
  operation : index_operation_t;
  rec_is_update : bool;
  indexed : indexed_t
}.

Definition indexed_ok (i : indexed_t) : bool := match i with Indexed _ => true | _ => false end.

Definition with_indexed (r : index_record) (i : indexed_t) : index_record :=
  mk_record (position r) (rec_seq_id r) (rec_doc r) (rec_old_doc r) (rec_del_doc r)
            (operation r) (rec_is_update r) i.
Definition index_failure (r : index_record) (err_code : Z) (err_msg : string) : index_record :=
  with_indexed r (IndexFailure err_code err_msg).
Definition index_success (r : index_record) : index_record := with_indexed r (Indexed true).

Variable exceeds_float_max : json -> bool.

(** one iteration of the loop of [batch_memory_index]: the record as it
    leaves the iteration, and whether [num_indexed] is incremented *)
Definition index_one (default_sorting_field : string) (index_rec : index_record) : M (index_record * bool) :=
  if negb (indexed_ok (indexed index_rec)) then ret (index_rec, false) else
  match operation index_rec with
  | DELETE => ret (index_rec, false)
  | _ =>
      let* validation_op := lift (validate_index_in_memory exceeds_float_max (rec_doc index_rec)
                                    (rec_seq_id index_rec) default_sorting_field search_schema
                                    (rec_is_update index_rec)) in
      match validation_op with
      | OptErr code msg => ret (index_failure index_rec code msg, false)
      | OptOk _ =>
          let* index_rec :=
            (if rec_is_update index_rec then
               let* scrubbed := lift (scrub_reindex_doc (rec_doc index_rec) (rec_del_doc index_rec)
                                                        (rec_old_doc index_rec)) in
               let index_rec := mk_record (position index_rec) (rec_seq_id index_rec) scrubbed.1
                                  (rec_old_doc index_rec) scrubbed.2 (operation index_rec)
                                  (rec_is_update index_rec) (indexed index_rec) in
               let* _ := remove (rec_seq_id index_rec) (rec_del_doc index_rec) in
               ret index_rec
             else ret index_rec) in
          let* index_mem_op := index_in_memory (rec_doc index_rec) (rec_seq_id index_rec)
                                 default_sorting_field (rec_is_update index_rec) in
          match index_mem_op with
          | OptErr code msg =>
              let* _ := index_in_memory (rec_del_doc index_rec) (rec_seq_id index_rec) default_sorting_field true in
              ret (index_failure index_rec code msg, false)
          | OptOk _ => ret (index_success index_rec, negb (rec_is_update index_rec))
          end
      end
  end.

(** [Index::batch_memory_index]: [num_indexed] and the records as the loop leaves them *)
Fixpoint batch_memory_index (iter_batch : list index_record) (default_sorting_field : string)
    : M (Z * list index_record) :=
  match iter_batch with
  | [] => ret (0, [])
  | index_rec :: rest =>
      let* r := index_one default_sorting_field index_rec in
      let* n := batch_memory_index rest default_sorting_field in
      ret ((if r.2 then 1 else 0) + n.1, r.1 :: n.2)
  end.
End Ingestion.
(** ** Reasoning about the index monad *)

(** The index state reached by a computation, whether it returned or threw. *)
Definition res_state {A} (r : res A) : index := match r with ROk _ s => s | RThrow _ s => s end.
Definition preserves {A} (P : index -> Prop) (m : M A) : Prop := forall s, P s -> P (res_state (m s)).
Definition hoare {A} (P : index -> Prop) (m : M A) (Q : A -> index -> Prop) : Prop :=
forall s, P s -> match m s with ROk a s' => Q a s' | RThrow _ _ => True end.
Definition slot_at (seq_id : Z) (i : nat) (s : index) : option (list Z) :=
facet_index_v2 s !! seq_id ≫= (fun v => v !! i).

(** The facet slot [i] of document [seq_id] holds exactly [k] array delimiters. *)
Definition delims_at (seq_id : Z) (i : nat) (k : nat) (s : index) : Prop :=
exists e, slot_at seq_id i s = Some e /\ count_delimiters e = k.

(** A document with a faceted string-array field, for the facet delimiter count. *)
Definition facet_tags_field : field := mk_field "tags" STRING_ARRAY true false.
Definition facet_tags_schema : schema := [("tags", facet_tags_field)].
Definition facet_tags_doc : doc := [("tags", JArray [JString "red apple"; JString "Blue"; JString "x"])].
Definition facet_tags_index : index := mk_index {[ "tags" := ∅ ]} ∅ ∅ ∅ 0.

(** A document with a faceted int32-array field holding -1 and 5. *)
Definition facet_nums_field : field := mk_field "nums" INT32_ARRAY true false.
Definition facet_nums_schema : schema := [("nums", facet_nums_field)].
Definition facet_nums_doc : doc := [("nums", JArray [JInt (-1); JInt 5])].
Definition facet_nums_index : index := mk_index {[ "_fstr_nums" := ∅ ]} {[ "nums" := [] ]} ∅ ∅ 0.

(** The index entries of field [k] (ART, faceted-name ART, numeric tree, sort
    map) and its facet slot [pos] of document [seq_id]. *)
Definition field_entries (k fk : string) (pos : option nat) (seq_id : Z) (s : index)
    : option art * option art * option num_tree * option (gmap Z Z) * option (list Z) :=
  (search_index s !! k, search_index s !! fk, numerical_index s !! k, sort_index s !! k,
   pos ≫= fun i => slot_at seq_id i s).

(** An update record whose title changes only in letter case. *)
Definition title_field : field := mk_field "title" STRING false false.
Definition update_schema : schema := [("points", mk_field "points" INT32 false false); ("title", title_field)].
Definition update_record : index_record :=
  mk_record 0 3 [("points", JInt 5); ("title", JString "Hello")]
              [("points", JInt 4); ("title", JString "hello")]
              [("points", JInt 4); ("title", JString "hello")] UPDATE true (Indexed true).

(** An update that adds an optional string-array field holding ["a", 1] to a
    document indexed with title "old"; the update also changes the title. *)
Definition tags_title_schema : schema :=
  [("tags", mk_field "tags" STRING_ARRAY false true); ("title", mk_field "title" STRING false false);
   ("points", mk_field "points" INT32 false false)].
Definition fresh_index : index :=
  mk_index {[ "tags" := ∅; "title" := ∅ ]} {[ "points" := [] ]} {[ "points" := ∅ ]} ∅ 0.
Definition old_title_doc : doc := [("points", JInt 1); ("title", JString "old")].
Definition mixed_update_record : index_record :=
  mk_record 0 1 [("tags", JArray [JString "a"; JInt 1]); ("title", JString "new")] old_title_doc
            [("title", JString "old")] UPDATE true (Indexed true).

Definition indexed_old_title : index :=
  res_state (index_in_memory tags_title_schema [] (fun f => "_fstr_" +:+ name f) SpecTokenizer.tokenizer
               (fun _ => 0) (fun _ => 0) (fun _ => 0) (fun z => z) (fun _ => "")
               old_title_doc 1 "points" false fresh_index).

(** A float field and a document holding 1.0 in it. *)
Definition price_field : field := mk_field "price" FLOAT false false.
Definition price_doc : doc := [("price", JFloat 4607182418800017408)].

(** a [json_to_float] for examples whose numbers hold the float's bits *)
Definition float_bits_of (j : json) : Z := match j with JFloat b => b | _ => 0 end.

End Ingest.

(** ** String filters of [Index::do_filtering] *)
Module Filter.
Import Json Schema Ingest.

Section Filtering.
Variable hash_wy stof : string -> Z.
(** Modelled from the spec: [Tokenizer(filter_value, false, true)] (not in
    src/), the tokens its [next] yields for a filter value. *)
Variable filter_tokenizer : string -> list string.

Definition leaf_ids (leaf : list posting) : list Z := map p_id leaf.

(** [ArrayUtils::and_scalar] and [ArrayUtils::or_scalar] on id lists *)
Definition and_ids (a b : list Z) : list Z := List.filter (fun x => existsb (Z.eqb x) b) a.
Definition or_ids (a b : list Z) : list Z := a ++ List.filter (fun x => negb (existsb (Z.eqb x) a)) b.

(** the token loop: [strt_ids] (None while it is [nullptr]) and the size of
    [query_suggestion]; a token without a leaf is skipped *)
Fixpoint token_ids (t : art) (tokens : list string) (strt_ids : option (list Z)) (found : nat)
    : option (list Z) * nat :=
  match tokens with
  | [] => (strt_ids, found)
  | tok :: rest =>
      match t !! tok with
      | None => token_ids t rest strt_ids found
      | Some leaf =>
          token_ids t rest (Some (match strt_ids with
                                  | None => leaf_ids leaf
                                  | Some ids => and_ids ids (leaf_ids leaf)
                                  end)) (S found)
      end
  end.

(** [filter_hash *= (1779033703 + 2*thash*(sindex+1))] in [uint64_t] *)
Fixpoint hash_tokens (f : field) (tokens : list string) (sindex : Z) (h : Z) : Z :=
  match tokens with
  | [] => h
  | tok :: rest =>
      let thash := facet_token_hash hash_wy stof f tok in
      hash_tokens f rest (sindex + 1) (to_uint64 (h * (1779033703 + 2 * thash * (sindex + 1))))
  end.
Definition filter_hash (f : field) (tokens : list string) : Z := hash_tokens f tokens 0 1.

(** the scan of the facet values of an array field, element by element *)
Fixpoint element_match (fvalues : list Z) (target all_fvalue_hash ftindex : Z) : bool :=
  match fvalues with
  | [] => false
  | fhash :: rest =>
      if fhash =? FACET_ARRAY_DELIMETER then
        if all_fvalue_hash =? target then true else element_match rest target 1 0
      else element_match rest target
             (to_uint64 (all_fvalue_hash * (1779033703 + 2 * fhash * (ftindex + 1)))) (ftindex + 1)
  end.

Definition exact_match (f : field) (tokens : list string) (found : nat) (fvalues : list Z) : bool :=
  if negb (Schema.is_array f) then Nat.eqb found (length fvalues)
  else element_match fvalues (filter_hash f tokens) 1 0.

(** [facet_index_v2[seq_id][facet_id]] *)
Definition facet_values (fi : gmap Z (list (list Z))) (seq_id : Z) (facet_id : nat) : list Z :=
  default [] (fi !! seq_id ≫= fun v => v !! facet_id).

(** the ids of one filter value: [equals] is [comparators[0] == EQUALS] *)
Definition filter_value_ids (t : art) (fi : gmap Z (list (list Z))) (facet_id : nat) (f : field)
    (equals : bool) (filter_value : string) : list Z :=
  let str_tokens := filter_tokenizer filter_value in
  let '(strt_ids, found) := token_ids t str_tokens None 0 in
  let strt_ids := default [] strt_ids in
  if equals && facet f
  then List.filter (fun seq_id => exact_match f str_tokens found (facet_values fi seq_id facet_id)) strt_ids
  else strt_ids.

(** the string branch of [do_filtering] for one filter: the union over its values *)
Definition string_filter_ids (t : art) (fi : gmap Z (list (list Z))) (facet_id : nat) (f : field)
    (equals : bool) (values : list string) : list Z :=
  fold_left (fun ids v => or_ids ids (filter_value_ids t fi facet_id f equals v)) values [].
End Filtering.

(** A faceted string field and a document holding "b a" in it. *)
Definition country_field : field := mk_field "country" STRING true false.
Definition country_schema : schema := [("country", country_field)].
Definition country_doc : doc := [("country", JString "b a")].
Definition country_empty_index : index := mk_index {[ "country" := ∅ ]} ∅ ∅ ∅ 0.
(** A token hash that tells "a" and "b" apart: the code of the first character. *)
Definition first_char_hash (s : string) : Z :=
  match s with String c _ => Z.of_nat (nat_of_ascii c) | EmptyString => 0 end.
Definition spec_filter_tokens (v : string) : list string := map fst (SpecTokenizer.tokenizer v false).
Definition indexed_country : index :=
  res_state (index_in_memory country_schema country_schema (fun f => "_fstr_" +:+ name f) SpecTokenizer.tokenizer
               first_char_hash (fun _ => 0) (fun _ => 0) (fun z => z) (fun _ => "")
               country_doc 1 "" false country_empty_index).
Definition country_art : art := default ∅ (search_index indexed_country !! "country").

End Filter.

(** ** Per-field search: [Index::search_candidates] and [Index::search_field] *)
Module Search.
Import Filter.

(** the document ids of an [art_leaf] *)
Definition leaf := list Z.

Record token_candidates := mk_tc { tc_token : string; tc_cost : Z; tc_candidates : list leaf }.

(** [ArrayUtils::exclude_scalar] on id lists *)
Definition exclude_ids (a b : list Z) : list Z := List.filter (fun x => negb (existsb (Z.eqb x) b)) a.

Definition combination_limit : Z := 10.

(** [next_suggestion]: the leaf of each token in combination [n], the first
    token varying fastest ([q = ldiv(q.quot, candidates.size())]) *)
Fixpoint next_suggestion (tcs : list token_candidates) (q : Z) : list leaf :=
  match tcs with
  | [] => []
  | tc :: rest =>
      let size := Z.of_nat (length (tc_candidates tc)) in
      nth (Z.to_nat (q mod size)) (tc_candidates tc) [] :: next_suggestion rest (q / size)
  end.

(** the intersection of the leaves' ids; [next_suggestion] sorts the leaves by
    size first, which only changes the order of the intersections *)
Definition intersect_leaves (query_suggestion : list leaf) : list Z :=
  match query_suggestion with
  | [] => []
  | l0 :: rest => fold_left (fun result_ids l => and_ids l result_ids) rest l0
  end.

(** [N = accumulate(..., 1LL, a * b.candidates.size())], a [long long] *)
Definition candidate_combinations (tcs : list token_candidates) : Z :=
  fold_left (fun a tc => Ingest.to_int64 (a * Z.of_nat (length (tc_candidates tc)))) tcs 1.

(** combination [n] of [search_candidates]: [None] where a [continue] skips
    it, else the ids added to [field_num_results] *)
Definition combination_ids (filter_ids : option (list Z)) (exclude_token_ids curated_ids : list Z)
    (tcs : list token_candidates) (n : Z) : option (list Z) :=
  let query_suggestion := next_suggestion tcs n in
  (* [query_suggestion[0]] is the smallest leaf after the sort *)
  if existsb (fun l => Nat.eqb (length l) 0) query_suggestion then None else
  let result_ids := intersect_leaves query_suggestion in
  if Nat.eqb (length result_ids) 0 then None else
  let result_ids := if Nat.eqb (length exclude_token_ids) 0 then result_ids
                    else exclude_ids result_ids exclude_token_ids in
  let result_ids := if Nat.eqb (length curated_ids) 0 then result_ids
                    else exclude_ids result_ids curated_ids in
  Some (match filter_ids with
        | Some f => and_ids f result_ids
        | None => result_ids
        end).

(** the [for(n=0; n<N && n<combination_limit; ++n)] loop; the result is
    [field_num_results] and the number of combinations [n] gone through *)
Fixpoint candidates_loop (fuel : nat) (filter_ids : option (list Z)) (exclude_token_ids curated_ids : list Z)
    (tcs : list token_candidates) (typo_tokens_threshold : nat) (N n : Z)
    (field_num_results evaluated : nat) : nat * nat :=
  match fuel with
  | O => (field_num_results, evaluated)
  | S fuel' =>
      if (n <? N) && (n <? combination_limit) then
        match combination_ids filter_ids exclude_token_ids curated_ids tcs n with
        | None =>
            candidates_loop fuel' filter_ids exclude_token_ids curated_ids tcs typo_tokens_threshold
              N (n + 1) field_num_results (S evaluated)
        | Some ids =>
            let field_num_results := (field_num_results + length ids)%nat in
            if Nat.leb typo_tokens_threshold field_num_results then (field_num_results, S evaluated)
            else candidates_loop fuel' filter_ids exclude_token_ids curated_ids tcs typo_tokens_threshold
                   N (n + 1) field_num_results (S evaluated)
        end
      else (field_num_results, evaluated)
  end.

(** [Index::search_candidates]; the loop takes at most [min N combination_limit] turns *)
Definition search_candidates (filter_ids : option (list Z)) (exclude_token_ids curated_ids : list Z)
    (tcs : list token_candidates) (field_num_results typo_tokens_threshold : nat) : nat * nat :=
  let N := candidate_combinations tcs in
  candidates_loop (Z.to_nat (Z.min N combination_limit)) filter_ids exclude_token_ids curated_ids tcs typo_tokens_threshold
    N 0 field_num_results 0.

(** the state of the loop of [search_field] over cost vectors *)
Record sf_state := mk_sf {
  token_to_costs : list (list Z);
  search_tokens : list string;
  query_tokens : list string;
  token_cost_cache : gmap string (list leaf);
  field_num_results : nat;
  (* the cost vectors handed to [search_candidates], in order, and the number
     of leaf combinations each of these calls went through *)
  evaluated_costs : list (list Z);
  evaluated_combinations : list nat
}.

Definition set_cache (c : gmap string (list leaf)) (st : sf_state) : sf_state :=
  mk_sf (token_to_costs st) (search_tokens st) (query_tokens st) c (field_num_results st)
    (evaluated_costs st) (evaluated_combinations st).

(** [costs[i] = token_to_costs[i][q.rem]] for [i] from the last token down *)
Fixpoint costs_from_last (rev_costs : list (list Z)) (q : Z) : list Z :=
  match rev_costs with
  | [] => []
  | c :: rest =>
      let size := Z.of_nat (length c) in
      nth (Z.to_nat (q mod size)) c 0 :: costs_from_last rest (q / size)
  end.
Definition cost_vector (tbl : list (list Z)) (n : Z) : list Z := rev (costs_from_last (rev tbl) n).

(** [N = accumulate(..., 1LL, a * b.size())], a [long long] *)
Definition cost_product (tbl : list (list Z)) : Z :=
  fold_left (fun a b => Ingest.to_int64 (a * Z.of_nat (length b))) tbl 1.

(** [std::find] and [erase] of a cost *)
Fixpoint erase_first (c : Z) (l : list Z) : list Z :=
  match l with
  | [] => []
  | x :: r => if x =? c then r else x :: erase_first c r
  end.

(** no leaf for the token at [token_index] at [cost]: the cost is removed,
    and the token with it when it has no cost left *)
Definition drop_cost (st : sf_state) (token_index : nat) (cost : Z) : sf_state :=
  let cs := default [] (token_to_costs st !! token_index) in
  if existsb (Z.eqb cost) cs then
    match erase_first cost cs with
    | [] => mk_sf (delete token_index (token_to_costs st)) (delete token_index (search_tokens st))
              (delete token_index (query_tokens st)) (token_cost_cache st) (field_num_results st)
              (evaluated_costs st) (evaluated_combinations st)
    | cs' => mk_sf (<[token_index := cs']> (token_to_costs st)) (search_tokens st) (query_tokens st)
              (token_cost_cache st) (field_num_results st) (evaluated_costs st) (evaluated_combinations st)
    end
  else st.

Inductive token_result := AllFound (tcs : list token_candidates) | NotFound (token_index : nat).

Section SearchField.
(** Modelled from the spec: [art_fuzzy_search] on the field's tree (art.cpp,
    not in src/): the leaves of the tokens within [cost] typos of [token],
    prefix-matching when [prefix_search] (the number of candidates it keeps
    follows from [prefix_search] too). *)
Variable art_fuzzy_search : string -> Z -> bool -> list leaf.
Variable prefix : bool.
Variable num_typos : Z.
Variable filter_ids : option (list Z).
Variable exclude_token_ids curated_ids : list Z.

(** the inner [while(token_index < search_tokens.size())] loop *)
Fixpoint token_loop (tokens : list string) (costs : list Z) (token_index ntokens : nat)
    (cache : gmap string (list leaf)) (acc : list token_candidates) : gmap string (list leaf) * token_result :=
  match tokens with
  | [] => (cache, AllFound acc)
  | token :: rest =>
      let cost := nth token_index costs 0 in
      let token_cost_hash := token +:+ pretty cost in
      let '(cache, leaves) :=
        match cache !! token_cost_hash with
        | Some leaves => (cache, leaves)
        | None =>
            let prefix_search := prefix && Nat.eqb token_index (ntokens - 1) in
            let leaves := art_fuzzy_search token cost prefix_search in
            (match leaves with [] => cache | _ => <[token_cost_hash := leaves]> cache end, leaves)
        end in
      match leaves with
      | [] => (cache, NotFound token_index)
      | _ => token_loop rest costs (S token_index) ntokens cache (acc ++ [mk_tc token cost leaves])
      end
  end.

(** [search_candidates] on the candidates of cost vector [costs] *)
Definition record_candidates (costs : list Z) (tcs : list token_candidates) (typo_tokens_threshold : nat)
    (st : sf_state) : sf_state :=
  let '(fnr, k) := search_candidates filter_ids exclude_token_ids curated_ids tcs
                     (field_num_results st) typo_tokens_threshold in
  mk_sf (token_to_costs st) (search_tokens st) (query_tokens st) (token_cost_cache st) fnr
    (evaluated_costs st ++ [costs]) (evaluated_combinations st ++ [k]).

(** the [while(n < N && n < combination_limit)] loop of [search_field]; the
    flag tells whether it returned on a threshold *)
Fixpoint typo_loop (fuel : nat) (drop_tokens_threshold typo_tokens_threshold : nat) (n N : Z)
    (st : sf_state) : option (bool * sf_state) :=
  match fuel with
  | O => None
  | S fuel' =>
      if (n <? N) && (n <? combination_limit) then
        let costs := cost_vector (token_to_costs st) n in
        let '(cache, r) := token_loop (search_tokens st) costs 0 (length (search_tokens st))
                             (token_cost_cache st) [] in
        let st := set_cache cache st in
        let '(n, N, st) :=
          match r with
          | AllFound tcs =>
              (n, N, match tcs with [] => st | _ => record_candidates costs tcs typo_tokens_threshold st end)
          | NotFound token_index =>
              let st := drop_cost st token_index (nth token_index costs 0) in
              ((-1), cost_product (token_to_costs st), st)
          end in
        (* [resume_typo_loop:] *)
        if Nat.leb drop_tokens_threshold (field_num_results st)
           || Nat.leb typo_tokens_threshold (field_num_results st)
        then Some (true, st)
        else typo_loop fuel' drop_tokens_threshold typo_tokens_threshold (n + 1) N st
      else Some (false, st)
  end.

Definition total_costs (tbl : list (list Z)) : nat := sum_list_with length tbl.

(** enough turns for [typo_loop]: at most [combination_limit + 1] between two
    removals of a cost *)
Definition loop_fuel (tbl : list (list Z)) : nat := (11 * S (total_costs tbl))%nat.

(** [truncated_tokens] of the token-dropping step *)
Definition truncated_tokens (query_tokens : list string) (num_tokens_dropped : nat) : list string :=
  let mid_index := (length query_tokens / 2)%nat in
  if Nat.leb num_tokens_dropped mid_index then
    (* drop from right *)
    let end_index := (length query_tokens - 1 - num_tokens_dropped)%nat in
    take (S end_index) query_tokens
  else
    (* drop from left *)
    drop (num_tokens_dropped - mid_index) query_tokens.

(** [Index::DROP_TOKENS_THRESHOLD] and [Index::TYPO_TOKENS_THRESHOLD], the
    defaults of [search_field]'s last two parameters *)
Definition DROP_TOKENS_THRESHOLD : nat := 10.
Definition TYPO_TOKENS_THRESHOLD : nat := 100.

(** one invocation of [search_field]: its [search_tokens], whether its loop
    returned on a threshold, its [field_num_results], the [query_tokens]
    after its loop and the cost vectors it evaluated *)
Record invocation := mk_inv {
  inv_tokens : list string;
  inv_threshold : bool;
  inv_results : nat;
  inv_query_tokens : list string;
  inv_costs : list (list Z);
  inv_combinations : list nat
}.

(** [Index::search_field]: the invocations, then [query_tokens] and
    [num_tokens_dropped] (both passed by reference) *)
Fixpoint search_field (fuel : nat) (query_tokens_ref search_tokens : list string) (num_tokens_dropped : nat)
    (drop_tokens_threshold typo_tokens_threshold : nat) : option (list invocation * list string * nat) :=
  match fuel with
  | O => None
  | S fuel' =>
      let tbl := map (fun token => TypoCost.token_costs num_typos (Z.of_nat (String.length token))) search_tokens in
      let st0 := mk_sf tbl search_tokens query_tokens_ref ∅ 0 [] [] in
      match typo_loop (loop_fuel tbl) drop_tokens_threshold typo_tokens_threshold 0 (cost_product tbl) st0 with
      | None => None
      | Some (returned, st) =>
          let inv := mk_inv search_tokens returned (field_num_results st) (query_tokens st)
                       (evaluated_costs st) (evaluated_combinations st) in
          let query_tokens := query_tokens st in
          if returned then Some ([inv], query_tokens, num_tokens_dropped)
          else if negb (Nat.eqb (length query_tokens) 0) && Nat.ltb num_tokens_dropped (length query_tokens) then
            let num_tokens_dropped := S num_tokens_dropped in
            match search_field fuel' query_tokens (truncated_tokens query_tokens num_tokens_dropped)
                    num_tokens_dropped DROP_TOKENS_THRESHOLD TYPO_TOKENS_THRESHOLD with
            | Some (invs, q, k) => Some (inv :: invs, q, k)
            | None => None
            end
          else Some ([inv], query_tokens, num_tokens_dropped)
      end
  end.
End SearchField.


(** Two tokens of three letters: "abc" has leaves at costs 0 and 1 only,
    "xyz" at every cost, in disjoint documents. *)
Definition two_token_search (token : string) (cost : Z) (prefix_search : bool) : list leaf :=
  if String.eqb token "abc" then (if cost <=? 1 then [[1]] else [])
  else if String.eqb token "xyz" then [[2]]
  else [].


End Search.

(** ** Wildcard search: the [q == "*"] branch of [Index::search] *)
Module Wildcard.
Import Schema Ingest Search.

(** Modelled from the spec: [sort_field_const::text_match] and
    [sort_field_const::asc] (not in src/), the sort grammar's [_text_match]
    and [ASC]. *)
Definition text_match : string := "_text_match".
Definition asc : string := "ASC".

Record sort_by := mk_sort_by { sort_name : string; sort_order : string }.

(** the first non-optional field of [sort_schema] other than [text_match],
    [sort_schema] listed in the iteration order of its [unordered_map] *)
Fixpoint all_records_field (sort_schema : list (string * field)) : string :=
  match sort_schema with
  | [] => ""
  | (k, f) :: rest =>
      if negb (optional f) && negb (String.eqb k text_match) then k else all_records_field rest
  end.

(** [filter_ids] of the wildcard branch; [None] where [sort_index[""]] or a
    missing sort map is dereferenced *)
Definition wildcard_ids (s : index) (sort_schema : list (string * field)) (filters_empty : bool)
    (filter_ids curated_ids_sorted exclude_token_ids : list Z) : option (list Z) :=
  let filter_ids :=
    if filters_empty then
      match sort_index s !! all_records_field sort_schema with
      | Some kvs => Some ((map_to_list kvs).*1)
      | None => None
      end
    else Some filter_ids in
  match filter_ids with
  | None => None
  | Some filter_ids =>
      let filter_ids :=
        if negb (Nat.eqb (length curated_ids_sorted) 0)
        then exclude_ids (if filters_empty then merge_sort Z.le filter_ids else filter_ids) curated_ids_sorted
        else filter_ids in
      let filter_ids :=
        if negb (Nat.eqb (length exclude_token_ids) 0)
        then exclude_ids (if filters_empty then merge_sort Z.le filter_ids else filter_ids) exclude_token_ids
        else filter_ids in
      Some filter_ids
  end.

(** a [KV] of the Topster: the document and its three scores *)
Record kv := mk_kv { kv_seq_id : Z; kv_scores : list Z }.

(** [field_values[i]]: [sort_index.at(name)] throws for a missing field *)
Definition field_values_ok (s : index) (sort_fields : list sort_by) : bool :=
  forallb (fun sb => String.eqb (sort_name sb) text_match || bool_decide (is_Some (sort_index s !! sort_name sb)))
    (firstn 3 sort_fields).

(** the value of one sort field for a document: the match score for
    [text_match] ([int64_t(match_score)]), else the sort index entry, 0 when
    the document has none *)
Definition sort_value (s : index) (match_score : Z) (sb : sort_by) (seq_id : Z) : Z :=
  if String.eqb (sort_name sb) text_match then to_int64 match_score
  else default 0 (sort_index s !! sort_name sb ≫= fun m => m !! seq_id).

(** [if(sort_order[i] == -1) scores[i] = -scores[i];] on [int64_t] *)
Definition sort_score (sb : sort_by) (v : Z) : Z :=
  if String.eqb (sort_order sb) asc then to_int64 (- v) else v.

Definition kv_scores_of (s : index) (sort_fields : list sort_by) (match_score seq_id : Z) : list Z :=
  firstn 3 (map (fun sb => sort_score sb (sort_value s match_score sb seq_id)) (firstn 3 sort_fields) ++ [0; 0; 0]).

(** [score_results] with an empty [query_suggestion]: every id gets the
    single-token match score; the model covers [group_limit == 0] *)
Definition score_results (s : index) (sort_fields : list sort_by) (match_score : Z) (result_ids : list Z)
    : option (list kv) :=
  if field_values_ok s sort_fields
  then Some (map (fun seq_id => mk_kv seq_id (kv_scores_of s sort_fields match_score seq_id)) result_ids)
  else None.

(** Modelled from the spec (4.6, the Topster is not in src/): entries
    compared lexicographically on their scores, and the [K] greatest kept,
    greatest first ([group_limit == 0]). *)
Fixpoint lex_ge (a b : list Z) : bool :=
  match a, b with
  | x :: a', y :: b' => (x >? y) || ((x =? y) && lex_ge a' b')
  | _, _ => true
  end.
Definition kv_ge (x y : kv) : Prop := lex_ge (kv_scores x) (kv_scores y) = true.
#[global] Instance kv_ge_dec : RelDecision kv_ge := fun x y => decide (lex_ge (kv_scores x) (kv_scores y) = true).
Definition topster_results (K : nat) (kvs : list kv) : list kv := take K (merge_sort kv_ge kvs).

Section WildcardSearch.
(** Modelled from the spec (4.7, [Match] is not in src/):
    [single_token_match_score], the score of every document of a wildcard
    search. *)
Variable single_token_match_score : Z.

(** the wildcard branch of [Index::search], then the Topster's entries *)
Definition wildcard_search (s : index) (sort_schema : list (string * field)) (sort_fields : list sort_by)
    (K : nat) (filters_empty : bool) (filter_ids curated_ids_sorted exclude_token_ids : list Z)
    : option (list kv) :=
  ids ← wildcard_ids s sort_schema filters_empty filter_ids curated_ids_sorted exclude_token_ids;
  kvs ← score_results s sort_fields single_token_match_score ids;
  Some (topster_results K kvs).

(** the order of the sort specification (not the code's): the first sort
    field on which two documents differ decides, the larger value first for
    DESC and the smaller first for ASC *)
Fixpoint spec_ranks_before (s : index) (sort_fields : list sort_by) (a b : Z) : bool :=
  match sort_fields with
  | [] => true
  | sb :: rest =>
      let va := sort_value s single_token_match_score sb a in
      let vb := sort_value s single_token_match_score sb b in
      if va =? vb then spec_ranks_before s rest a b
      else if String.eqb (sort_order sb) asc then va <? vb else va >? vb
  end.
End WildcardSearch.

(** Two documents with points 5 and 9 in the sort index, and a third one. *)
Definition points_field : field := mk_field "points" INT32 false false.
Definition wildcard_schema : list (string * field) :=
  [("tags", mk_field "tags" STRING_ARRAY false true); ("points", points_field)].
Definition wildcard_index : index :=
  mk_index ∅ ∅ {[ "points" := {[ 1 := 5; 2 := 9; 3 := 7 ]} ]} ∅ 3.

(** Two documents of an int64 field, indexed with the values INT64_MIN and 0. *)
Definition int64_schema : list (string * field) := [("points", mk_field "points" INT64 false false)].
Definition index_int64_doc (seq_id value : Z) (s : index) : index :=
  res_state (index_in_memory int64_schema [] (fun f => "_fstr_" +:+ name f) SpecTokenizer.tokenizer
               (fun _ => 0) (fun _ => 0) (fun _ => 0) (fun z => z) (fun _ => "")
               [("points", Json.JInt value)] seq_id "points" false s).
Definition int64_min_index : index :=
  index_int64_doc 2 0 (index_int64_doc 1 (- 2 ^ 63)
    (mk_index ∅ {[ "points" := [] ]} {[ "points" := ∅ ]} ∅ 0)).
End Wildcard.

Module Leaf.
Import Int Json Schema Ingest.
(** Modelled from the spec: the posting container of an ART leaf
    ([art_values], art.h is not in src/): the sorted document ids, the
    start of each document's slice in [offsets], and the flat offsets. *)
Record art_values := mk_values { ids : list Z; offset_index : list Z; offsets : list Z }.

(** Modelled from the spec: [sorted_array::indexOf], the position of the
    value, or the length when it is absent. *)
Fixpoint index_of (l : list Z) (v : Z) : nat :=
  match l with [] => 0%nat | x :: l' => if x =? v then 0%nat else S (index_of l' v) end.
(** Modelled from the spec: [sorted_array::remove_value]. *)
Definition remove_value (l : list Z) (v : Z) : list Z := List.filter (fun x => negb (x =? v)) l.
(** Modelled from the spec: [array::remove_index(start, end)] drops the
    elements at positions [start, end). *)
Definition remove_index (l : list Z) (start_ end_ : nat) : list Z := take start_ l ++ drop end_ l.
(** [at(i)] of an array of uint32 *)
Definition at_ (l : list Z) (i : nat) : Z := nth i l 0.

(** the loop of [Index::remove_and_shift_offset_index], one iteration per
    step; each step advances [curr_index] or [indices_counter] *)
Fixpoint shift_loop (fuel : nat) (oi indices : list Z) (curr_index indices_counter : nat)
    (shift_value : Z) (new_array : list Z) : list Z :=
  match fuel with
  | O => new_array
  | S fuel' =>
      if (curr_index <? length oi)%nat then
        if (indices_counter <? length indices)%nat &&
           (Z.of_nat curr_index >=? at_ indices indices_counter) then
          if Z.of_nat curr_index =? at_ indices indices_counter then
            let curr_index' := S curr_index in
            let diff := if (curr_index' =? length oi)%nat then 0
                        else to_uint32 (at_ oi curr_index' - at_ oi (curr_index' - 1)) in
            shift_loop fuel' oi indices curr_index' (S indices_counter)
                       (to_uint32 (shift_value + diff)) new_array
          else shift_loop fuel' oi indices curr_index (S indices_counter) shift_value new_array
        else shift_loop fuel' oi indices (S curr_index) indices_counter shift_value
               (new_array ++ [to_uint32 (at_ oi curr_index - shift_value)])
      else new_array
  end.

Definition remove_and_shift_offset_index (oi indices : list Z) : list Z :=
  shift_loop (length oi + length indices) oi indices 0 0 0 [].

(** the slice [start_offset, end_offset) of [offsets] that holds the
    positions of the document at [doc_index], as [Index::remove],
    [populate_token_positions] and [search_field] compute it *)
Definition offset_bounds (v : art_values) (doc_index : nat) : Z * Z :=
  (at_ (offset_index v) doc_index,
   if (doc_index =? length (ids v) - 1)%nat then Z.of_nat (length (offsets v))
   else at_ (offset_index v) (S doc_index)).

(** the offsets read in the loop [while(start_offset < end_offset)] *)
Definition doc_offsets (v : art_values) (doc_index : nat) : list Z :=
  let '(s, e) := offset_bounds v doc_index in
  map (fun k => at_ (offsets v) k) (seq (Z.to_nat s) (Z.to_nat e - Z.to_nat s)).

(** the leaf as the list of (id, offsets) postings it stores *)
Definition postings (v : art_values) : list (Z * list Z) :=
  imap (fun i id => (id, doc_offsets v i)) (ids v).

(** the removal of the document from a leaf in [Index::remove] *)
Definition remove_doc (v : art_values) (seq_id : Z) : art_values :=
  let doc_index := index_of (ids v) seq_id in
  if (doc_index =? length (ids v))%nat then v else
  let '(start_offset, end_offset) := offset_bounds v doc_index in
  let offset_index' := remove_and_shift_offset_index (offset_index v) [Z.of_nat doc_index] in
  let offsets' := remove_index (offsets v) (Z.to_nat start_offset) (Z.to_nat end_offset) in
  let ids' := remove_value (ids v) seq_id in
  mk_values ids' offset_index' offsets'.

(** Modelled from the spec: the contract of a posting container, [ids]
    unique, one offset-index entry per id, slices in order within
    [offsets], all of it uint32. *)
Definition nondecreasing (l : list Z) : Prop :=
  forall i j, (i <= j)%nat -> (j < length l)%nat -> at_ l i <= at_ l j.
Record wf_values (v : art_values) : Prop := {
  wf_nodup : NoDup (ids v);
  wf_length : length (offset_index v) = length (ids v);
  wf_sorted : nondecreasing (offset_index v);
  wf_nonneg : Forall (fun x => 0 <= x) (offset_index v);
  wf_last : forall i, (i < length (offset_index v))%nat -> at_ (offset_index v) i <= Z.of_nat (length (offsets v));
  wf_uint32 : Z.of_nat (length (offsets v)) < 2 ^ 32
}.
(** a check of [nondecreasing] on consecutive entries *)
Fixpoint sorted_b (l : list Z) : bool :=
  match l with
  | x :: ((y :: _) as l') => (x <=? y) && sorted_b l'
  | _ => true
  end.

(** A leaf of three documents, 3, 5 and 7, holding 2, 1 and 3 offsets. *)
Definition leaf_357 : art_values := mk_values [3; 5; 7] [0; 2; 3] [0; 4; 1; 2; 5; 9].

(** [(uint16_t)pos] *)
Definition to_uint16 (z : Z) : Z := z mod 2 ^ 16.

(** the [while(start_offset < end_offset)] loop of
    [populate_token_positions] over one document's offsets: the
    (array_index, positions) pairs it pushes, in order, and the positions
    left when it ends *)
Fixpoint positions_loop (fuel : nat) (offs : list Z) (start_offset end_offset : nat) (prev_pos : Z)
    (positions : list Z) (pushed : list (nat * list Z)) : list (nat * list Z) * list Z :=
  match fuel with
  | O => (pushed, positions)
  | S fuel' =>
      if (start_offset <? end_offset)%nat then
        let pos := to_int32 (at_ offs start_offset) in
        let start_offset := S start_offset in
        if pos =? prev_pos then
          let pushed := match positions with
                        | [] => pushed
                        | _ => pushed ++ [(Z.to_nat (at_ offs start_offset), positions)]
                        end in
          positions_loop fuel' offs (S start_offset) end_offset (-1) [] pushed
        else positions_loop fuel' offs start_offset end_offset pos (positions ++ [to_uint16 pos]) pushed
      else (pushed, positions)
  end.

(** the positions [populate_token_positions] reads for the document at
    [doc_index] of a token's leaf: one (array_index, positions) pair per array
    element, and a trailing (0, positions) for a plain string field *)
Definition token_positions (v : art_values) (doc_index : nat) : list (nat * list Z) :=
  let '(s, e) := offset_bounds v doc_index in
  let '(pushed, positions) :=
    positions_loop (Z.to_nat e - Z.to_nat s) (offsets v) (Z.to_nat s) (Z.to_nat e) (-1) [] [] in
  match positions with [] => pushed | _ => pushed ++ [(0%nat, positions)] end.

Definition push_positions (atp : gmap nat (list (list Z))) (p : nat * list Z) : gmap nat (list (list Z)) :=
  <[p.1 := default [] (atp !! p.1) ++ [p.2]]> atp.

(** [Index::populate_token_positions]: for every leaf of the query
    suggestion that holds the result document, its positions, per array
    element *)
Definition populate_token_positions (query_suggestion : list art_values) (leaf_to_indices : list (list nat))
    (result_index : nat) (array_token_positions : gmap nat (list (list Z))) : gmap nat (list (list Z)) :=
  foldl (fun atp '(token_leaf, indices) =>
           let doc_index := nth result_index indices 0%nat in
           if (doc_index =? length (ids token_leaf))%nat then atp
           else foldl push_positions atp (token_positions token_leaf doc_index))
        array_token_positions (zip query_suggestion leaf_to_indices).

(** the positions of [token] in one array element or string, as the tokenizer numbers them *)
Definition positions_of (tokenizer : string -> bool -> list (string * Z)) (a_field : field)
    (token str : string) : list Z :=
  map snd (List.filter (fun p => String.eqb p.1 token) (nonempty_tokens tokenizer str a_field)).

(** Modelled from the spec: the (array_index, positions) list the offset
    encoding of an array field is meant to carry for one token *)
Definition element_positions (tokenizer : string -> bool -> list (string * Z)) (a_field : field)
    (token : string) (strings : list string) : list (nat * list Z) :=
  flat_map (fun '(i, str) => match positions_of tokenizer a_field token str with
                             | [] => []
                             | ps => [(i, ps)]
                             end)
           (zip (seq 0 (length strings)) strings).

(** the offsets an array field stores for one token: each element's
    positions, the last one repeated, then the element's index *)
Definition enc (l : list (nat * list Z)) : list Z :=
  flat_map (fun '(ai, ps) => ps ++ [default 0 (last ps); Z.of_nat ai]) l.

Definition good_positions (ps : list Z) : Prop :=
  StronglySorted Z.lt ps /\ Forall (fun x => 0 <= x < 2 ^ 16) ps.

(** the tokenizer numbers the tokens of a string in increasing order, within uint16 *)
Definition increasing_indices (tokenizer : string -> bool -> list (string * Z)) (a_field : field) (str : string) : Prop :=
  let is := map snd (tokenizer str (negb (Schema.is_string a_field))) in
  StronglySorted Z.lt is /\ Forall (fun i => 0 <= i < 2 ^ 16) is.

(** a one-document leaf of the token "apple" in the array ["red apple"; "apple pie"] *)
Definition apple_leaf : art_values := mk_values [1] [0] [1; 1; 0; 0; 0; 1].

(** a one-document leaf of the token "apple" in the string "apple pie apple" *)
Definition apple_title_leaf : art_values := mk_values [1] [0] [0; 2].
End Leaf.

Module Suggest.
Import Int Ingest.
(** [ldiv]'s quotient and remainder for each candidate count in turn *)
Fixpoint suggestion_indices (sizes : list Z) (quot : Z) : list Z :=
  match sizes with
  | [] => []
  | size :: sizes' => Z.rem quot size :: suggestion_indices sizes' (Z.quot quot size)
  end.

(** [Index::next_suggestion], [actual_query_suggestion]: the n-th
    combination, one candidate per query token *)
Definition next_suggestion {A} (dflt : A) (token_candidates_vec : list (list A)) (n : Z) : list A :=
  zip_with (fun candidates rem => nth (Z.to_nat rem) candidates dflt) token_candidates_vec
    (suggestion_indices (map (fun c => Z.of_nat (length c)) token_candidates_vec) n).

(** [N] of [search_candidates]: [std::accumulate] of the candidate counts,
    as a [long long] *)
Definition combinations {A} (token_candidates_vec : list (list A)) : Z :=
  foldl (fun a b => to_int64 (a * Z.of_nat (length b))) 1 token_candidates_vec.

Fixpoint product (sizes : list Z) : Z :=
  match sizes with [] => 1 | s :: ss => s * product ss end.

Fixpoint decode_indices (sizes rems : list Z) : Z :=
  match sizes, rems with
  | s :: ss, r :: rs => r + s * decode_indices ss rs
  | _, _ => 0
  end.
End Suggest.

(* ================================================================= *)
(** * Proofs *)
(* ================================================================= *)

Import Int.

(** ** Typo cost *)
Section TypoCostProofs.
Import TypoCost.

Lemma to_int32_small (z : Z) : 0 <= z <= INT32_MAX -> to_int32 z = z.
Proof.
  unfold to_int32, INT32_MAX. intros Hz.
  rewrite Z.mod_small by lia.
  destruct (z >=? 2 ^ 31) eqn:E; [rewrite Z.geb_le in E; lia | reflexivity].
Qed.

(** C1 (amended): whenever [max_cost] fits in an [int] (every call site
    passes 0, 1 or 2), the bounded cost is [token_len - 1] for tokens of
    length 1 or 2 with [max_cost >= token_len], and [max_cost] otherwise; a
    single-character token is searched with cost 0 only, whatever
    [num_typos] is. *)
Theorem bounded_typo_cost_spec (max_cost token_len : Z) :
  0 <= max_cost <= INT32_MAX -> is_size_t token_len ->
  get_bounded_typo_cost max_cost token_len =
    (if ((token_len =? 1) || (token_len =? 2)) && (token_len <=? max_cost)
     then token_len - 1 else max_cost) /\
  (forall num_typos, token_costs num_typos 1 = [0]).
Proof.
  intros Hm Ht. split.
  - unfold get_bounded_typo_cost. rewrite Z.geb_leb, Z.gtb_ltb.
    destruct (Z.leb_spec token_len max_cost);
      destruct (Z.eqb_spec token_len 1) as [E1|H1];
      destruct (Z.eqb_spec token_len 2) as [E2|H2]; try lia; subst;
      cbn [orb andb Z.ltb Z.compare]; rewrite ?andb_false_r, ?andb_true_r;
      try (apply to_int32_small; unfold INT32_MAX in *; lia); reflexivity.
  - intros n. unfold token_costs, max_cost_of, get_bounded_typo_cost.
    destruct ((n <? 0) || (n >? 2)) eqn:E; [reflexivity|].
    apply orb_false_iff in E as [E1 E2]. rewrite Z.ltb_ge in E1.
    rewrite Z.gtb_ltb, Z.ltb_ge in E2.
    destruct (n >=? 1) eqn:E3; rewrite ?Z.geb_le, ?Z.geb_leb, ?Z.leb_gt in E3.
    + reflexivity.
    + assert (n = 0) as -> by lia. reflexivity.
Qed.

(** C1: the claim read for every [size_t] [max_cost] fails once [max_cost]
    no longer fits in the [int] result: 2^32 becomes 0. *)
Lemma bounded_typo_cost_wraps :
  is_size_t (2 ^ 32) /\ get_bounded_typo_cost (2 ^ 32) 5 = 0 /\ 0 <> 2 ^ 32.
Proof. split; [unfold is_size_t; lia | split; [reflexivity | lia]]. Qed.

Lemma bounded_typo_cost_spec_witness :
  (0 <= 2 <= INT32_MAX /\ is_size_t 1) /\
  (get_bounded_typo_cost 2 1 = 0 /\ (forall num_typos, token_costs num_typos 1 = [0])).
Proof.
  split; [unfold INT32_MAX, is_size_t; lia|].
  apply (bounded_typo_cost_spec 2 1); unfold INT32_MAX, is_size_t; lia.
Defined.
End TypoCostProofs.

(** ** Float mapping *)
Section FloatProofs.
Import FloatBits.

Lemma magnitude_nonneg e m : 0 <= e -> 0 <= m -> 0 <= magnitude e m.
Proof.
intros He Hm. unfold magnitude. destruct (e =? 0) eqn:E; [lia|].
apply Z.mul_nonneg_nonneg; [lia | apply Z.pow_nonneg; lia].
Qed.

Lemma magnitude_mono e1 m1 e2 m2 :
0 <= e1 -> 0 <= e2 -> 0 <= m1 < 2 ^ 23 -> 0 <= m2 < 2 ^ 23 ->
e1 * 2 ^ 23 + m1 < e2 * 2 ^ 23 + m2 -> magnitude e1 m1 < magnitude e2 m2.
Proof.
intros He1 He2 Hm1 Hm2 Hlt. unfold magnitude.
destruct (Z.eq_dec e1 e2) as [<-|Hne].
- destruct (e1 =? 0) eqn:E; [lia|].
  apply Z.mul_lt_mono_pos_r; [apply Z.pow_pos_nonneg|]; lia.
- assert (e1 < e2) by nia.
  destruct (e1 =? 0) eqn:E1; destruct (e2 =? 0) eqn:E2; try lia.
  assert (Hp : 2 ^ (e2 - 1) = 2 ^ (e2 - 1 - e1) * 2 ^ (e1 - 1) * 2).
    { rewrite <- Z.pow_add_r by lia. rewrite <- (Z.pow_1_r 2) at 3.
      rewrite <- Z.pow_add_r by lia. f_equal; lia. }
    assert (0 < 2 ^ (e2 - 1 - e1)) by (apply Z.pow_pos_nonneg; lia).
    assert (0 < 2 ^ (e1 - 1)) by (apply Z.pow_pos_nonneg; lia).
    rewrite Hp. generalize dependent (2 ^ (e2 - 1 - e1)). generalize dependent (2 ^ (e1 - 1)).
    intros p1 Hp1 p2 Hp2. simpl (2 ^ 23) in *. nia.
Qed.

Lemma bits_decompose b : is_bits32 b ->
exists s e m, (s = 0 \/ s = 1) /\ 0 <= e < 2 ^ 8 /\ 0 <= m < 2 ^ 23 /\
  b = s * 2 ^ 31 + e * 2 ^ 23 + m.
Proof.
intros Hb. unfold is_bits32 in Hb.
exists (b / 2 ^ 31), ((b / 2 ^ 23) mod 2 ^ 8), (b mod 2 ^ 23).
assert (Hs : 0 <= b / 2 ^ 31 < 2) by (split; [apply Z.div_pos|apply Z.div_lt_upper_bound]; lia).
assert (H1 := Z.div_mod b (2 ^ 23) ltac:(lia)).
assert (H2 := Z.div_mod (b / 2 ^ 23) (2 ^ 8) ltac:(lia)).
assert (H3 : b / 2 ^ 23 / 2 ^ 8 = b / 2 ^ 31).
{ rewrite Z.div_div by lia. reflexivity. }
assert (0 <= b mod 2 ^ 23 < 2 ^ 23) by (apply Z.mod_pos_bound; lia).
assert (0 <= (b / 2 ^ 23) mod 2 ^ 8 < 2 ^ 8) by (apply Z.mod_pos_bound; lia).
repeat split; try lia.
Qed.


Lemma lxor_low_ones (y : Z) : 0 <= y < 2 ^ 31 -> Z.lxor y INT32_MAX = INT32_MAX - y.
Proof.
intros Hy.
assert (Ho : INT32_MAX = Z.ones 31) by reflexivity.
rewrite Ho.
assert (Hd : Z.ldiff y (Z.ones 31) = 0).
{ rewrite Z.ldiff_ones_r by lia. rewrite Z.shiftr_div_pow2 by lia.
  rewrite Z.div_small by lia. reflexivity. }
rewrite (Z.sub_nocarry_ldiff (Z.ones 31) y Hd).
apply Z.bits_inj'. intros n Hn.
rewrite Z.lxor_spec, Z.ldiff_spec.
destruct (Z.testbit y n) eqn:Eb; destruct (Z.testbit (Z.ones 31) n) eqn:Eo; simpl; auto.
exfalso.
assert (Hc : Z.testbit (Z.ldiff y (Z.ones 31)) n = true) by (rewrite Z.ldiff_spec, Eb, Eo; reflexivity).
rewrite Hd, Z.testbit_0_l in Hc. discriminate.
Qed.

Lemma lxor_negative_int32 (l : Z) : 0 <= l < 2 ^ 31 ->
Z.lxor (INT32_MIN + l) INT32_MAX = -1 - l.
Proof.
intros Hl.
replace (INT32_MIN + l) with (Z.lnot (INT32_MAX - l))
  by (unfold Z.lnot, INT32_MIN, INT32_MAX; lia).
rewrite <- Z.lnot_lxor_l, lxor_low_ones by (unfold INT32_MAX; lia).
unfold Z.lnot, INT32_MAX. lia.
Qed.

Ltac zbool :=
repeat match goal with
| H : (_ >=? _) = true |- _ => rewrite Z.geb_le in H
| H : (_ >=? _) = false |- _ => rewrite Z.geb_leb, Z.leb_gt in H
| H : (_ <? _) = true |- _ => rewrite Z.ltb_lt in H
| H : (_ <? _) = false |- _ => rewrite Z.ltb_ge in H
| H : (_ =? _) = true |- _ => rewrite Z.eqb_eq in H
| H : (_ =? _) = false |- _ => rewrite Z.eqb_neq in H
end.

Lemma fields_of s e m :
(s = 0 \/ s = 1) -> 0 <= e < 2 ^ 8 -> 0 <= m < 2 ^ 23 ->
let b := s * 2 ^ 31 + e * 2 ^ 23 + m in
f_sign b = (s =? 1) /\ f_exp b = e /\ f_frac b = m /\
float_to_in64_t b = (if s =? 1 then -1 - (e * 2 ^ 23 + m) else e * 2 ^ 23 + m).
Proof.
intros Hs He Hm b. subst b. unfold f_sign, f_exp, f_frac, float_to_in64_t, bits_as_int32.
assert (Hdiv : (s * 2 ^ 31 + e * 2 ^ 23 + m) / 2 ^ 23 = e + s * 2 ^ 8).
{ replace (s * 2 ^ 31 + e * 2 ^ 23 + m) with (m + (e + s * 2 ^ 8) * 2 ^ 23) by lia.
  rewrite Z.div_add by lia. rewrite Z.div_small by lia. lia. }
rewrite Hdiv, Z.mod_add, Z.mod_small by lia.
replace (s * 2 ^ 31 + e * 2 ^ 23 + m) with (m + (e + s * 2 ^ 8) * 2 ^ 23) at 2 by lia.
rewrite Z.mod_add, Z.mod_small by lia.
destruct Hs as [-> | ->]; cbn [Z.eqb Pos.eqb].
- repeat split.
  + rewrite Z.geb_leb. apply Z.leb_gt. lia.
  + destruct (0 * 2 ^ 31 + e * 2 ^ 23 + m >=? 2 ^ 31) eqn:E; zbool; [lia|].
    destruct (0 * 2 ^ 31 + e * 2 ^ 23 + m <? 0) eqn:E2; zbool; lia.
- repeat split.
  + apply Z.geb_le. lia.
  + destruct (1 * 2 ^ 31 + e * 2 ^ 23 + m >=? 2 ^ 31) eqn:E; zbool; [|lia].
    destruct (1 * 2 ^ 31 + e * 2 ^ 23 + m - 2 ^ 32 <? 0) eqn:E2; zbool; [|lia].
    replace (1 * 2 ^ 31 + e * 2 ^ 23 + m - 2 ^ 32) with (INT32_MIN + (e * 2 ^ 23 + m))
      by (unfold INT32_MIN; lia).
    apply lxor_negative_int32. lia.
Qed.

Lemma magnitude_lt_iff e1 m1 e2 m2 :
0 <= e1 -> 0 <= e2 -> 0 <= m1 < 2 ^ 23 -> 0 <= m2 < 2 ^ 23 ->
magnitude e1 m1 < magnitude e2 m2 <-> e1 * 2 ^ 23 + m1 < e2 * 2 ^ 23 + m2.
Proof.
intros. split; [|apply magnitude_mono; lia].
intros Hlt. destruct (Z.lt_total (e1 * 2 ^ 23 + m1) (e2 * 2 ^ 23 + m2)) as [?|[Heq|Hgt]]; auto.
- assert (e1 = e2 /\ m1 = m2) as [-> ->] by nia. lia.
- pose proof (magnitude_mono e2 m2 e1 m1). lia.
Qed.

Lemma magnitude_zero e m :
0 <= e -> 0 <= m -> magnitude e m = 0 -> e = 0 /\ m = 0.
Proof.
unfold magnitude. intros He Hm. destruct (e =? 0) eqn:E; zbool; [lia|].
assert (0 < 2 ^ (e - 1)) by (apply Z.pow_pos_nonneg; lia). nia.
Qed.

(** On non-NaN floats [float_to_in64_t] is strictly increasing for the IEEE
  order, and it agrees with [<=] except on the pair (+0.0, -0.0), which
  compare equal as floats but map to 0 and -1. *)
Lemma float_to_in64_t_monotone (a b : Z) :
is_bits32 a -> is_bits32 b -> is_nan a = false -> is_nan b = false ->
(ext_lt (value a) (value b) -> float_to_in64_t a < float_to_in64_t b) /\
(ext_le (value a) (value b) ->
   float_to_in64_t a <= float_to_in64_t b \/ (a = pos_zero /\ b = neg_zero)).
Proof.
intros Ha Hb Hna Hnb.
destruct (bits_decompose a Ha) as (sa & ea & ma & Hsa & Hea & Hma & ->).
destruct (bits_decompose b Hb) as (sb & eb & mb & Hsb & Heb & Hmb & ->).
destruct (fields_of sa ea ma Hsa Hea Hma) as (Sa & Ea & Fa & Ta).
destruct (fields_of sb eb mb Hsb Heb Hmb) as (Sb & Eb & Fb & Tb).
unfold is_nan in Hna, Hnb. rewrite Ea, Fa in Hna. rewrite Eb, Fb in Hnb.
unfold ext_le, value, pos_zero, neg_zero. rewrite Sa, Ea, Fa, Sb, Eb, Fb, Ta, Tb.
pose proof (magnitude_nonneg ea ma ltac:(lia) ltac:(lia)).
pose proof (magnitude_nonneg eb mb ltac:(lia) ltac:(lia)).
pose proof (magnitude_lt_iff ea ma eb mb ltac:(lia) ltac:(lia) Hma Hmb).
pose proof (magnitude_lt_iff eb mb ea ma ltac:(lia) ltac:(lia) Hmb Hma).
pose proof (magnitude_zero ea ma ltac:(lia) ltac:(lia)).
pose proof (magnitude_zero eb mb ltac:(lia) ltac:(lia)).
destruct (ea =? 255) eqn:Ea255; destruct (eb =? 255) eqn:Eb255;
  simpl in Hna, Hnb; zbool;
  destruct Hsa as [-> | ->]; destruct Hsb as [-> | ->]; cbn [Z.eqb Pos.eqb ext_lt];
  split; intros Hc; try destruct Hc as [Hc | Hc]; try discriminate; try lia;
  try (injection Hc as Hc); try lia.
all: idtac.
Qed.


(** C8: the claim as stated fails at a = +0.0, b = -0.0. *)
Lemma float_to_in64_t_zero_order :
~ (forall a b, is_bits32 a -> is_bits32 b -> is_nan a = false -> is_nan b = false ->
     ext_le (value a) (value b) -> float_to_in64_t a <= float_to_in64_t b).
Proof.
intros H.
assert (Hc : float_to_in64_t pos_zero <= float_to_in64_t neg_zero).
{ apply H; unfold is_bits32, pos_zero, neg_zero; try lia; try reflexivity.
  right. reflexivity. }
vm_compute in Hc. apply Hc. reflexivity.
Qed.

End FloatProofs.

(** ** validate_index_in_memory *)
Section ValidateProofs.
Import Json Schema Validate.

Lemma count_set d k v k' : count (set d k v) k' = bool_decide (k = k') || count d k'.
Proof.
induction d as [|[k0 v0] d IH]; simpl; [unfold count; simpl; by rewrite orb_false_r|].
unfold count in *; simpl.
destruct (bool_decide (k0 = k)) eqn:E; simpl.
- apply bool_decide_eq_true in E; subst. by rewrite orb_assoc, orb_diag.
- rewrite IH. rewrite !orb_assoc, (orb_comm (bool_decide (k0 = k'))). reflexivity.
Qed.

Lemma find_set d k v k' : find (set d k v) k' = if bool_decide (k = k') then Some v else find d k'.
Proof.
induction d as [|[k0 v0] d IH]; simpl; [done|].
destruct (bool_decide (k0 = k)) eqn:E; simpl.
- apply bool_decide_eq_true in E; subst. by destruct (bool_decide (k = k')).
- rewrite IH. destruct (bool_decide (k = k')) eqn:E2; [|done].
  apply bool_decide_eq_true in E2; apply bool_decide_eq_false in E; subst.
  rewrite bool_decide_eq_false_2; done.
Qed.

Lemma check_array_first_only field_name f x rest rest' : Schema.is_array f = true ->
check_field_type field_name f (JArray (x :: rest)) = check_field_type field_name f (JArray (x :: rest')).
Proof. destruct f as [? [] ? ?]; done. Qed.

Lemma check_array_empty field_name f : Schema.is_array f = true -> check_field_type field_name f (JArray []) = None.
Proof. destruct f as [? [] ? ?]; done. Qed.

Lemma check_fields_first_only document is_update s k x rest rest' :
(forall fld, In (k, fld) s -> Schema.is_array fld = true) ->
check_fields (set document k (JArray (x :: rest))) is_update s =
check_fields (set document k (JArray (x :: rest'))) is_update s.
Proof.
intros Harr. induction s as [|[n f] s IH]; simpl; [done|].
rewrite !count_set, !find_set.
rewrite IH by (intros fld Hin; apply Harr; by right).
destruct (bool_decide (k = n)) eqn:E; [|done].
apply bool_decide_eq_true in E; subst.
rewrite (check_array_first_only n f x rest rest') by (apply Harr; by left). done.
Qed.

(** C10: validation of an array field looks at its first element only: with
  the first element fixed, the rest of the array never changes the outcome
  of validate_index_in_memory; an empty array passes the type test; and the
  document {points: 1, tags: ["a", 1]} is accepted with code 200. *)
Theorem validate_checks_first_element :
(forall field_name f x rest rest', Schema.is_array f = true ->
   check_field_type field_name f (JArray (x :: rest)) = check_field_type field_name f (JArray (x :: rest'))) /\
(forall field_name f, Schema.is_array f = true -> check_field_type field_name f (JArray []) = None) /\
(forall exceeds_float_max document seq_id default_sorting_field search_schema is_update k x rest rest',
   (forall fld, In (k, fld) search_schema -> Schema.is_array fld = true) ->
   validate_index_in_memory exceeds_float_max (set document k (JArray (x :: rest))) seq_id
     default_sorting_field search_schema is_update =
   validate_index_in_memory exceeds_float_max (set document k (JArray (x :: rest'))) seq_id
     default_sorting_field search_schema is_update) /\
(forall exceeds_float_max seq_id,
   validate_index_in_memory exceeds_float_max mixed_tags_doc seq_id "points" tags_schema false = Ok (OptOk 200)).
Proof.
split; [exact check_array_first_only|].
split; [exact check_array_empty|].
split.
- intros ex document seq_id dsf s is_update k x rest rest' Harr.
  unfold validate_index_in_memory. rewrite !count_set, !find_set.
  rewrite (check_fields_first_only document is_update s k x rest rest' Harr).
  destruct (bool_decide (k = dsf)); simpl; [done|].
  reflexivity.
- intros ex seq_id. reflexivity.
Qed.

Lemma validate_checks_first_element_witness :
check_field_type "tags" (mk_field "tags" STRING_ARRAY false false) (JArray [JString "a"; JInt 1]) =
check_field_type "tags" (mk_field "tags" STRING_ARRAY false false) (JArray [JString "a"]).
Proof. apply (proj1 validate_checks_first_element); reflexivity. Defined.

End ValidateProofs.



Import Json Schema Validate FloatBits Ingest.

Lemma atoll_alnum c s : SpecTokenizer.is_alnum_byte c = true ->
  atoll (String c s) = Z.min (2 ^ 63 - 1) (digits_value 0 (String c s)).
Proof.
  intros H. unfold atoll. 
  assert (skip_spaces (String c s) = String c s) as ->.
  { simpl. destruct (is_space c) eqn:E; [|done]. exfalso.
    destruct c as [[] [] [] [] [] [] [] []]; simpl in *; discriminate. }
  destruct c as [[] [] [] [] [] [] [] []]; simpl in H; try discriminate H; reflexivity.
Qed.

Section Framework.
Context (P : index -> Prop).

Lemma preserves_ret {A} (a : A) : preserves P (ret a).
Proof. intros s H; exact H. Qed.
Lemma preserves_lift {A} (e : exc A) : preserves P (lift e).
Proof. intros s H; unfold lift; by destruct e. Qed.
Lemma preserves_gets {A} (f : index -> A) : preserves P (gets f).
Proof. intros s H; exact H. Qed.
Lemma preserves_at {V} (m : gmap string V) k : preserves P (at_or_throw m k).
Proof. intros s H; unfold at_or_throw; by destruct (m !! k). Qed.
Lemma preserves_art_at k : preserves P (art_at k).
Proof. intros s H. apply (preserves_at (search_index s) k s H). Qed.
Lemma preserves_num_at k : preserves P (num_at k).
Proof. intros s H. apply (preserves_at (numerical_index s) k s H). Qed.
Lemma preserves_sort_at k : preserves P (sort_at k).
Proof. intros s H. apply (preserves_at (sort_index s) k s H). Qed.
Lemma preserves_modify f : (forall s, P s -> P (f s)) -> preserves P (modify f).
Proof. intros Hf s H. by apply Hf. Qed.
Lemma preserves_bind {A B} (m : M A) (f : A -> M B) :
preserves P m -> (forall a, preserves P (f a)) -> preserves P (mbind m f).
Proof.
intros Hm Hf s H. unfold mbind. specialize (Hm s H).
destruct (m s) as [a s'|e s']; simpl in *; [by apply Hf|done].
Qed.
Lemma preserves_mapM_ {A} (f : A -> M unit) l :
(forall x, In x l -> preserves P (f x)) -> preserves P (mapM_ f l).
Proof.
induction l as [|x l IH]; intros Hf; simpl; [apply preserves_ret|].
apply preserves_bind; [apply Hf; by left|]. intros _. apply IH. intros y Hy; apply Hf; by right.
Qed.

Lemma hoare_bind {A B} (Pre : index -> Prop) (m : M A) (Mid : A -> index -> Prop)
  (f : A -> M B) (Q : B -> index -> Prop) :
hoare Pre m Mid -> (forall a, hoare (Mid a) (f a) Q) -> hoare Pre (mbind m f) Q.
Proof.
intros Hm Hf s H. unfold mbind. specialize (Hm s H).
destruct (m s) as [a s'|e s']; [by apply Hf|done].
Qed.
End Framework.

Lemma preserves_hoare {A} (P : index -> Prop) (m : M A) : preserves P m -> hoare P m (fun _ => P).
Proof. intros H s Hs. specialize (H s Hs). by destruct (m s). Qed.

Lemma hoare_ret {A} (P : A -> index -> Prop) (a : A) : hoare (P a) (ret a) P.
Proof. intros s H; exact H. Qed.

Lemma hoare_lift {A} (P : index -> Prop) (e : exc A) : hoare P (lift e) (fun a s => e = Ok a /\ P s).
Proof. intros s H. unfold lift. by destruct e. Qed.

Lemma hoare_weaken {A} (P P' : index -> Prop) (m : M A) (Q Q' : A -> index -> Prop) :
  (forall s, P' s -> P s) -> (forall a s, Q a s -> Q' a s) -> hoare P m Q -> hoare P' m Q'.
Proof. intros HP HQ H s Hs. specialize (H s (HP s Hs)). destruct (m s); auto. Qed.

Ltac pres_step :=
  match goal with
  | |- preserves _ (mbind _ _) => apply preserves_bind; [|intros ?]
  | |- preserves _ (ret _) => apply preserves_ret
  | |- preserves _ (lift _) => apply preserves_lift
  | |- preserves _ (gets _) => apply preserves_gets
  | |- preserves _ (art_at _) => apply preserves_art_at
  | |- preserves _ (num_at _) => apply preserves_num_at
  | |- preserves _ (sort_at _) => apply preserves_sort_at
  | |- preserves _ (mapM_ _ _) => apply preserves_mapM_; intros ? ?; cbv beta
  | |- preserves _ (if ?b then _ else _) => destruct b
  | |- preserves _ (match ?x with _ => _ end) => destruct x
  | |- preserves _ (let '(_, _) := ?x in _) => destruct x
  end.


Section SlotFrame.
Variable search_schema facet_schema : schema.
Variable faceted_name : field -> string.
Variable tokenizer : string -> bool -> list (string * Z).
Variable hash_wy stof : string -> Z.
Variable json_to_float : json -> Z.
Variable double_to_int : Z -> Z.
Variable float_to_string : Z -> string.
Variable seq_id : Z.
Variable i : nat.
Variable x : option (list Z).
Let P := fun s => slot_at seq_id i s = x.

Lemma slot_modify_art k f : preserves P (modify_art k f).
Proof. intros s H; exact H. Qed.
Lemma slot_modify_num k f : preserves P (modify_num k f).
Proof. intros s H; exact H. Qed.
Lemma slot_modify_sort k f : preserves P (modify_sort k f).
Proof. intros s H; exact H. Qed.
Lemma slot_num_documents f : preserves P (modify (fun s => set_num_documents (f s) s)).
Proof. intros s H; exact H. Qed.
Lemma slot_modify_facet j g : Z.to_nat j <> i -> preserves P (modify_facet seq_id j g).
Proof.
intros Hj s H. unfold P, slot_at, modify_facet, modify in *. cbn [res_state facet_index_v2 set_facet_index_v2].
rewrite lookup_alter.
destruct (facet_index_v2 s !! seq_id) as [v|]; cbn -[list_alter] in *;
  case_decide; try done.
cbn -[list_alter]. rewrite list_lookup_alter_ne by done. done.
Qed.

Ltac slot_step :=
first [ pres_step
      | apply slot_modify_art | apply slot_modify_num | apply slot_modify_sort
      | apply slot_num_documents
      | apply slot_modify_facet; lia ].

Lemma slot_insert_doc score t q tto : preserves P (insert_doc score t q tto).
Proof. unfold insert_doc. repeat slot_step. Qed.

Lemma slot_index_string_field text score t facet_id f :
(facet_id < 0 \/ Z.to_nat facet_id <> i) ->
preserves P (index_string_field tokenizer hash_wy stof text score t seq_id facet_id f).
Proof.
intros Hf. unfold index_string_field.
apply preserves_bind; [|intros _; apply slot_insert_doc].
destruct (Z.geb_spec facet_id 0); [|apply preserves_ret].
apply slot_modify_facet. lia.
Qed.

Lemma slot_index_string_array_field strings score t facet_id f :
(facet_id < 0 \/ Z.to_nat facet_id <> i) ->
preserves P (index_string_array_field tokenizer hash_wy stof strings score t seq_id facet_id f).
Proof.
intros Hf. unfold index_string_array_field.
destruct (foldl _ _ _) as [fv tp].
apply preserves_bind; [|intros _; apply slot_insert_doc].
destruct (Z.geb_spec facet_id 0); [|apply preserves_ret].
apply slot_modify_facet. lia.
Qed.

Lemma facet_pos_inj fs k1 k2 j : facet_pos fs k1 = Some j -> facet_pos fs k2 = Some j -> k1 = k2.
Proof.
revert j; induction fs as [|[k f] fs IH]; intros j H1 H2; simpl in *; [done|].
case_bool_decide as E1; case_bool_decide as E2; [congruence| | |].
all: destruct (facet_pos fs k1) as [n1|] eqn:F1, (facet_pos fs k2) as [n2|] eqn:F2;
     simpl in *; simplify_eq; try lia; try done.
by apply (IH n2).
Qed.

Lemma slot_index_field document points is_update g fg :
facet_pos facet_schema g <> Some i ->
preserves P (index_field facet_schema faceted_name tokenizer hash_wy stof json_to_float
               double_to_int float_to_string document seq_id points is_update (g, fg)).
Proof.
intros Hg. unfold index_field.
assert (Hfid : match facet_pos facet_schema g with Some j => Z.of_nat j | None => -1 end < 0 \/
               Z.to_nat (match facet_pos facet_schema g with Some j => Z.of_nat j | None => -1 end) <> i).
{ destruct (facet_pos facet_schema g) as [j|]; [right; rewrite Nat2Z.id; congruence|left; lia]. }
revert Hfid. generalize (match facet_pos facet_schema g with Some j => Z.of_nat j | None => -1 end).
intros facet_id Hfid.
repeat first [ slot_step
             | apply slot_index_string_field; exact Hfid
             | apply slot_index_string_array_field; exact Hfid ].
Qed.
End SlotFrame.

Lemma pretty_N_char_digit d : (d < 10)%N ->
  is_digit (pretty_N_char d) = true /\ digit_value (pretty_N_char d) = Z.of_N d /\
  SpecTokenizer.is_alnum_byte (pretty_N_char d) = true.
Proof.
  intros Hd.
  assert (d = 0 \/ d = 1 \/ d = 2 \/ d = 3 \/ d = 4 \/ d = 5 \/ d = 6 \/ d = 7 \/ d = 8 \/ d = 9)%N
    as Hc by lia.
  repeat destruct Hc as [->|Hc]; [..|subst d]; repeat split; reflexivity.
Qed.

Lemma digits_value_pretty_N_go x : forall acc s, exists k : nat,
  digits_value acc (pretty_N_go x s) = digits_value (acc * 10 ^ Z.of_nat k + Z.of_N x) s.
Proof.
  induction (N.lt_wf_0 x) as [x _ IH]; intros acc s.
  destruct (decide (x = 0)%N) as [->|Hx].
  - exists 0%nat. rewrite pretty_N_go_0. f_equal. lia.
  - rewrite pretty_N_go_step by lia.
    destruct (IH (x `div` 10)%N ltac:(apply N.div_lt; lia) acc
                 (String (pretty_N_char (x `mod` 10)) s)) as [k Hk].
    exists (S k). rewrite Hk.
    destruct (pretty_N_char_digit (x `mod` 10)%N ltac:(apply N.mod_lt; lia)) as (H1 & H2 & _).
    simpl. rewrite H1, H2. f_equal.
    rewrite Nat2Z.inj_succ, Z.pow_succ_r by lia.
    rewrite N2Z.inj_div, N2Z.inj_mod by lia.
    pose proof (Z.div_mod (Z.of_N x) 10 ltac:(lia)). simpl (Z.of_N 10). lia.
Qed.

Lemma pretty_N_go_head x s : (0 < x)%N ->
  exists c rest, pretty_N_go x s = String c rest /\ SpecTokenizer.is_alnum_byte c = true.
Proof.
  revert s. induction (N.lt_wf_0 x) as [x _ IH]; intros s Hx.
  rewrite pretty_N_go_step by lia.
  destruct (decide (x `div` 10 = 0)%N) as [E|E].
  - rewrite E, pretty_N_go_0. exists (pretty_N_char (x `mod` 10)%N), s. split; [done|].
    apply pretty_N_char_digit, N.mod_lt; lia.
  - apply IH; [apply N.div_lt; lia|]. apply N.neq_0_lt_0. exact E.
Qed.

Lemma atoll_pretty z : - 2 ^ 63 <= z < 2 ^ 63 -> atoll (pretty z) = z.
Proof.
  intros Hz. destruct z as [|p|p]; [reflexivity| |].
  - unfold pretty, pretty_Z, pretty, pretty_positive, pretty, pretty_N.
    rewrite decide_False by done.
    destruct (pretty_N_go_head (Npos p) "" ltac:(lia)) as (c & rest & Hcr & Hc).
    rewrite Hcr, atoll_alnum by done. rewrite <- Hcr.
    destruct (digits_value_pretty_N_go (Npos p) 0 "") as [k ->]. simpl. lia.
  - unfold pretty, pretty_Z, pretty, pretty_positive, pretty, pretty_N.
    rewrite decide_False by done.
    change ("-" +:+ ?s) with (String "-" s). unfold atoll. cbn -[pretty_N_go digits_value].
    replace (is_space "-") with false by reflexivity. cbn -[pretty_N_go digits_value].     destruct (digits_value_pretty_N_go (Npos p) 0 "") as [k ->]. simpl. lia.
Qed.

Section C9.
Variable tokenizer : string -> bool -> list (string * Z).
Variable hash_wy : string -> Z.
Variable stof : string -> Z.

Lemma count_delimiters_app l1 l2 :
count_delimiters (l1 ++ l2) = (count_delimiters l1 + count_delimiters l2)%nat.
Proof. unfold count_delimiters. by rewrite List.filter_app, length_app. Qed.

Lemma count_delimiters_none {A} (f : A -> Z) l :
(forall x, In x l -> f x <> FACET_ARRAY_DELIMETER) -> count_delimiters (map f l) = 0%nat.
Proof.
unfold count_delimiters. induction l as [|x l IH]; intros H; cbn [map List.filter]; [done|].
destruct (Z.eqb_spec FACET_ARRAY_DELIMETER (f x)) as [E|_].
- exfalso. apply (H x); [by left|done].
- simpl. apply IH. intros y Hy. apply H. by right.
Qed.

Lemma array_element_delimiters a_field l acc :
count_delimiters (foldl (array_element tokenizer hash_wy stof a_field) acc l).1 =
(count_delimiters acc.1 + length l + extra_delimiters tokenizer hash_wy stof a_field (map snd l))%nat.
Proof.
revert acc; induction l as [|[k str] l IH]; intros acc; cbn [foldl length map]; [unfold extra_delimiters; simpl; lia|].
rewrite IH. cbn [fst array_element]. rewrite !count_delimiters_app.
assert (count_delimiters [FACET_ARRAY_DELIMETER] = 1%nat) as -> by reflexivity.
unfold extra_delimiters. cbn [sum_list_with snd]. lia.
Qed.
End C9.


Lemma mapM_length {A B} (g : A -> exc B) l l' : mapM g l = Ok l' -> length l' = length l.
Proof.
  revert l'; induction l as [|x l IH]; intros l' H; simpl in H; [by injection H as <-|].
  destruct (g x); [|done]. simpl in H. destruct (mapM g l) eqn:E; [|done].
  simpl in H. injection H as <-. simpl. by rewrite (IH _ eq_refl).
Qed.

Lemma length_zip_seq {A} (l : list A) k : length (zip (seq k (length l)) l) = length l.
Proof. revert k; induction l; intros k; simpl; [done|]. by rewrite IHl. Qed.

Lemma map_snd_zip_seq {A} (l : list A) k : map snd (zip (seq k (length l)) l) = l.
Proof. revert k; induction l; intros k; simpl; [done|]. by rewrite IHl. Qed.

Lemma count_find d k : count d k = bool_decide (is_Some (find d k)).
Proof.
  unfold count. induction d as [|[k' v] d IH]; cbn [existsb find fst]; [done|].
  destruct (bool_decide (k' = k)); cbn [orb]; [rewrite bool_decide_eq_true_2; eauto|exact IH].
Qed.

Lemma facet_pos_lt fs k i : facet_pos fs k = Some i -> (i < length fs)%nat.
Proof.
  revert i; induction fs as [|[k' f] fs IH]; intros i H; simpl in *; [done|].
  case_bool_decide; [injection H as <-; lia|].
  destruct (facet_pos fs k) eqn:E; simpl in H; [|done]. injection H as <-. specialize (IH _ eq_refl). lia.
Qed.

Lemma mapM__app {A} (f : A -> M unit) l1 l2 s :
  mapM_ f (l1 ++ l2) s = mbind (mapM_ f l1) (fun _ => mapM_ f l2) s.
Proof.
  revert s; induction l1 as [|x l1 IH]; intros s; [reflexivity|].
  cbn [mapM_ app]. unfold mbind at 1 2 3. destruct (f x s) as [[] s'|e s']; [|reflexivity].
  rewrite IH. reflexivity.
Qed.

Lemma hoare_preserves_all {A} (Q : index -> Prop) (m : M A) : preserves Q m -> hoare Q m (fun _ => Q).
Proof. apply preserves_hoare. Qed.

Lemma hoare_mapM_app {A} (f : A -> M unit) l1 l2 P Q R :
  hoare P (mapM_ f l1) (fun _ => Q) -> hoare Q (mapM_ f l2) (fun _ => R) -> hoare P (mapM_ f (l1 ++ l2)) (fun _ => R).
Proof.
  intros H1 H2 s Hs. rewrite mapM__app. unfold mbind. specialize (H1 s Hs).
  destruct (mapM_ f l1 s) as [[] s'|e s']; [|done]. by apply H2.
Qed.

Section C9Index.
Variable search_schema facet_schema : schema.
Variable faceted_name : field -> string.
Variable tokenizer : string -> bool -> list (string * Z).
Variable hash_wy stof : string -> Z.
Variable json_to_float : json -> Z.
Variable double_to_int : Z -> Z.
Variable float_to_string : Z -> string.
Lemma delims_preserved {A} seq_id i k (m : M A) :
(forall x, preserves (fun s => slot_at seq_id i s = x) m) -> preserves (delims_at seq_id i k) m.
Proof. intros H s [e [He Hk]]. exists e. split; [|done]. by apply (H (Some e)). Qed.

Lemma array_field_delimiters strings score t seq_id i f k :
hoare (delims_at seq_id i k)
      (index_string_array_field tokenizer hash_wy stof strings score t seq_id (Z.of_nat i) f)
      (fun _ => delims_at seq_id i (k + length strings + extra_delimiters tokenizer hash_wy stof f strings)).
Proof.
intros s [e [He Hk]]. unfold index_string_array_field.
pose proof (array_element_delimiters tokenizer hash_wy stof
              f (zip (seq 0 (length strings)) strings) ([], ∅)) as Hc.
destruct (foldl _ _ _) as [fv tp] eqn:Ef. simpl in Hc. rewrite length_zip_seq, map_snd_zip_seq in Hc.
assert ((Z.of_nat i >=? 0) = true) as -> by (apply Z.geb_le; lia). unfold mbind.
set (s1 := res_state (modify_facet seq_id (Z.of_nat i) (fun v => v ++ fv) s)).
assert (Hs1 : slot_at seq_id i s1 = Some (e ++ fv)).
{ unfold s1, slot_at, modify_facet, modify in *. cbn [res_state facet_index_v2 set_facet_index_v2].
  rewrite lookup_alter. destruct (facet_index_v2 s !! seq_id) as [v|]; cbn -[list_alter] in *;
  case_decide; try done.
  cbn -[list_alter]. rewrite Nat2Z.id, list_lookup_alter_eq, He. reflexivity. }
change (modify_facet seq_id (Z.of_nat i) (fun v => v ++ fv) s) with (ROk tt s1).
pose proof (slot_insert_doc seq_id i (Some (e ++ fv)) score t seq_id tp s1 Hs1) as Hp.
destruct (insert_doc score t seq_id tp s1); simpl in *; [|done].
exists (e ++ fv). split; [done|]. rewrite count_delimiters_app. lia.
Qed.
End C9Index.


Ltac slot_step :=
  first [ pres_step
        | apply slot_modify_art | apply slot_modify_num | apply slot_modify_sort
        | apply slot_num_documents
        | progress unfold num_insert, sort_emplace ].

Lemma get_array_length {A} (g : json -> exc A) l vs : get_array g (JArray l) = Ok vs -> length vs = length l.
Proof. apply mapM_length. Qed.

Lemma facet_strings_length json_to_float double_to_int float_to_string f l strings :
  Schema.is_array f = true -> Schema.is_string f = false ->
  facet_strings json_to_float double_to_int float_to_string f (JArray l) = Ok strings ->
  length strings = length l.
Proof.
  unfold facet_strings, Schema.is_array, Schema.is_string.
  destruct (type f); intros Ha Hs; try discriminate Ha; try discriminate Hs.
  all: cbv iota beta; match goal with |- context [Json.bind ?m _] => destruct m as [vs|] eqn:E end; simpl; intros H; [|done].
  all: injection H as <-; rewrite length_map; exact (get_array_length _ _ _ E).
Qed.

Lemma array_strings_length json_to_float double_to_int float_to_string f l strings :
  Schema.is_array f = true ->
  array_strings json_to_float double_to_int float_to_string f (JArray l) = Ok strings ->
  length strings = length l.
Proof.
  unfold array_strings. destruct (Schema.is_string f) eqn:Es; intros Ha H.
  - exact (get_array_length _ _ _ H).
  - exact (facet_strings_length _ _ _ _ _ _ Ha Es H).
Qed.

Section C9Target.
Variable search_schema facet_schema : schema.
Variable faceted_name : field -> string.
Variable tokenizer : string -> bool -> list (string * Z).
Variable hash_wy stof : string -> Z.
Variable json_to_float : json -> Z.
Variable double_to_int : Z -> Z.
Variable float_to_string : Z -> string.

Ltac dpres := apply hoare_preserves_all; apply delims_preserved; intros ?; repeat slot_step.

Lemma target_field_delimiters document seq_id points is_update target f l strings i k :
find document target = Some (JArray l) -> Schema.is_array f = true ->
(Schema.is_string f || facet f) = true -> facet_pos facet_schema target = Some i ->
array_strings json_to_float double_to_int float_to_string f (JArray l) = Ok strings ->
hoare (delims_at seq_id i k)
      (index_field facet_schema faceted_name tokenizer hash_wy stof json_to_float double_to_int
         float_to_string document seq_id points is_update (target, f))
      (fun _ => delims_at seq_id i (k + length l + extra_delimiters tokenizer hash_wy stof f strings)).
Proof.
intros Hfind Harr Hfac Hpos Hstr. unfold index_field.
pose proof (array_strings_length _ _ _ _ _ _ Harr Hstr) as Hlen. rewrite <- Hlen.
unfold array_strings in Hstr.
rewrite count_find, Hfind, bool_decide_eq_true_2 by eauto. rewrite andb_false_r.
unfold field_value. rewrite Hfind, Hpos. simpl default.
destruct f as [nm ty fc opt]; unfold Schema.is_array in Harr; simpl in *.
destruct ty; try discriminate Harr; simpl in Hfac |- *; rewrite ?andb_false_r, ?andb_true_r; try rewrite Hfac.
{ (* STRING_ARRAY *)
  eapply hoare_bind; [dpres|intros ?; cbv beta].
  eapply hoare_bind; [|intros ?; cbv beta; intros s H; exact H].
  eapply hoare_bind; [dpres|intros ?; cbv beta].
  eapply hoare_bind; [apply hoare_lift|intros strings0; cbv beta].
  intros s [Hget Hd]. cbn [Schema.is_string type] in Hstr. rewrite Hstr in Hget. injection Hget as <-.
  by apply (array_field_delimiters tokenizer hash_wy stof). }
all: eapply hoare_bind; [|intros ?; cbv beta; eapply hoare_bind; [dpres|intros ?; cbv beta; intros s H; exact H]].
all: eapply hoare_bind; [dpres|intros ?; cbv beta].
all: eapply hoare_bind; [apply hoare_lift|intros strings0; cbv beta].
all: intros s [Hget Hd]; subst fc; cbn [Schema.is_string type] in Hstr; rewrite Hstr in Hget; injection Hget as <-.
all: by apply (array_field_delimiters tokenizer hash_wy stof).
Qed.
End C9Target.


Lemma preserves_stored_points P k q : preserves P (stored_points k q).
Proof.
  intros s H. unfold stored_points.
  destruct (sort_index s !! k) as [m|]; [destruct (m !! q)|]; exact H.
Qed.

Lemma hoare_mapM_preserves {A} (f : A -> M unit) l P :
  (forall x, In x l -> preserves P (f x)) -> hoare P (mapM_ f l) (fun _ => P).
Proof. intros H. apply preserves_hoare, preserves_mapM_, H. Qed.

Lemma hoare_mapM_single {A} (f : A -> M unit) x P (Q : index -> Prop) :
  hoare P (f x) (fun _ => Q) -> hoare P (mapM_ f [x]) (fun _ => Q).
Proof.
  intros H s Hs. simpl. unfold mbind. specialize (H s Hs). by destruct (f x s) as [[] s'|e s'].
Qed.

Section C9InMemory.
Variable search_schema facet_schema : schema.
Variable faceted_name : field -> string.
Variable tokenizer : string -> bool -> list (string * Z).
Variable hash_wy stof : string -> Z.
Variable json_to_float : json -> Z.
Variable double_to_int : Z -> Z.
Variable float_to_string : Z -> string.

Lemma index_in_memory_delimiters document seq_id default_sorting_field is_update target f l strings i s :
List.NoDup (map fst search_schema) -> In (target, f) search_schema ->
find document target = Some (JArray l) -> Schema.is_array f = true ->
(Schema.is_string f || facet f) = true -> facet_pos facet_schema target = Some i ->
array_strings json_to_float double_to_int float_to_string f (JArray l) = Ok strings ->
facet_index_v2 s !! seq_id = None ->
match index_in_memory search_schema facet_schema faceted_name tokenizer hash_wy stof json_to_float
        double_to_int float_to_string document seq_id default_sorting_field is_update s with
| ROk _ s' => delims_at seq_id i (length l + extra_delimiters tokenizer hash_wy stof f strings) s'
| RThrow _ _ => True
end.
Proof.
intros Hnd Hin Hfind Harr Hfac Hpos Hstr Hnew.
cut (hoare (fun s => facet_index_v2 s !! seq_id = None)
       (index_in_memory search_schema facet_schema faceted_name tokenizer hash_wy stof json_to_float
          double_to_int float_to_string document seq_id default_sorting_field is_update)
       (fun _ => delims_at seq_id i (length l + extra_delimiters tokenizer hash_wy stof f strings))).
{ intros H. exact (H s Hnew). }
unfold index_in_memory.
eapply hoare_bind.
{ apply preserves_hoare. destruct (_ && _); [apply preserves_stored_points|apply preserves_lift]. }
intros points; cbv beta.
eapply (hoare_bind _ _ (fun _ => delims_at seq_id i 0%nat)).
{ intros s0 H0. simpl. rewrite H0. exists []. split; [|done].
  unfold slot_at. simpl. rewrite lookup_insert_eq. simpl.
  apply lookup_replicate_2. by apply (facet_pos_lt _ target). }
intros ?; cbv beta.
destruct (in_split _ _ Hin) as (pre & post & ->).
rewrite map_app in Hnd. simpl in Hnd. apply NoDup_remove_2 in Hnd.
assert (Hother : forall g fg, In (g, fg) (pre ++ post) -> facet_pos facet_schema g <> Some i).
{ intros g fg Hg Hgi. apply Hnd. rewrite <- map_app.
  rewrite (facet_pos_inj _ _ _ _ Hgi Hpos) in Hg. apply in_map_iff. by exists (target, fg). }
eapply hoare_bind.
{ eapply hoare_mapM_app.
  - apply hoare_mapM_preserves. intros [g fg] Hg. apply delims_preserved. intros x.
    apply slot_index_field. apply (Hother g fg). apply in_or_app. by left.
  - change ((target, f) :: post) with ([(target, f)] ++ post).
    eapply hoare_mapM_app.
    + apply hoare_mapM_single.
      apply (target_field_delimiters facet_schema faceted_name tokenizer hash_wy stof json_to_float
               double_to_int float_to_string); done.
    + apply hoare_mapM_preserves. intros [g fg] Hg. apply delims_preserved. intros x.
      apply slot_index_field. apply (Hother g fg). apply in_or_app. by right. }
intros ?; cbv beta.
eapply hoare_bind; [apply preserves_hoare, delims_preserved; intros x; apply slot_num_documents|].
intros ?; cbv beta. intros s0 H0. exact H0.
Qed.
End C9InMemory.


Lemma pretty_Z_nonempty (z : Z) : pretty z <> "".
Proof.
  destruct z as [|p|p]; [discriminate| |].
  - unfold pretty, pretty_Z, pretty, pretty_positive, pretty, pretty_N.
    rewrite decide_False by done.
    destruct (pretty_N_go_head (Npos p) "" ltac:(lia)) as (c & rest & Hcr & _). rewrite Hcr. discriminate.
  - unfold pretty, pretty_Z, pretty, pretty_positive, pretty, pretty_N.
    rewrite decide_False by done. change ("-" +:+ ?s) with (String "-" s). discriminate.
Qed.

Section C9Claim.
Variable search_schema facet_schema : schema.
Variable faceted_name : field -> string.
Variable tokenizer : string -> bool -> list (string * Z).
Variable hash_wy stof : string -> Z.
Variable json_to_float : json -> Z.
Variable double_to_int : Z -> Z.
Variable float_to_string : Z -> string.
Hypothesis hash_wy_reserved : forall token, hash_wy token <> FACET_ARRAY_DELIMETER.
Hypothesis stof_float : forall token, 0 <= stof token < 2 ^ 32.
Hypothesis tokenizer_whole : forall text, text <> "" -> tokenizer text true = [(text, 0)].

Lemma facet_token_hash_not_delimiter a_field token :
Schema.is_string a_field = true -> facet_token_hash hash_wy stof a_field token <> FACET_ARRAY_DELIMETER.
Proof.
intros Hs. unfold facet_token_hash. destruct a_field as [nm [] fc opt]; try discriminate Hs; apply hash_wy_reserved.
Qed.

Lemma extra_delimiters_string f strings :
Schema.is_string f = true -> extra_delimiters tokenizer hash_wy stof f strings = 0%nat.
Proof.
intros Hs. unfold extra_delimiters. induction strings as [|str strings IH]; cbn [sum_list_with]; [done|].
rewrite IH, count_delimiters_none; [done|]. intros [t i] _. by apply facet_token_hash_not_delimiter.
Qed.

Lemma extra_delimiters_float f strings :
Schema.is_float f = true -> extra_delimiters tokenizer hash_wy stof f strings = 0%nat.
Proof.
intros Hf. unfold extra_delimiters. induction strings as [|str strings IH]; cbn [sum_list_with]; [done|].
rewrite IH, count_delimiters_none; [done|]. intros [t i] _. unfold facet_token_hash, FACET_ARRAY_DELIMETER.
rewrite Hf. cbn [fst]. specialize (stof_float t). lia.
Qed.

Lemma nonempty_tokens_whole str f :
Schema.is_string f = false -> str <> "" -> nonempty_tokens tokenizer str f = [(str, 0)].
Proof.
intros Hs Hne. unfold nonempty_tokens. rewrite Hs, tokenizer_whole by done. simpl.
destruct (String.eqb_spec str ""); [done|reflexivity].
Qed.

Lemma extra_delimiters_bool f bs :
Schema.is_bool f = true -> extra_delimiters tokenizer hash_wy stof f (map bool_to_string bs) = 0%nat.
Proof.
intros Hb. assert (Hs : Schema.is_string f = false) by (destruct f as [nm [] fc opt]; done).
assert (Hfl : Schema.is_float f = false) by (destruct f as [nm [] fc opt]; done).
unfold extra_delimiters. induction bs as [|b bs IH]; cbn [sum_list_with map]; [done|].
rewrite IH, nonempty_tokens_whole by (done || (destruct b; discriminate)).
unfold facet_token_hash. rewrite Hfl, Hb, orb_true_r. by destruct b.
Qed.

Lemma extra_delimiters_integer f vs :
is_integer f = true -> Forall (fun z => - 2 ^ 63 <= z < 2 ^ 63) vs ->
extra_delimiters tokenizer hash_wy stof f (map int_to_string vs) = length (List.filter (fun z => z =? -1) vs).
Proof.
intros Hi. assert (Hs : Schema.is_string f = false) by (destruct f as [nm [] fc opt]; done).
assert (Hfl : Schema.is_float f = false) by (destruct f as [nm [] fc opt]; done).
unfold extra_delimiters. induction vs as [|z vs IH]; intros Hr; cbn [sum_list_with map List.filter]; [done|].
apply Forall_cons in Hr as [Hz Hr].
rewrite IH by done. unfold int_to_string. rewrite nonempty_tokens_whole by (done || apply pretty_Z_nonempty).
unfold facet_token_hash. rewrite Hfl, Hi. cbn [orb map fst]. rewrite atoll_pretty by done.
unfold count_delimiters, FACET_ARRAY_DELIMETER, to_uint64. cbn [List.filter].
change (2 ^ 64) with 18446744073709551616. change (2 ^ 63) with 9223372036854775808 in Hz.
destruct (Z.eqb_spec (18446744073709551616 - 1) (z mod 18446744073709551616)) as [E|E];
destruct (Z.eqb_spec z (-1)) as [E'|E']; simpl; try lia; exfalso.
- apply E'. destruct (Z.le_gt_cases 0 z) as [Hp|Hn]; [rewrite Z.mod_small in E by lia; lia|].
  rewrite <- (Z.mod_add z 1) in E by lia. rewrite Z.mod_small in E by lia. lia.
- apply E. subst z. reflexivity.
Qed.

(** C9 (amended): ingesting an array field by [index_string_array_field]
  adds to the document's facet entry one array delimiter per element, plus
  one for each token hash of an element that itself equals the delimiter
  value 2^64-1; after [index_in_memory] of a new document whose faceted (or
  string) array field holds [l], that field's facet entry holds
  [length l] plus these extra delimiters.  With a string hash that never
  yields the sentinel, 32-bit float patterns and a tokenizer that keeps
  the text of a number or boolean whole, there are no extra delimiters in
  string, float and boolean arrays; in an int32 or int64 array each
  element -1 adds one, since [atoll("-1")] as a uint64 is 2^64-1. *)
Theorem facet_array_delimiters_count :
(forall strings score t seq_id i f k,
  hoare (delims_at seq_id i k)
        (index_string_array_field tokenizer hash_wy stof strings score t seq_id (Z.of_nat i) f)
        (fun _ => delims_at seq_id i (k + length strings + extra_delimiters tokenizer hash_wy stof f strings))) /\
(forall document seq_id default_sorting_field is_update target f l strings i s,
  List.NoDup (map fst search_schema) -> In (target, f) search_schema ->
  find document target = Some (JArray l) -> Schema.is_array f = true ->
  (Schema.is_string f || facet f) = true -> facet_pos facet_schema target = Some i ->
  array_strings json_to_float double_to_int float_to_string f (JArray l) = Ok strings ->
  facet_index_v2 s !! seq_id = None ->
  match index_in_memory search_schema facet_schema faceted_name tokenizer hash_wy stof json_to_float
          double_to_int float_to_string document seq_id default_sorting_field is_update s with
  | ROk _ s' => delims_at seq_id i (length l + extra_delimiters tokenizer hash_wy stof f strings) s'
  | RThrow _ _ => True
  end) /\
(forall f strings, Schema.is_string f = true -> extra_delimiters tokenizer hash_wy stof f strings = 0%nat) /\
(forall f strings, Schema.is_float f = true -> extra_delimiters tokenizer hash_wy stof f strings = 0%nat) /\
(forall f bs, Schema.is_bool f = true ->
   extra_delimiters tokenizer hash_wy stof f (map bool_to_string bs) = 0%nat) /\
(forall f vs, is_integer f = true -> Forall (fun z => - 2 ^ 63 <= z < 2 ^ 63) vs ->
   extra_delimiters tokenizer hash_wy stof f (map int_to_string vs) = length (List.filter (fun z => z =? -1) vs)).
Proof.
split; [|split; [|split; [|split; [|split]]]].
- intros. by apply (array_field_delimiters tokenizer hash_wy stof).
- intros. by eapply (index_in_memory_delimiters search_schema facet_schema faceted_name tokenizer hash_wy stof
                     json_to_float double_to_int float_to_string).
- exact extra_delimiters_string.
- exact extra_delimiters_float.
- exact extra_delimiters_bool.
- exact extra_delimiters_integer.
Qed.
End C9Claim.

Lemma spec_tokenizer_keep_whole text : text <> "" -> SpecTokenizer.tokenizer_keep text true = [(text, 0)].
Proof. destruct text; [done|reflexivity]. Qed.

Lemma facet_array_delimiters_count_witness :
  match index_in_memory facet_nums_schema facet_nums_schema (fun f => "_fstr_" +:+ name f)
          SpecTokenizer.tokenizer_keep (fun _ => 0) (fun _ => 0) (fun _ => 0) (fun x => x) (fun _ => "")
          facet_nums_doc 7 "" false facet_nums_index with
  | ROk _ _ => true
  | RThrow _ _ => false
  end = true /\
  match index_in_memory facet_nums_schema facet_nums_schema (fun f => "_fstr_" +:+ name f)
          SpecTokenizer.tokenizer_keep (fun _ => 0) (fun _ => 0) (fun _ => 0) (fun x => x) (fun _ => "")
          facet_nums_doc 7 "" false facet_nums_index with
  | ROk _ s' => delims_at 7 0 (2 + extra_delimiters SpecTokenizer.tokenizer_keep (fun _ => 0) (fun _ => 0)
                                   facet_nums_field ["-1"; "5"]) s'
  | RThrow _ _ => True
  end.
Proof.
  split; [vm_compute; reflexivity|].
  apply (proj1 (proj2 (facet_array_delimiters_count facet_nums_schema facet_nums_schema
           (fun f => "_fstr_" +:+ name f) SpecTokenizer.tokenizer_keep (fun _ => 0) (fun _ => 0)
           (fun _ => 0) (fun x => x) (fun _ => "")
           (fun _ => ltac:(unfold FACET_ARRAY_DELIMETER; lia))
           (fun _ => ltac:(lia)) spec_tokenizer_keep_whole))
           facet_nums_doc 7 "" false "nums" facet_nums_field
           [JInt (-1); JInt 5] ["-1"; "5"] 0%nat facet_nums_index).
  - repeat constructor; simpl; tauto.
  - simpl; auto.
  - reflexivity.
  - reflexivity.
  - reflexivity.
  - reflexivity.
  - vm_compute; reflexivity.
  - reflexivity.
Defined.

(** The int32 array [-1, 5] of [facet_nums_doc], two elements, leaves three
    array delimiters in its facet entry: the facet hash of the element text
    "-1" is [atoll("-1")] as a uint64, the delimiter value itself. *)
Lemma facet_int_array_minus_one :
  match index_in_memory facet_nums_schema facet_nums_schema (fun f => "_fstr_" +:+ name f)
          SpecTokenizer.tokenizer_keep (fun _ => 0) (fun _ => 0) (fun _ => 0) (fun x => x) (fun _ => "")
          facet_nums_doc 7 "" false facet_nums_index with
  | ROk _ s' => slot_at 7 0 s' = Some [2 ^ 64 - 1; 2 ^ 64 - 1; 5; 2 ^ 64 - 1] /\ delims_at 7 0 3 s'
  | RThrow _ _ => False
  end.
Proof.
  vm_compute. split; [reflexivity|]. eexists. split; reflexivity.
Qed.


Lemma find_erase d k x : k <> x -> find (erase d k) x = find d x.
Proof.
  intros Hk. induction d as [|[k' v'] d IH]; [done|]. unfold erase in *. unfold doc in *; rewrite filter_cons.
  case_decide as E; simpl in *.
  - case_bool_decide; [done|]. by rewrite IH.
  - assert (k' = k) as -> by (destruct (decide (k' = k)); tauto).
    rewrite bool_decide_false by done. done.
Qed.

Lemma count_erase d k x : k <> x -> count (erase d k) x = count d x.
Proof.
  intros Hk. induction d as [|[k' v'] d IH]; [done|]. unfold erase, count in *. unfold doc in *; rewrite filter_cons.
  case_decide as E; simpl in *.
  - by rewrite IH.
  - assert (k' = k) as -> by (destruct (decide (k' = k)); tauto).
    rewrite bool_decide_false by done. done.
Qed.

Lemma count_erase_self d x : count (erase d x) x = false.
Proof.
  induction d as [|[k' v'] d IH]; [done|]. unfold erase, count in *. unfold doc in *; rewrite filter_cons.
  case_decide as E; simpl in *; [|done]. rewrite bool_decide_false by done. done.
Qed.

Lemma field_value_erase d k x : k <> x -> field_value d x = field_value (erase d k) x.
Proof. intros Hk. unfold field_value. by rewrite find_erase. Qed.

Lemma schema_at_In s k f : schema_at s k = Some f -> In (k, f) s.
Proof.
  induction s as [|[k' f'] s IH]; simpl; [done|].
  case_bool_decide as E; [intros [= ->]; subst; by left|]. intros Hs; right; by apply IH.
Qed.

Section Scrub.
Variable search_schema : schema.
Variable tokenizer : string -> bool -> list (string * Z).
Variable json_to_float : json -> Z.
Variable double_to_int : Z -> Z.

Abbreviation unchanged := (field_unchanged tokenizer json_to_float double_to_int).
Abbreviation scrub := (scrub_reindex_doc search_schema tokenizer json_to_float double_to_int).

Lemma field_unchanged_erase u o k x fx :
  name fx = x -> k <> x -> unchanged (erase u k) o x fx = unchanged u o x fx.
Proof.
  intros Hn Hk. unfold field_unchanged, tokenize_doc_field. rewrite Hn.
  by rewrite <- !(field_value_erase u k x Hk).
Qed.

Lemma scrub_keys u del o u' del' :
  scrub u del o = Ok (u', del') ->
  (forall k, In k (map fst del') -> In k (map fst del)) /\
  (forall k, count u' k = true -> count u k = true).
Proof.
  revert u u' del'; induction del as [|[k dv] del IH]; intros u u' del' H; simpl in H.
  - injection H as <- <-. split; [done|]. done.
  - destruct (schema_at search_schema k) as [sf|].
    + destruct (unchanged u o k sf) as [[]|]; simpl in H; [| |done].
      * destruct (IH _ _ _ H) as [H1 H2]. split; [intros k' Hk'; right; by apply H1|].
        intros k' Hc. specialize (H2 k' Hc). destruct (decide (k = k')) as [->|Ne].
        -- by rewrite count_erase_self in H2.
        -- by rewrite count_erase in H2.
      * destruct (scrub u del o) as [[r1 r2]|] eqn:E; simpl in H; [|done].
        injection H as <- <-. destruct (IH _ _ _ E) as [H1 H2]. split; [|done].
        intros k' [<-|Hk']; [by left|right; by apply H1].
    + destruct (scrub u del o) as [[r1 r2]|] eqn:E; simpl in H; [|done].
      injection H as <- <-. destruct (IH _ _ _ E) as [H1 H2]. split; [|done].
      intros k' [<-|Hk']; [by left|right; by apply H1].
Qed.

Lemma scrub_find_notin u del o u' del' x :
  ~ In x (map fst del) -> scrub u del o = Ok (u', del') ->
  find u' x = find u x /\ count u' x = count u x.
Proof.
  revert u u' del'; induction del as [|[k dv] del IH]; intros u u' del' Hx H; simpl in H, Hx.
  - by injection H as <- <-.
  - assert (k <> x) as Hk by tauto. assert (~ In x (map fst del)) as Hx' by tauto.
    destruct (schema_at search_schema k) as [sf|].
    + destruct (unchanged u o k sf) as [[]|]; simpl in H; [| |done].
      * destruct (IH _ _ _ Hx' H) as [-> ->]. by rewrite find_erase, count_erase.
      * destruct (scrub u del o) as [[r1 r2]|] eqn:E; simpl in H; [|done].
        injection H as <- <-. by apply (IH _ _ _ Hx' E).
    + destruct (scrub u del o) as [[r1 r2]|] eqn:E; simpl in H; [|done].
      injection H as <- <-. by apply (IH _ _ _ Hx' E).
Qed.

Lemma scrub_drops_unchanged u del o u' del' x dv fx :
  List.NoDup (map fst del) -> In (x, dv) del -> schema_at search_schema x = Some fx -> name fx = x ->
  unchanged u o x fx = Ok true -> scrub u del o = Ok (u', del') ->
  ~ In x (map fst del') /\ count u' x = false.
Proof.
  revert u u' del'; induction del as [|[k dv0] del IH]; intros u u' del' Hnd Hin Hs Hn Hu H;
    simpl in H; [done|].
  simpl in Hnd. apply List.NoDup_cons_iff in Hnd as [Hk Hnd].
  destruct (decide (k = x)) as [->|Ne].
  - rewrite Hs, Hu in H. simpl in H. destruct (scrub_keys _ _ _ _ _ H) as [H1 H2]. split.
    + intros Hx. by apply Hk, H1.
    + destruct (count u' x) eqn:C; [|done]. specialize (H2 x C). by rewrite count_erase_self in H2.
  - destruct Hin as [[= -> ->]|Hin]; [done|].
    destruct (schema_at search_schema k) as [sf|].
    + destruct (unchanged u o k sf) as [[]|]; simpl in H; [| |done].
      * apply (IH (erase u k) u' del' Hnd Hin Hs Hn); [|done]. by rewrite field_unchanged_erase.
      * destruct (scrub u del o) as [[r1 r2]|] eqn:E; simpl in H; [|done].
        injection H as <- <-. destruct (IH _ _ _ Hnd Hin Hs Hn Hu E) as [H1 H2].
        split; [|done]. simpl. intros [?|?]; [done|done].
    + destruct (scrub u del o) as [[r1 r2]|] eqn:E; simpl in H; [|done].
      injection H as <- <-. destruct (IH _ _ _ Hnd Hin Hs Hn Hu E) as [H1 H2].
      split; [|done]. simpl. intros [?|?]; [done|done].
Qed.

Lemma scrub_keeps_changed u del o u' del' x dv fx :
  List.NoDup (map fst del) -> In (x, dv) del -> schema_at search_schema x = Some fx -> name fx = x ->
  unchanged u o x fx = Ok false -> scrub u del o = Ok (u', del') ->
  In (x, dv) del' /\ find u' x = find u x /\ count u' x = count u x.
Proof.
  revert u u' del'; induction del as [|[k dv0] del IH]; intros u u' del' Hnd Hin Hs Hn Hu H;
    simpl in H; [done|].
  simpl in Hnd. apply List.NoDup_cons_iff in Hnd as [Hk Hnd].
  destruct (decide (k = x)) as [->|Ne].
  - rewrite Hs, Hu in H. simpl in H.
    destruct (scrub u del o) as [[r1 r2]|] eqn:E; simpl in H; [|done].
    injection H as <- <-. destruct Hin as [[= <-]|Hin].
    + split; [by left|]. by apply (scrub_find_notin _ _ _ _ _ _ Hk E).
    + exfalso. apply Hk. apply (in_map fst) in Hin. exact Hin.
  - destruct Hin as [[= -> ->]|Hin]; [done|].
    destruct (schema_at search_schema k) as [sf|].
    + destruct (unchanged u o k sf) as [[]|]; simpl in H; [| |done].
      * rewrite <- (field_unchanged_erase u o k x fx Hn Ne) in Hu.
        destruct (IH _ _ _ Hnd Hin Hs Hn Hu H) as (H1 & H2 & H3).
        split; [done|]. by rewrite H2, H3, find_erase, count_erase.
      * destruct (scrub u del o) as [[r1 r2]|] eqn:E; simpl in H; [|done].
        injection H as <- <-. destruct (IH _ _ _ Hnd Hin Hs Hn Hu E) as (H1 & H2 & H3).
        split; [by right|done].
    + destruct (scrub u del o) as [[r1 r2]|] eqn:E; simpl in H; [|done].
      injection H as <- <-. destruct (IH _ _ _ Hnd Hin Hs Hn Hu E) as (H1 & H2 & H3).
      split; [by right|done].
Qed.
End Scrub.


Lemma preserves_bind_post {A B} (P : index -> Prop) (m : M A) (R : A -> Prop) (f : A -> M B) :
  (forall s, P s -> match m s with ROk a s' => R a /\ P s' | RThrow _ s' => P s' end) ->
  (forall a, R a -> preserves P (f a)) -> preserves P (mbind m f).
Proof.
  intros Hm Hf s H. unfold mbind. specialize (Hm s H).
  destruct (m s) as [a s'|e s']; simpl in *; [|done]. destruct Hm as [Ha Hs']. by apply Hf.
Qed.

Section FieldFrame.
Variable search_schema facet_schema : schema.
Variable faceted_name : field -> string.
Variable tokenizer : string -> bool -> list (string * Z).
Variable hash_wy stof : string -> Z.
Variable json_to_float : json -> Z.
Variable double_to_int : Z -> Z.
Variable float_to_string : Z -> string.
Variable exceeds_float_max : json -> bool.
Variable x fx : string.
Variable seq_id : Z.
Variable v : option art * option art * option num_tree * option (gmap Z Z) * option (list Z).
Let pos := facet_pos facet_schema x.
Let P := fun s => field_entries x fx pos seq_id s = v /\ is_Some (facet_index_v2 s !! seq_id).

Lemma fe_modify_art k g : k <> x -> k <> fx -> preserves P (modify_art k g).
Proof.
  intros H1 H2 s [Hv Hs]. unfold modify_art, modify. cbn [res_state].
  split; [|exact Hs]. rewrite <- Hv. unfold field_entries, slot_at.
  cbn [search_index numerical_index sort_index facet_index_v2 set_search_index].
  by rewrite !lookup_alter_ne by done.
Qed.
Lemma fe_modify_num k g : k <> x -> preserves P (modify_num k g).
Proof.
  intros H1 s [Hv Hs]. unfold modify_num, modify. cbn [res_state].
  split; [|exact Hs]. rewrite <- Hv. unfold field_entries, slot_at.
  cbn [search_index numerical_index sort_index facet_index_v2 set_numerical_index].
  by rewrite !lookup_alter_ne by done.
Qed.
Lemma fe_modify_sort k g : k <> x -> preserves P (modify_sort k g).
Proof.
  intros H1 s [Hv Hs]. unfold modify_sort, modify. cbn [res_state].
  split; [|exact Hs]. rewrite <- Hv. unfold field_entries, slot_at.
  cbn [search_index numerical_index sort_index facet_index_v2 set_sort_index].
  by rewrite !lookup_alter_ne by done.
Qed.
Lemma fe_num_documents f : preserves P (modify (fun s => set_num_documents (f s) s)).
Proof. intros s H; exact H. Qed.
Lemma fe_modify_facet j g : pos <> Some (Z.to_nat j) -> preserves P (modify_facet seq_id j g).
Proof.
  intros Hj s [Hv Hs]. unfold P, modify_facet, modify. cbn [res_state facet_index_v2 set_facet_index_v2].
  split.
  2:{ destruct Hs as [w Hw]. rewrite lookup_alter. case_decide; [|congruence]. rewrite Hw. by eexists. }
  rewrite <- Hv. unfold field_entries. cbn [search_index numerical_index sort_index set_facet_index_v2].
  f_equal. unfold pos in *. destruct (facet_pos facet_schema x) as [i|]; [|done]. simpl.
  unfold slot_at. cbn [facet_index_v2 set_facet_index_v2].
  rewrite lookup_alter. case_decide; [|congruence].
  destruct (facet_index_v2 s !! seq_id) as [w|]; cbn -[list_alter]; [|done].
  rewrite list_lookup_alter_ne; [done|]. congruence.
Qed.

Lemma fe_insert_doc score t q tto : t <> x -> t <> fx -> preserves P (insert_doc score t q tto).
Proof.
  intros H1 H2. unfold insert_doc. apply preserves_mapM_. intros ? ?. by apply fe_modify_art.
Qed.

Lemma fe_index_string_field text score t facet_id f :
  t <> x -> t <> fx -> (facet_id < 0 \/ pos <> Some (Z.to_nat facet_id)) ->
  preserves P (index_string_field tokenizer hash_wy stof text score t seq_id facet_id f).
Proof.
  intros H1 H2 Hf. unfold index_string_field.
  apply preserves_bind; [|intros _; by apply fe_insert_doc].
  destruct (Z.geb_spec facet_id 0); [|apply preserves_ret].
  apply fe_modify_facet. destruct Hf; [lia|done].
Qed.

Lemma fe_index_string_array_field strings score t facet_id f :
  t <> x -> t <> fx -> (facet_id < 0 \/ pos <> Some (Z.to_nat facet_id)) ->
  preserves P (index_string_array_field tokenizer hash_wy stof strings score t seq_id facet_id f).
Proof.
  intros H1 H2 Hf. unfold index_string_array_field.
  destruct (foldl _ _ _) as [fvals tp].
  apply preserves_bind; [|intros _; by apply fe_insert_doc].
  destruct (Z.geb_spec facet_id 0); [|apply preserves_ret].
  apply fe_modify_facet. destruct Hf; [lia|done].
Qed.

Lemma fe_facet_id k : k <> x ->
  let facet_id := match facet_pos facet_schema k with Some j => Z.of_nat j | None => -1 end in
  facet_id < 0 \/ pos <> Some (Z.to_nat facet_id).
Proof.
  intros Hk. simpl. destruct (facet_pos facet_schema k) as [j|] eqn:E; [right|left; lia].
  rewrite Nat2Z.id. intros Hp. apply Hk. by apply (facet_pos_inj facet_schema k x j).
Qed.

Ltac fe_step :=
  first [ pres_step
        | apply fe_modify_art; assumption | apply fe_modify_num; assumption
        | apply fe_modify_sort; assumption | apply fe_num_documents ].

Lemma fe_index_field document points k f :
  count document x = false -> (k <> x -> k <> fx /\ faceted_name f <> x /\ faceted_name f <> fx) ->
  preserves P (index_field facet_schema faceted_name tokenizer hash_wy stof json_to_float
                 double_to_int float_to_string document seq_id points true (k, f)).
Proof.
  intros Hc Hk. unfold index_field. rewrite orb_true_r. simpl andb.
  destruct (decide (k = x)) as [->|Ne]; [rewrite Hc; apply preserves_ret|].
  destruct (Hk Ne) as (Hk1 & Hk2 & Hk3).
  pose proof (fe_facet_id k Ne) as Hfid. simpl in Hfid. revert Hfid.
  generalize (match facet_pos facet_schema k with Some j => Z.of_nat j | None => -1 end).
  intros facet_id Hfid.
  repeat first [ fe_step
               | apply fe_index_string_field; assumption
               | apply fe_index_string_array_field; assumption ].
Qed.

Lemma fe_remove_field document k : k <> x -> (forall f, In (k, f) search_schema -> k <> fx) ->
  preserves P (remove_field search_schema facet_schema tokenizer json_to_float double_to_int seq_id document k).
Proof.
  intros Ne Hk. unfold remove_field.
  destruct (schema_at search_schema k) as [g|] eqn:Eg; [|apply preserves_ret].
  pose proof (Hk g (schema_at_In _ _ _ Eg)) as Hfx.
  pose proof (fe_facet_id k Ne) as Hfid. simpl in Hfid.
  unfold remove_token, remove_values.
  destruct (facet_pos facet_schema k) as [j|].
  - assert (pos <> Some j) as Hj by (destruct Hfid; [lia|by rewrite Nat2Z.id in *]).
    repeat first [ fe_step | apply fe_modify_facet; by rewrite Nat2Z.id ].
  - repeat fe_step.
Qed.

Lemma fe_remove document :
  (forall kv, In kv document -> kv.1 <> x) ->
  (forall k f, In (k, f) search_schema -> k <> x -> k <> fx) ->
  preserves P (remove search_schema facet_schema tokenizer json_to_float double_to_int seq_id document).
Proof.
  intros Hd Hk. unfold remove. apply preserves_bind; [|intros _; apply preserves_ret].
  apply preserves_mapM_. intros kv Hkv. apply fe_remove_field; [by apply Hd|].
  intros f Hf. apply (Hk _ f Hf). by apply Hd.
Qed.

Lemma fe_index_in_memory document dsf :
  count document x = false ->
  (forall k f, In (k, f) search_schema -> k <> x ->
     k <> fx /\ faceted_name f <> x /\ faceted_name f <> fx) ->
  preserves P (index_in_memory search_schema facet_schema faceted_name tokenizer hash_wy stof
                 json_to_float double_to_int float_to_string document seq_id dsf true).
Proof.
  intros Hc Hk. unfold index_in_memory.
  apply preserves_bind.
  { destruct (_ && _); [apply preserves_stored_points|apply preserves_lift]. }
  intros points. apply preserves_bind.
  { intros s [Hv [w Hw]]. unfold modify. cbn [res_state]. rewrite Hw. split; [|by exists w].
    rewrite <- Hv. reflexivity. }
  intros _. apply preserves_bind.
  { apply preserves_mapM_. intros [k f] Hin. apply fe_index_field; [done|]. by apply Hk. }
  intros _. apply preserves_bind; [apply fe_num_documents|]. intros _. apply preserves_ret.
Qed.

Lemma fe_index_one dsf r dv fX :
  rec_is_update r = true -> rec_seq_id r = seq_id ->
  List.NoDup (map fst (rec_del_doc r)) -> In (x, dv) (rec_del_doc r) ->
  schema_at search_schema x = Some fX -> name fX = x ->
  field_unchanged tokenizer json_to_float double_to_int (rec_doc r) (rec_old_doc r) x fX = Ok true ->
  (forall k f, In (k, f) search_schema -> k <> x ->
     k <> fx /\ faceted_name f <> x /\ faceted_name f <> fx) ->
  preserves P (index_one search_schema facet_schema faceted_name tokenizer hash_wy stof json_to_float
                 double_to_int float_to_string exceeds_float_max dsf r).
Proof.
  intros Hup Hsq Hnd Hin Hs Hn Hu Hk. unfold index_one.
  destruct (negb _); [apply preserves_ret|].
  destruct (operation r); try apply preserves_ret;
    (apply preserves_bind; [apply preserves_lift|]; intros [c|c m]; [|apply preserves_ret]);
    rewrite Hup;
    (destruct (scrub_reindex_doc search_schema tokenizer json_to_float double_to_int
                 (rec_doc r) (rec_del_doc r) (rec_old_doc r)) as [[u' d']|e] eqn:Es;
     [|intros s H; exact H]);
    destruct (scrub_drops_unchanged _ _ _ _ _ _ _ _ _ _ _ _ Hnd Hin Hs Hn Hu Es) as [Hd' Hu'];
    assert (Hc' : count d' x = false) by
      (unfold count; apply not_true_iff_false; rewrite existsb_exists;
       intros [[k w] [Hkw Hb]]; apply bool_decide_eq_true_1 in Hb; simpl in Hb; subst k;
       apply Hd', (in_map fst _ _ Hkw));
    assert (Hrem : preserves P (remove search_schema facet_schema tokenizer json_to_float double_to_int
                                 seq_id d')) by
      (apply fe_remove; [intros [k w] Hkw Hx; simpl in Hx; subst k; apply Hd', (in_map fst _ _ Hkw)
                        |intros k f Hf Hx; by apply (Hk k f Hf Hx)]);
    (apply (preserves_bind_post _ _ (fun r' => rec_doc r' = u' /\ rec_del_doc r' = d' /\
                                              rec_seq_id r' = seq_id /\ rec_is_update r' = true));
    [ intros s Hs0; unfold mbind, lift; cbn -[remove]; rewrite Hsq;
      specialize (Hrem s Hs0); destruct (remove _ _ _ _ _ seq_id d' s); simpl in *; by auto
    | intros r' (Hd & Hdd & Hsq' & Hup'); rewrite Hd, Hdd, Hsq', Hup';
      apply preserves_bind; [by apply fe_index_in_memory|];
      intros [c'|c' m']; [apply preserves_ret|];
      apply preserves_bind; [by apply fe_index_in_memory|]; intros _; apply preserves_ret ]).
Qed.
End FieldFrame.


Section C7Claim.
Variable search_schema facet_schema : schema.
Variable faceted_name : field -> string.
Variable tokenizer : string -> bool -> list (string * Z).
Variable hash_wy stof : string -> Z.
Variable json_to_float : json -> Z.
Variable double_to_int : Z -> Z.
Variable float_to_string : Z -> string.
Variable exceeds_float_max : json -> bool.

(** C7: let field [x] (schema entry [fX], named [x]) be a member of the
    delete-doc of an update record.  [scrub_reindex_doc] erases [x] from the
    reindex-doc and from the delete-doc when [field_unchanged] finds its old
    and new values equal, and keeps it in both when they differ.  When the
    value is unchanged, the whole update of the record ([index_one]:
    validation, scrub, [remove] of the delete-doc, [index_in_memory] of the
    reindex-doc, and the compensation branch) leaves the field's ART, the ART
    under its faceted name, its numeric tree, its sort map and its facet slot
    of the document unchanged, provided no other schema field shares these
    names. *)
Theorem update_reindexes_changed_fields_only dsf r x dv fX :
  List.NoDup (map fst (rec_del_doc r)) -> In (x, dv) (rec_del_doc r) ->
  schema_at search_schema x = Some fX -> name fX = x ->
  (forall u' d', scrub_reindex_doc search_schema tokenizer json_to_float double_to_int
                   (rec_doc r) (rec_del_doc r) (rec_old_doc r) = Ok (u', d') ->
     (field_unchanged tokenizer json_to_float double_to_int (rec_doc r) (rec_old_doc r) x fX = Ok true ->
        ~ In x (map fst d') /\ count u' x = false) /\
     (field_unchanged tokenizer json_to_float double_to_int (rec_doc r) (rec_old_doc r) x fX = Ok false ->
        In (x, dv) d' /\ find u' x = find (rec_doc r) x)) /\
  (field_unchanged tokenizer json_to_float double_to_int (rec_doc r) (rec_old_doc r) x fX = Ok true ->
   rec_is_update r = true ->
   (forall k f, In (k, f) search_schema -> k <> x ->
      k <> faceted_name fX /\ faceted_name f <> x /\ faceted_name f <> faceted_name fX) ->
   forall v, preserves (fun s => field_entries x (faceted_name fX) (facet_pos facet_schema x) (rec_seq_id r) s = v
                                 /\ is_Some (facet_index_v2 s !! rec_seq_id r))
                       (index_one search_schema facet_schema faceted_name tokenizer hash_wy stof
                          json_to_float double_to_int float_to_string exceeds_float_max dsf r)).
Proof.
  intros Hnd Hin Hs Hn. split.
  - intros u' d' Es. split.
    + intros Hu. by apply (scrub_drops_unchanged search_schema tokenizer json_to_float double_to_int
                            _ _ _ _ _ x dv fX Hnd Hin Hs Hn Hu Es).
    + intros Hu. destruct (scrub_keeps_changed search_schema tokenizer json_to_float double_to_int
                            _ _ _ _ _ x dv fX Hnd Hin Hs Hn Hu Es) as (H1 & H2 & _). by split.
  - intros Hu Hup Hk v.
    by apply (fe_index_one search_schema facet_schema faceted_name tokenizer hash_wy stof json_to_float
                double_to_int float_to_string exceeds_float_max x (faceted_name fX) (rec_seq_id r) v
                dsf r dv fX).
Qed.
End C7Claim.

Lemma update_reindexes_changed_fields_only_witness :
  field_unchanged SpecTokenizer.tokenizer (fun _ => 0) (fun z => z)
    (rec_doc update_record) (rec_old_doc update_record) "title" title_field = Ok true /\
  scrub_reindex_doc update_schema SpecTokenizer.tokenizer (fun _ => 0) (fun z => z)
    (rec_doc update_record) (rec_del_doc update_record) (rec_old_doc update_record)
    = Ok ([("points", JInt 5)], [("points", JInt 4)]) /\
  (forall v, preserves (fun s => field_entries "title" ("_fstr_" +:+ name title_field)
                                  (facet_pos [] "title") (rec_seq_id update_record) s = v
                                 /\ is_Some (facet_index_v2 s !! rec_seq_id update_record))
                       (index_one update_schema [] (fun f => "_fstr_" +:+ name f) SpecTokenizer.tokenizer
                          (fun _ => 0) (fun _ => 0) (fun _ => 0) (fun z => z) (fun _ => "")
                          (fun _ => false) "points" update_record)).
Proof.
  assert (Hu : field_unchanged SpecTokenizer.tokenizer (fun _ => 0) (fun z => z)
                 (rec_doc update_record) (rec_old_doc update_record) "title" title_field = Ok true)
    by (vm_compute; reflexivity).
  split; [exact Hu|]. split; [vm_compute; reflexivity|].
  apply (update_reindexes_changed_fields_only update_schema [] (fun f => "_fstr_" +:+ name f)
           SpecTokenizer.tokenizer (fun _ => 0) (fun _ => 0) (fun _ => 0) (fun z => z) (fun _ => "")
           (fun _ => false) "points" update_record "title" (JString "hello") title_field).
  - repeat constructor; simpl; intuition discriminate.
  - simpl; auto.
  - reflexivity.
  - reflexivity.
  - exact Hu.
  - reflexivity.
  - intros k f Hin Hne. simpl in Hin.
    destruct Hin as [[= <- <-]|[[= <- <-]|[]]]; [|congruence].
    cbn. repeat split; intros H; discriminate H.
Defined.

Lemma index_in_memory_ok_201 search_schema facet_schema faceted_name tokenizer hash_wy stof json_to_float
    double_to_int float_to_string document seq_id dsf is_update :
  hoare (fun _ => True)
        (index_in_memory search_schema facet_schema faceted_name tokenizer hash_wy stof json_to_float
           double_to_int float_to_string document seq_id dsf is_update)
        (fun c _ => c = OptOk 201).
Proof.
  assert (Ht : forall A (m : M A), hoare (fun _ => True) m (fun _ _ => True)).
  { intros A m s0 _. by destruct (m s0). }
  unfold index_in_memory.
  apply (hoare_bind _ _ (fun _ _ => True)); [apply Ht|intros points].
  apply (hoare_bind _ _ (fun _ _ => True)); [apply Ht|intros _].
  apply (hoare_bind _ _ (fun _ _ => True)); [apply Ht|intros _].
  apply (hoare_bind _ _ (fun _ _ => True)); [apply Ht|intros _].
  intros s0 _. reflexivity.
Qed.

(** C6: [index_in_memory] never returns an error [Option]: it returns 201 or
    throws, so the compensation branch of [batch_memory_index] cannot run.
    An update whose new optional field [tags] holds ["a", 1] passes
    validation (only the first element is checked), [remove] drops the old
    title posting, and [index_in_memory] then throws on the element [1]; the
    exception leaves [batch_memory_index] with the title ART of the document
    emptied and nothing re-indexed. *)
Lemma failed_update_not_compensated :
  (forall search_schema facet_schema faceted_name tokenizer hash_wy stof json_to_float
          double_to_int float_to_string document seq_id dsf is_update s c s',
     index_in_memory search_schema facet_schema faceted_name tokenizer hash_wy stof json_to_float
       double_to_int float_to_string document seq_id dsf is_update s = ROk c s' -> c = OptOk 201) /\
  (search_index indexed_old_title !! "title" ≫= (fun t => t !! "old")) = Some [mk_posting 1 1 [0]] /\
  match batch_memory_index tags_title_schema [] (fun f => "_fstr_" +:+ name f) SpecTokenizer.tokenizer
          (fun _ => 0) (fun _ => 0) (fun _ => 0) (fun z => z) (fun _ => "") (fun _ => false)
          [mixed_update_record] "points" indexed_old_title with
  | RThrow what s' => what = "type must be string" /\ search_index s' !! "title" = Some ∅
  | ROk _ _ => False
  end.
Proof.
  split.
  - intros. match goal with H : index_in_memory _ _ _ _ _ _ _ _ _ _ _ _ _ _ = _ |- _ =>
      pose proof (index_in_memory_ok_201 search_schema facet_schema faceted_name tokenizer hash_wy stof
                    json_to_float double_to_int float_to_string document seq_id dsf is_update s I) as G;
      rewrite H in G; exact G end.
  - split; vm_compute; [reflexivity|]. split; reflexivity.
Qed.


Lemma find_count d k v : find d k = Some v -> count d k = true.
Proof.
  unfold count. induction d as [|[k' w] d IH]; simpl; [done|].
  case_bool_decide; simpl; [done|]. intros Hd. by rewrite IH.
Qed.

Section FloatFieldValues.
Variable facet_schema : schema.
Variable faceted_name : field -> string.
Variable tokenizer : string -> bool -> list (string * Z).
Variable hash_wy stof : string -> Z.
Variable json_to_float : json -> Z.
Variable double_to_int : Z -> Z.
Variable float_to_string : Z -> string.
Variable Q : gmap string (gmap Z Z) -> gmap string num_tree -> Prop.
Let SN := fun s => Q (sort_index s) (numerical_index s).

Lemma sortnum_modify_art k g : preserves SN (modify_art k g).
Proof. intros s H; exact H. Qed.
Lemma sortnum_modify_facet q j g : preserves SN (modify_facet q j g).
Proof. intros s H; exact H. Qed.

Lemma sortnum_index_string_field text score t q facet_id f :
  preserves SN (index_string_field tokenizer hash_wy stof text score t q facet_id f).
Proof.
  unfold index_string_field, insert_doc.
  repeat first [ pres_step | apply sortnum_modify_art | apply sortnum_modify_facet ].
Qed.

Lemma sortnum_index_string_array_field strings score t q facet_id f :
  preserves SN (index_string_array_field tokenizer hash_wy stof strings score t q facet_id f).
Proof.
  unfold index_string_array_field, insert_doc.
  repeat first [ pres_step | apply sortnum_modify_art | apply sortnum_modify_facet ].
Qed.
End FloatFieldValues.

Section FloatField.
Variable facet_schema : schema.
Variable faceted_name : field -> string.
Variable tokenizer : string -> bool -> list (string * Z).
Variable hash_wy stof : string -> Z.
Variable json_to_float : json -> Z.
Variable double_to_int : Z -> Z.
Variable float_to_string : Z -> string.

Lemma float_field_values document seq_id points is_update k f v x m nt :
  type f = FLOAT -> find document k = Some v -> get_float json_to_float v = Ok x ->
  hoare (fun s => sort_index s !! k = Some m /\ m !! seq_id = None /\ numerical_index s !! k = Some nt)
        (index_field facet_schema faceted_name tokenizer hash_wy stof json_to_float double_to_int
           float_to_string document seq_id points is_update (k, f))
        (fun _ s => (exists m', sort_index s !! k = Some m' /\ m' !! seq_id = Some (float_to_in64_t x)) /\
                    numerical_index s !! k = Some (num_tree_insert nt (float_to_in64_t x) seq_id)).
Proof.
  intros Ht Hf Hx. unfold index_field.
  rewrite (find_count _ _ _ Hf), andb_false_r. unfold field_value. rewrite Hf. simpl default.
  assert (Schema.is_string f = false /\ is_integer f = false /\ Schema.is_float f = true)
    as (Hs1 & Hi1 & Hf1)
    by (unfold Schema.is_string, is_integer, Schema.is_float, is_int32, is_int64; by rewrite Ht).
  set (Pre := fun s => sort_index s !! k = Some m /\ m !! seq_id = None /\ numerical_index s !! k = Some nt).
  apply (hoare_bind _ _ (fun _ => Pre)).
  { apply preserves_hoare.
    destruct (facet f && negb (Schema.is_string f));
      repeat first [ pres_step
                   | exact (sortnum_index_string_field _ _ _ (fun a b => Pre (mk_index ∅ b a ∅ 0)) _ _ _ _ _ _)
                   | exact (sortnum_index_string_array_field _ _ _ (fun a b => Pre (mk_index ∅ b a ∅ 0)) _ _ _ _ _ _) ]. }
  intros _. rewrite Ht. cbv iota.
  set (Mid := fun s => sort_index s !! k = Some m /\ m !! seq_id = None /\
                       numerical_index s !! k = Some (num_tree_insert nt (float_to_in64_t x) seq_id)).
  apply (hoare_bind _ _ (fun _ => Mid)).
  { apply (hoare_bind _ _ (fun _ => Pre)); [apply preserves_hoare, preserves_num_at|intros _].
    rewrite Hx. intros s Hs. cbn. destruct Hs as (H1 & H2 & H3). split; [done|split; [done|]].
    cbn. rewrite lookup_alter. case_decide; [|congruence]. by rewrite H3. }
  intros _. apply (hoare_bind _ _ (fun _ => Mid)); [apply preserves_hoare, preserves_sort_at|intros _].
  rewrite Hi1, Hf1, Hx. intros s (H1 & H2 & H3). cbn. split; [|done].
  rewrite lookup_alter. case_decide; [|congruence]. rewrite H1. cbn. rewrite H2.
  eexists; split; [reflexivity|]. by rewrite lookup_insert_eq.
Qed.
End FloatField.

(** C8 (amended): on non-NaN single-precision floats [float_to_in64_t] is
    strictly increasing for the IEEE order and agrees with [<=] except on
    (+0.0, -0.0); and [index_in_memory] files a float field's value [x] under
    [float_to_in64_t x] both in the field's numeric tree and in its sort map. *)
Theorem float_values_order_preserving :
  (forall a b, is_bits32 a -> is_bits32 b -> is_nan a = false -> is_nan b = false ->
     (ext_lt (value a) (value b) -> float_to_in64_t a < float_to_in64_t b) /\
     (ext_le (value a) (value b) ->
        float_to_in64_t a <= float_to_in64_t b \/ (a = pos_zero /\ b = neg_zero))) /\
  (forall facet_schema faceted_name tokenizer hash_wy stof json_to_float double_to_int float_to_string
          document seq_id points is_update k f v x m nt,
     type f = FLOAT -> find document k = Some v -> get_float json_to_float v = Ok x ->
     hoare (fun s => sort_index s !! k = Some m /\ m !! seq_id = None /\ numerical_index s !! k = Some nt)
           (index_field facet_schema faceted_name tokenizer hash_wy stof json_to_float double_to_int
              float_to_string document seq_id points is_update (k, f))
           (fun _ s => (exists m', sort_index s !! k = Some m' /\ m' !! seq_id = Some (float_to_in64_t x)) /\
                       numerical_index s !! k = Some (num_tree_insert nt (float_to_in64_t x) seq_id))).
Proof.
  split.
  - intros a b Ha Hb Hna Hnb. by apply float_to_in64_t_monotone.
  - intros * Ht Hf Hx. by apply (float_field_values _ _ _ _ _ _ _ _ _ _ _ _ _ _ v).
Qed.

Lemma float_values_order_preserving_witness :
  (ext_lt (value 1065353216) (value 1073741824) ->
   float_to_in64_t 1065353216 < float_to_in64_t 1073741824) /\
  hoare (fun s => sort_index s !! "price" = Some ∅ /\ (∅ : gmap Z Z) !! 5 = None /\
                  numerical_index s !! "price" = Some [])
        (index_field [] (fun f => "_fstr_" +:+ name f) SpecTokenizer.tokenizer (fun _ => 0) (fun _ => 0)
           (fun _ => 1065353216) (fun z => z) (fun _ => "") price_doc 5 0 false ("price", price_field))
        (fun _ s => (exists m', sort_index s !! "price" = Some m' /\ m' !! 5 = Some (float_to_in64_t 1065353216)) /\
                    numerical_index s !! "price" = Some (num_tree_insert [] (float_to_in64_t 1065353216) 5)).
Proof.
  split.
  - apply (proj1 float_values_order_preserving 1065353216 1073741824);
      unfold is_bits32; try lia; reflexivity.
  - apply (proj2 float_values_order_preserving [] (fun f => "_fstr_" +:+ name f) SpecTokenizer.tokenizer
             (fun _ => 0) (fun _ => 0) (fun _ => 1065353216) (fun z => z) (fun _ => "") price_doc 5 0 false
             "price" price_field (JFloat 4607182418800017408) 1065353216 ∅ []); reflexivity.
Defined.

(** ** String equality filters *)

Import Filter.




Lemma in_and_ids a b x : In x (and_ids a b) <-> In x a /\ In x b.
Proof.
  unfold and_ids. rewrite filter_In, existsb_exists. split.
  - intros [Ha [y [Hy E]]]. apply Z.eqb_eq in E. subst. done.
  - intros [Ha Hb]. split; [done|]. exists x. split; [done|]. apply Z.eqb_refl.
Qed.

Lemma in_or_ids a b x : In x (or_ids a b) <-> In x a \/ In x b.
Proof.
  unfold or_ids. rewrite in_app_iff, filter_In. split; [tauto|].
  intros [Ha|Hb]; [by left|]. destruct (existsb _ a) eqn:E.
  - left. apply existsb_exists in E as [y [Hy E]]. apply Z.eqb_eq in E. by subst.
  - right. done.
Qed.

Lemma token_ids_found t tokens acc found :
  (token_ids t tokens acc found).2 = (found + length (List.filter (fun tok => bool_decide (is_Some (t !! tok))) tokens))%nat.
Proof.
  revert acc found; induction tokens as [|tok rest IH]; intros acc found; simpl; [lia|].
  destruct (t !! tok) eqn:E; simpl; rewrite IH; [simpl; lia|lia].
Qed.

Lemma token_ids_members t tokens acc found id :
  (forall tok, In tok tokens -> is_Some (t !! tok)) ->
  In id (default [] (token_ids t tokens acc found).1) <->
  (match acc with None => tokens <> [] | Some ids => In id ids end) /\
  (forall tok, In tok tokens -> exists leaf, t !! tok = Some leaf /\ In id (leaf_ids leaf)).
Proof.
  revert acc found; induction tokens as [|tok rest IH]; intros acc found Hall; simpl.
  - destruct acc; simpl; split; try tauto; intros [H _]; done.
  - destruct (Hall tok (or_introl eq_refl)) as [leaf Hl]. rewrite Hl.
    rewrite IH by (intros; apply Hall; by right). split.
    + intros [Hacc Hrest]. destruct acc as [ids|].
      * apply in_and_ids in Hacc as [H1 H2]. split; [done|].
        intros tk [<-|Hin]; [by exists leaf|by apply Hrest].
      * split; [done|]. intros tk [<-|Hin]; [by exists leaf|by apply Hrest].
    + intros [Hacc Hrest]. split.
      * destruct (Hrest tok (or_introl eq_refl)) as [l [El Hid]]. rewrite Hl in El. injection El as <-.
        destruct acc; [by apply in_and_ids|done].
      * intros tk Hin. apply Hrest. by right.
Qed.

Lemma in_fold_or_ids (g : string -> list Z) values acc id :
  In id (fold_left (fun ids v => or_ids ids (g v)) values acc) <->
  In id acc \/ exists v, In v values /\ In id (g v).
Proof.
  revert acc; induction values as [|v rest IH]; intros acc; simpl.
  - split; [tauto|]. intros [H|[v [[] _]]]; done.
  - rewrite IH, in_or_ids. split.
    + intros [[H|H]|[w [Hw H]]]; [by left|right; exists v; split; [left|]; done|right; exists w; split; [right|]; done].
    + intros [H|[w [[<-|Hw] H]]]; [tauto|tauto|]. right. exists w. done.
Qed.

Lemma filter_all_some (t : art) tokens :
  (forall tok, In tok tokens -> is_Some (t !! tok)) ->
  List.filter (fun tok => bool_decide (is_Some (t !! tok))) tokens = tokens.
Proof.
  induction tokens as [|tok rest IH]; intros Hall; simpl; [done|].
  rewrite bool_decide_eq_true_2 by (apply Hall; by left).
  f_equal. apply IH. intros; apply Hall; by right.
Qed.

Section FilterProofs.
Variable hash_wy stof : string -> Z.
Variable filter_tokenizer : string -> list string.

Lemma filter_value_ids_members t fi facet_id f v id :
  facet f = true ->
  filter_tokenizer v <> [] ->
  (forall tok, In tok (filter_tokenizer v) -> is_Some (t !! tok)) ->
  In id (filter_value_ids hash_wy stof filter_tokenizer t fi facet_id f true v) <->
  (forall tok, In tok (filter_tokenizer v) -> exists leaf, t !! tok = Some leaf /\ In id (leaf_ids leaf)) /\
  (if Schema.is_array f
   then element_match (facet_values fi id facet_id) (filter_hash hash_wy stof f (filter_tokenizer v)) 1 0 = true
   else length (filter_tokenizer v) = length (facet_values fi id facet_id)).
Proof.
  intros Hf Hne Hall. unfold filter_value_ids.
  pose proof (token_ids_members t (filter_tokenizer v) None 0 id Hall) as Hm.
  pose proof (token_ids_found t (filter_tokenizer v) None 0) as Hc.
  rewrite filter_all_some in Hc by done.
  destruct (token_ids t (filter_tokenizer v) None 0) as [ids found]. simpl in Hm, Hc. subst found.
  rewrite Hf. simpl. rewrite filter_In, Hm. unfold exact_match.
  destruct (Schema.is_array f); simpl; [tauto|].
  rewrite Nat.eqb_eq. tauto.
Qed.

End FilterProofs.

(** C2 (amended): on a faceted string field, an equality filter whose values
    tokenize to non-empty token lists found in the field's ART keeps a document
    exactly when, for some filter value, the document is in the postings of
    every token and the exact-match check holds: for a string-array field,
    the positional hash product of some element of the document's facet entry
    equals that of the filter tokens; for a string field, only the number of
    filter tokens is compared with the number of facet hashes of the document. *)
Theorem string_equality_filter_members hash_wy stof filter_tokenizer t fi facet_id f values id :
  facet f = true ->
  (forall v, In v values ->
     filter_tokenizer v <> [] /\ forall tok, In tok (filter_tokenizer v) -> is_Some (t !! tok)) ->
  In id (string_filter_ids hash_wy stof filter_tokenizer t fi facet_id f true values) <->
  exists v, In v values /\
    (forall tok, In tok (filter_tokenizer v) -> exists leaf, t !! tok = Some leaf /\ In id (leaf_ids leaf)) /\
    (if Schema.is_array f
     then element_match (facet_values fi id facet_id) (filter_hash hash_wy stof f (filter_tokenizer v)) 1 0 = true
     else length (filter_tokenizer v) = length (facet_values fi id facet_id)).
Proof.
  intros Hf Hv. unfold string_filter_ids. rewrite in_fold_or_ids. split.
  - intros [H0|[v [Hin Hid]]]; [destruct H0|]. exists v. split; [done|].
    destruct (Hv v Hin) as [Hne Hall]. by apply (filter_value_ids_members hash_wy stof filter_tokenizer).
  - intros [v [Hin Hid]]. right. exists v. split; [done|].
    destruct (Hv v Hin) as [Hne Hall]. by apply (filter_value_ids_members hash_wy stof filter_tokenizer).
Qed.

Lemma string_equality_filter_members_witness :
  facet country_field = true /\
  (In 1 (string_filter_ids first_char_hash (fun _ => 0) spec_filter_tokens country_art
           (facet_index_v2 indexed_country) 0 country_field true ["a b"]) <->
   exists v, In v ["a b"] /\
    (forall tok, In tok (spec_filter_tokens v) -> exists leaf, country_art !! tok = Some leaf /\ In 1 (leaf_ids leaf)) /\
    (if Schema.is_array country_field
     then element_match (facet_values (facet_index_v2 indexed_country) 1 0)
            (filter_hash first_char_hash (fun _ => 0) country_field (spec_filter_tokens v)) 1 0 = true
     else length (spec_filter_tokens v) = length (facet_values (facet_index_v2 indexed_country) 1 0))).
Proof.
  split; [reflexivity|].
  apply string_equality_filter_members; [reflexivity|].
  intros v [<-|[]]. split; [vm_compute; discriminate|].
  intros tok Htok. vm_compute in Htok. destruct Htok as [<-|[<-|[]]]; vm_compute; eexists; reflexivity.
Defined.

(** C2: the document "b a" is kept by the filter "a b", whose tokens come in
    another order; the positional hashes of the two token lists differ. *)
Lemma string_filter_ignores_token_order :
  string_filter_ids first_char_hash (fun _ => 0) spec_filter_tokens country_art
    (facet_index_v2 indexed_country) 0 country_field true ["a b"] = [1] /\
  spec_filter_tokens "a b" = ["a"; "b"] /\
  facet_values (facet_index_v2 indexed_country) 1 0 = [98; 97] /\
  filter_hash first_char_hash (fun _ => 0) country_field ["a"; "b"] <>
  filter_hash first_char_hash (fun _ => 0) country_field ["b"; "a"].
Proof.
  split; [vm_compute; reflexivity|]. split; [vm_compute; reflexivity|].
  split; [vm_compute; reflexivity|]. vm_compute. discriminate.
Qed.

(** ** Token dropping and the bounds of the candidate search *)

Import Search.




(** *** Bounds of the candidate search (C4) *)

Lemma candidates_loop_evaluated fuel filter_ids exclude_token_ids curated_ids tcs th N n fnr ev fnr' ev' :
  candidates_loop fuel filter_ids exclude_token_ids curated_ids tcs th N n fnr ev = (fnr', ev') ->
  0 <= n ->
  (ev' <= ev + Z.to_nat (combination_limit - n))%nat.
Proof.
  revert n fnr ev. induction fuel as [|fuel IH]; intros n fnr ev H Hn; simpl in H.
  - injection H as <- <-. lia.
  - destruct ((n <? N) && (n <? combination_limit)) eqn:G.
    + apply andb_true_iff in G as [_ G]. apply Z.ltb_lt in G. unfold combination_limit in *.
      destruct (combination_ids _ _ _ _ _) as [ids|].
      * destruct (Nat.leb th (fnr + length ids)).
        { injection H as <- <-. lia. }
        apply IH in H; lia.
      * apply IH in H; lia.
    + injection H as <- <-. lia.
Qed.

Lemma search_candidates_evaluated filter_ids exclude_token_ids curated_ids tcs fnr th :
  (snd (search_candidates filter_ids exclude_token_ids curated_ids tcs fnr th) <= 10)%nat.
Proof.
  unfold search_candidates.
  destruct (candidates_loop _ _ _ _ _ _ _ _ _ _) as [fnr' ev'] eqn:H.
  apply candidates_loop_evaluated in H; [|lia]. simpl. unfold combination_limit in H. lia.
Qed.

Lemma length_costs_from_last rtbl q : length (costs_from_last rtbl q) = length rtbl.
Proof. revert q; induction rtbl; intros q; simpl; [done|]. by rewrite IHrtbl. Qed.

Lemma costs_from_last_in rtbl q j :
  Forall (fun c => c <> []) rtbl -> 0 <= q -> (j < length rtbl)%nat ->
  In (nth j (costs_from_last rtbl q) 0) (nth j rtbl []).
Proof.
  revert q j; induction rtbl as [|c rest IH]; intros q j Hne Hq Hj; simpl in Hj; [lia|].
  apply Forall_cons in Hne as [Hc Hne].
  assert (Hs : 0 < Z.of_nat (length c)) by (destruct c; [done|simpl; lia]).
  destruct j as [|j]; simpl.
  - apply nth_In. pose proof (Z.mod_pos_bound q (Z.of_nat (length c)) Hs). lia.
  - apply IH; [done| |lia]. apply Z.div_pos; lia.
Qed.

Lemma cost_vector_in tbl n i :
  Forall (fun c => c <> []) tbl -> 0 <= n -> (i < length tbl)%nat ->
  In (nth i (cost_vector tbl n) 0) (nth i tbl []).
Proof.
  intros Hne Hn Hi. unfold cost_vector.
  rewrite rev_nth by (rewrite length_costs_from_last, length_rev; done).
  rewrite length_costs_from_last, length_rev.
  replace (nth i tbl []) with (nth (length tbl - S i) (rev tbl) []).
  - apply costs_from_last_in; [by apply Forall_rev| |rewrite length_rev]; lia.
  - rewrite rev_nth by lia. f_equal. lia.
Qed.

Lemma token_loop_not_found fuzzy prefix tokens costs ti nt cache acc cache' i :
  token_loop fuzzy prefix tokens costs ti nt cache acc = (cache', NotFound i) ->
  (ti <= i < ti + length tokens)%nat.
Proof.
  revert ti cache acc. induction tokens as [|tok rest IH]; intros ti cache acc H; simpl in H; [done|].
  destruct (cache !! _) as [leaves|].
  - destruct leaves; [injection H as _ <-; simpl; lia|]. apply IH in H. simpl. lia.
  - destruct (fuzzy _ _ _); [injection H as _ <-; simpl; lia|]. apply IH in H. simpl. lia.
Qed.

Definition sf_wf (st : sf_state) : Prop :=
  length (search_tokens st) = length (token_to_costs st) /\ Forall (fun c => c <> []) (token_to_costs st).

Lemma length_erase_first c l : In c l -> S (length (erase_first c l)) = length l.
Proof.
  induction l as [|x r IH]; intros Hin; simpl in *; [done|].
  destruct (x =? c) eqn:E; [done|]. apply Z.eqb_neq in E.
  destruct Hin as [->|Hin]; [done|]. simpl. by rewrite IH.
Qed.

Lemma total_costs_delete tbl i :
  (i < length tbl)%nat -> (total_costs (delete i tbl) + length (nth i tbl []))%nat = total_costs tbl.
Proof.
  unfold total_costs. revert i; induction tbl as [|c r IH]; intros i Hi; simpl in *; [lia|].
  destruct i as [|i]; simpl; [lia|]. rewrite <- (IH i) by lia. lia.
Qed.

Lemma total_costs_insert tbl i x :
  (i < length tbl)%nat ->
  (total_costs (<[i := x]> tbl) + length (nth i tbl []))%nat = (total_costs tbl + length x)%nat.
Proof.
  unfold total_costs. revert i; induction tbl as [|c r IH]; intros i Hi; simpl in *; [lia|].
  destruct i as [|i]; simpl; [lia|]. pose proof (IH i ltac:(lia)). lia.
Qed.

Lemma length_delete_lt {A} (l : list A) i : (i < length l)%nat -> S (length (delete i l)) = length l.
Proof.
  revert i; induction l as [|x r IH]; intros i Hi; simpl in *; [lia|].
  destruct i; simpl; [done|]. rewrite IH; lia.
Qed.

Lemma Forall_delete_nth {A} (P : A -> Prop) (l : list A) i : Forall P l -> Forall P (delete i l).
Proof.
  revert i; induction l as [|x r IH]; intros i H; simpl; [constructor|].
  apply Forall_cons in H as [Hx Hr]. destruct i; simpl; [done|]. constructor; [done|]. by apply IH.
Qed.

Lemma Forall_insert_nth {A} (P : A -> Prop) (l : list A) i x : Forall P l -> P x -> Forall P (<[i := x]> l).
Proof.
  revert i; induction l as [|y r IH]; intros i H Hx; simpl; [constructor|].
  apply Forall_cons in H as [Hy Hr]. destruct i; simpl; constructor; try done. by apply IH.
Qed.

Lemma length_insert_nth {A} (l : list A) i x : length (<[i := x]> l) = length l.
Proof. revert i; induction l as [|y r IH]; intros i; simpl; [done|]. destruct i; simpl; [done|]. by rewrite IH. Qed.

Lemma lookup_nth_lt (tbl : list (list Z)) i : (i < length tbl)%nat -> tbl !! i = Some (nth i tbl []).
Proof.
  revert i; induction tbl as [|c r IH]; intros i Hi; simpl in *; [lia|].
  destruct i; simpl; [done|]. apply IH. lia.
Qed.

Lemma drop_cost_spec st i cost :
  sf_wf st -> (i < length (token_to_costs st))%nat -> In cost (nth i (token_to_costs st) []) ->
  sf_wf (drop_cost st i cost) /\
  S (total_costs (token_to_costs (drop_cost st i cost))) = total_costs (token_to_costs st) /\
  evaluated_costs (drop_cost st i cost) = evaluated_costs st /\
  evaluated_combinations (drop_cost st i cost) = evaluated_combinations st.
Proof.
  intros [Hlen Hne] Hi Hin. unfold drop_cost. rewrite lookup_nth_lt by done. simpl.
  assert (Hex : existsb (Z.eqb cost) (nth i (token_to_costs st) []) = true).
  { apply existsb_exists. exists cost. split; [done|apply Z.eqb_refl]. }
  rewrite Hex. pose proof (length_erase_first _ _ Hin) as Hl.
  pose proof (total_costs_delete _ _ Hi) as Hd. pose proof (total_costs_insert _ i (erase_first cost (nth i (token_to_costs st) [])) Hi) as Hins.
  destruct (erase_first cost (nth i (token_to_costs st) [])) as [|c cs] eqn:E; simpl in *.
  - split; [split|split; [lia|done]]; cbn [search_tokens token_to_costs].
    + pose proof (length_delete_lt (search_tokens st) i ltac:(lia)).
      pose proof (length_delete_lt (token_to_costs st) i Hi). lia.
    + by apply Forall_delete_nth.
  - split; [split|split; [lia|done]]; cbn [search_tokens token_to_costs].
    + by rewrite length_insert_nth.
    + by apply Forall_insert_nth.
Qed.

Lemma record_candidates_spec fi ex cu costs tcs th st :
  token_to_costs (record_candidates fi ex cu costs tcs th st) = token_to_costs st /\
  search_tokens (record_candidates fi ex cu costs tcs th st) = search_tokens st /\
  length (evaluated_costs (record_candidates fi ex cu costs tcs th st)) = S (length (evaluated_costs st)) /\
  (Forall (fun k => k <= 10) (evaluated_combinations st) ->
   Forall (fun k => k <= 10) (evaluated_combinations (record_candidates fi ex cu costs tcs th st)))%nat.
Proof.
  unfold record_candidates.
  pose proof (search_candidates_evaluated fi ex cu tcs (field_num_results st) th) as Hk.
  destruct (search_candidates _ _ _ _ _ _) as [fnr k]. simpl in *.
  rewrite length_app. simpl. split; [done|]. split; [done|]. split; [lia|].
  intros H. apply Forall_app. split; [done|]. by constructor.
Qed.

(** every turn adds at most one evaluated cost vector, and a restart removes a cost *)
Lemma typo_loop_bound fuzzy prefix fi ex cu fuel d t n N st b st' :
  typo_loop fuzzy prefix fi ex cu fuel d t n N st = Some (b, st') ->
  sf_wf st -> 0 <= n <= combination_limit ->
  Forall (fun k => k <= 10)%nat (evaluated_combinations st) ->
  sf_wf st' /\ Forall (fun k => k <= 10)%nat (evaluated_combinations st') /\
  Z.of_nat (length (evaluated_costs st')) + 10 * Z.of_nat (total_costs (token_to_costs st'))
  <= Z.of_nat (length (evaluated_costs st)) + 10 * Z.of_nat (total_costs (token_to_costs st))
     + (combination_limit - n).
Proof.
  unfold combination_limit.
  revert n N st. induction fuel as [|fuel IH]; intros n N st H Hwf Hn Hk; [done|].
  cbn [typo_loop] in H.
  destruct ((n <? N) && (n <? combination_limit)) eqn:G; cycle 1.
  { injection H as <- <-. split; [done|]. split; [done|]. lia. }
  apply andb_true_iff in G as [_ G]. unfold combination_limit in G. apply Z.ltb_lt in G.
  destruct (token_loop fuzzy prefix (search_tokens st) (cost_vector (token_to_costs st) n) 0
              (length (search_tokens st)) (token_cost_cache st) []) as [cache r] eqn:Ht.
  destruct r as [tcs|i].
  - set (st2 := match tcs with [] => set_cache cache st | _ => record_candidates fi ex cu
                  (cost_vector (token_to_costs st) n) tcs t (set_cache cache st) end) in H.
    assert (H2 : sf_wf st2 /\ Forall (fun k => k <= 10)%nat (evaluated_combinations st2) /\
                 total_costs (token_to_costs st2) = total_costs (token_to_costs st) /\
                 (length (evaluated_costs st2) <= S (length (evaluated_costs st)))%nat).
    { unfold st2. destruct tcs as [|tc tcs'].
      - unfold set_cache, sf_wf in *; simpl. split; [done|]. split; [done|]. split; [done|lia].
      - destruct (record_candidates_spec fi ex cu (cost_vector (token_to_costs st) n) (tc :: tcs') t
                    (set_cache cache st)) as (E1 & E2 & E3 & E4).
        unfold set_cache, sf_wf in *; simpl in *. rewrite E1, E2, E3.
        split; [done|]. split; [by apply E4|]. split; [done|lia]. }
    destruct H2 as (Hwf2 & Hk2 & Ht2 & Hl2).
    match type of H with context [if ?c then _ else _] => destruct c end.
    + injection H as <- <-. split; [done|]. split; [done|]. lia.
    + apply IH in H; [|done|lia|done]. destruct H as (? & ? & ?). split; [done|]. split; [done|]. lia.
  - destruct Hwf as [Hlen Hne].
    pose proof (token_loop_not_found _ _ _ _ _ _ _ _ _ _ Ht) as Hi. simpl in Hi.
    assert (Hin : In (nth i (cost_vector (token_to_costs st) n) 0) (nth i (token_to_costs (set_cache cache st)) [])).
    { apply cost_vector_in; simpl; [done|lia|lia]. }
    assert (Hwf1 : sf_wf (set_cache cache st)) by done.
    destruct (drop_cost_spec (set_cache cache st) i _ Hwf1 ltac:(simpl; lia) Hin) as (Hwf2 & Ht2 & He2 & Hc2).
    match type of H with context [if ?c then _ else _] => destruct c end.
    + injection H as <- <-. split; [done|]. rewrite Hc2. split; [done|]. rewrite He2.
      simpl in Ht2. simpl. lia.
    + apply IH in H; [|done|lia|by rewrite Hc2]. destruct H as (? & ? & ?). split; [done|]. split; [done|].
      rewrite He2 in *. simpl in Ht2. simpl in *. lia.
Qed.

Lemma token_costs_nonempty num_typos token_len : TypoCost.token_costs num_typos token_len <> [].
Proof.
  unfold TypoCost.token_costs, TypoCost.costs_upto, TypoCost.get_bounded_typo_cost, TypoCost.max_cost_of.
  set (m := if (num_typos <? 0) || (num_typos >? 2) then 2 else num_typos).
  assert (Hm : 0 <= m <= 2).
  { unfold m. destruct (num_typos <? 0) eqn:E1; simpl; [lia|].
    destruct (num_typos >? 2) eqn:E2; [lia|]. apply Z.ltb_ge in E1. rewrite Z.gtb_ltb in E2.
    apply Z.ltb_ge in E2. lia. }
  assert (Hb : 0 <= (if (token_len >? 0) && (m >=? token_len) && ((token_len =? 1) || (token_len =? 2))
                     then Int.to_int32 (token_len - 1) else Int.to_int32 m)).
  { destruct ((token_len >? 0) && (m >=? token_len) && ((token_len =? 1) || (token_len =? 2))) eqn:E.
    - apply andb_true_iff in E as [E _]. apply andb_true_iff in E as [E1 E2].
      apply Z.gtb_lt in E1. apply Z.geb_le in E2.
      rewrite to_int32_small by (unfold Int.INT32_MAX; lia). lia.
    - rewrite to_int32_small by (unfold Int.INT32_MAX; lia). lia. }
  revert Hb. generalize (if (token_len >? 0) && (m >=? token_len) && ((token_len =? 1) || (token_len =? 2))
                     then Int.to_int32 (token_len - 1) else Int.to_int32 m).
  intros b Hb. replace (Z.to_nat (b + 1)) with (S (Z.to_nat b)) by lia. done.
Qed.

(** C4 (amended): in every invocation of [search_field], each call of
    [search_candidates] goes through at most 10 leaf combinations, and the
    cost-vector loop evaluates at most 10 cost vectors per cost of its
    tokens plus 10: a token without a leaf at its chosen cost loses that
    cost and the enumeration restarts from the first cost vector. *)
Theorem candidate_search_bounds art_fuzzy_search prefix num_typos filter_ids exclude_token_ids curated_ids
    fuel q T k d t invs qf kf :
  search_field art_fuzzy_search prefix num_typos filter_ids exclude_token_ids curated_ids fuel q T k d t
    = Some (invs, qf, kf) ->
  Forall (fun inv =>
    (length (inv_costs inv)
       <= 10 * S (total_costs (map (fun token => TypoCost.token_costs num_typos (Z.of_nat (String.length token)))
                                   (inv_tokens inv))))%nat /\
    Forall (fun c => c <= 10)%nat (inv_combinations inv)) invs.
Proof.
  revert q T k d t invs qf kf. induction fuel as [|fuel IH]; intros q T k d t invs qf kf Hsf; [done|].
  cbn [search_field] in Hsf.
  set (tbl := map (fun token => TypoCost.token_costs num_typos (Z.of_nat (String.length token))) T) in Hsf.
  match type of Hsf with context [typo_loop ?a ?b ?c ?e ?f ?g ?h ?i ?j ?l ?m] =>
    destruct (typo_loop a b c e f g h i j l m) as [[returned st]|] eqn:Hloop; [|done] end.
  apply typo_loop_bound in Hloop as (_ & Hk & Hb); cycle 1.
  { split; unfold tbl; simpl; [by rewrite length_map|].
    apply List.Forall_forall. intros c Hc. apply in_map_iff in Hc as (tok & <- & _). apply token_costs_nonempty. }
  { unfold combination_limit; lia. }
  { constructor. }
  cbn [token_to_costs evaluated_costs length] in Hb. unfold combination_limit in Hb.
  assert (Hinv : (length (evaluated_costs st) <= 10 * S (total_costs tbl))%nat) by lia.
  destruct returned.
  { injection Hsf as Hinvs _ _; subst invs. constructor; [split; [exact Hinv|exact Hk]|constructor]. }
  match type of Hsf with context [if ?c then _ else _] => destruct c end.
  - match type of Hsf with context [search_field ?a ?b ?c ?e ?f ?g fuel ?h ?i ?j ?l ?m] =>
      destruct (search_field a b c e f g fuel h i j l m) as [[[invs' q'] k']|] eqn:Hrec; [|done] end.
    injection Hsf as Hinvs _ _; subst invs. constructor; [split; [exact Hinv|exact Hk]|]. by eapply IH.
  - injection Hsf as Hinvs _ _; subst invs. constructor; [split; [exact Hinv|exact Hk]|constructor].
Qed.

Lemma candidate_search_bounds_witness :
  search_field two_token_search false 2 None [] [] 10 ["abc"; "xyz"] ["abc"; "xyz"] 0 10 100
    = Some (match search_field two_token_search false 2 None [] [] 10 ["abc"; "xyz"] ["abc"; "xyz"] 0 10 100 with
            | Some (invs, _, _) => invs | None => [] end, ["abc"; "xyz"], 2%nat) /\
  Forall (fun inv =>
    (length (inv_costs inv)
       <= 10 * S (total_costs (map (fun token => TypoCost.token_costs 2 (Z.of_nat (String.length token)))
                                   (inv_tokens inv))))%nat /\
    Forall (fun c => c <= 10)%nat (inv_combinations inv))
    (match search_field two_token_search false 2 None [] [] 10 ["abc"; "xyz"] ["abc"; "xyz"] 0 10 100 with
     | Some (invs, _, _) => invs | None => [] end).
Proof.
  split; [vm_compute; reflexivity|].
  apply (candidate_search_bounds two_token_search false 2 None [] [] 10 ["abc"; "xyz"] ["abc"; "xyz"] 0 10 100
           _ ["abc"; "xyz"] 2%nat).
  vm_compute. reflexivity.
Defined.

(** C4: one invocation on "abc xyz" evaluates twelve cost vectors: after
    six, "abc" has no leaf at cost 2, and the enumeration restarts. *)
Lemma twelve_cost_vectors :
  option_map (fun '(invs, _, _) => map inv_costs invs)
    (search_field two_token_search false 2 None [] [] 10 ["abc"; "xyz"] ["abc"; "xyz"] 0 10 100)
  = Some [[[0; 0]; [0; 1]; [0; 2]; [1; 0]; [1; 1]; [1; 2];
           [0; 0]; [0; 1]; [0; 2]; [1; 0]; [1; 1]; [1; 2]];
          [[0]; [1]; [0]; [1]]; [[0]; [1]; [2]]].
Proof. vm_compute. reflexivity. Qed.

(** ** Wildcard search *)

Import Ingest Wildcard.

Lemma lex_ge_refl l : lex_ge l l = true.
Proof. induction l as [|x l IH]; simpl; [done|]. rewrite Z.eqb_refl, IH. apply orb_true_r. Qed.

Lemma lex_ge_total a b : lex_ge a b = true \/ lex_ge b a = true.
Proof.
  revert b; induction a as [|x a IH]; intros [|y b]; simpl; auto.
  destruct (Z.compare_spec x y) as [->|Hlt|Hgt].
  - rewrite Z.eqb_refl. destruct (IH b) as [H|H]; rewrite H; [left|right]; apply orb_true_r.
  - right. apply orb_true_iff. left. apply Z.gtb_lt. lia.
  - left. apply orb_true_iff. left. apply Z.gtb_lt. lia.
Qed.

#[local] Instance kv_ge_total : Total kv_ge.
Proof. intros x y. unfold kv_ge. apply lex_ge_total. Qed.

Lemma to_int64_id z : -2^63 <= z < 2^63 -> to_int64 z = z.
Proof.
  intros Hz. unfold to_int64.
  destruct (Z.le_gt_cases 0 z).
  - rewrite Z.mod_small by lia. destruct (z >=? 2 ^ 63) eqn:E; [|done].
    apply Z.geb_le in E. lia.
  - replace (z mod 2 ^ 64) with (z + 2 ^ 64).
    + destruct (z + 2 ^ 64 >=? 2 ^ 63) eqn:E; [lia|]. rewrite Z.geb_leb in E. apply Z.leb_gt in E. lia.
    + apply Z.mod_unique with (-1); [left|]; lia.
Qed.

(** the scores of two documents compare as the sort specification orders them *)
Lemma lex_ge_scores s ms sfs a b p :
  (forall sb id, In sb sfs -> String.eqb (sort_order sb) asc = true ->
     -2^63 < sort_value s ms sb id < 2^63) ->
  lex_ge p p = true ->
  lex_ge (map (fun sb => sort_score sb (sort_value s ms sb a)) sfs ++ p)
         (map (fun sb => sort_score sb (sort_value s ms sb b)) sfs ++ p)
  = spec_ranks_before ms s sfs a b.
Proof.
  intros Hr Hp. induction sfs as [|sb rest IH]; simpl; [done|].
  rewrite IH by (intros; apply Hr; [right|]; done).
  unfold sort_score. destruct (String.eqb (sort_order sb) asc) eqn:Ea.
  - pose proof (Hr sb a (or_introl eq_refl) Ea). pose proof (Hr sb b (or_introl eq_refl) Ea).
    rewrite !to_int64_id by lia.
    set (va := sort_value s ms sb a). set (vb := sort_value s ms sb b).
    destruct (Z.compare_spec va vb) as [E|E|E].
    + rewrite E, !Z.eqb_refl, Z.gtb_ltb, Z.ltb_irrefl. done.
    + replace (- va >? - vb) with true by (symmetry; rewrite Z.gtb_ltb; apply Z.ltb_lt; lia).
      replace (va =? vb) with false by (symmetry; apply Z.eqb_neq; lia).
      replace (va <? vb) with true by (symmetry; apply Z.ltb_lt; lia). done.
    + replace (- va >? - vb) with false by (symmetry; rewrite Z.gtb_ltb; apply Z.ltb_ge; lia).
      replace (- va =? - vb) with false by (symmetry; apply Z.eqb_neq; lia).
      replace (va =? vb) with false by (symmetry; apply Z.eqb_neq; lia).
      replace (va <? vb) with false by (symmetry; apply Z.ltb_ge; lia). done.
  - set (va := sort_value s ms sb a). set (vb := sort_value s ms sb b).
    destruct (Z.compare_spec va vb) as [E|E|E].
    + rewrite E, !Z.eqb_refl, Z.gtb_ltb, Z.ltb_irrefl. done.
    + replace (va >? vb) with false by (symmetry; rewrite Z.gtb_ltb; apply Z.ltb_ge; lia).
      replace (va =? vb) with false by (symmetry; apply Z.eqb_neq; lia). done.
    + replace (va >? vb) with true by (symmetry; rewrite Z.gtb_ltb; apply Z.ltb_lt; lia).
      replace (va =? vb) with false by (symmetry; apply Z.eqb_neq; lia). done.
Qed.

Lemma Sorted_convert {A} (R R' : relation A) (P : A -> Prop) l :
  Sorted R l -> Forall P l -> (forall x y, P x -> P y -> R x y -> R' x y) -> Sorted R' l.
Proof.
  intros Hs Hp Himp. induction Hs as [|x l Hs IH Hhd]; constructor.
  - apply IH. by apply Forall_cons in Hp as [_ ?].
  - apply Forall_cons in Hp as [Hx Hl]. destruct Hhd as [|y l' Hxy]; constructor.
    apply Himp; [done| |done]. by apply Forall_cons in Hl as [? _].
Qed.

Lemma kv_scores_of_split s sfs ms id :
  (length sfs <= 3)%nat ->
  kv_scores_of s sfs ms id =
  map (fun sb => sort_score sb (sort_value s ms sb id)) sfs ++ take (3 - length sfs) [0; 0; 0].
Proof.
  intros Hl. unfold kv_scores_of. rewrite (firstn_all2 sfs) by lia.
  rewrite firstn_app, length_map. rewrite firstn_all2 by (rewrite length_map; lia). done.
Qed.

(** C5 (amended): a wildcard query without filters, curated ids or
    excluded tokens scores exactly the documents of the sort index of the
    first non-optional sort field, each once. With at most three sort
    fields, no grouping, and no ASC sort value equal to INT64_MIN, the
    Topster of capacity [K] returns the first [K] of them in the order of
    the sort specification. *)
Theorem wildcard_ranks_all_documents match_score s sort_schema sort_fields K (kvs : gmap Z Z) :
  sort_index s !! all_records_field sort_schema = Some kvs ->
  field_values_ok s sort_fields = true ->
  (length sort_fields <= 3)%nat ->
  (forall sb id, In sb sort_fields -> String.eqb (sort_order sb) asc = true ->
     -2^63 < sort_value s match_score sb id < 2^63) ->
  exists ranked,
    wildcard_search match_score s sort_schema sort_fields K true [] [] [] = Some (take K ranked) /\
    map kv_seq_id ranked ≡ₚ (map_to_list kvs).*1 /\
    (forall id, id ∈ map kv_seq_id ranked <-> is_Some (kvs !! id)) /\
    Sorted (fun x y => spec_ranks_before match_score s sort_fields (kv_seq_id x) (kv_seq_id y) = true) ranked.
Proof.
  intros Hk Hok Hl Hr.
  unfold wildcard_search, wildcard_ids. rewrite Hk. simpl. unfold score_results. rewrite Hok. simpl.
  set (L := map (fun seq_id => mk_kv seq_id (kv_scores_of s sort_fields match_score seq_id)) ((map_to_list kvs).*1)).
  assert (HL : map kv_seq_id L = (map_to_list kvs).*1).
  { unfold L. rewrite map_map. simpl. apply map_id. }
  assert (Hperm : map kv_seq_id (merge_sort kv_ge L) ≡ₚ (map_to_list kvs).*1).
  { rewrite <- HL. apply Permutation_map. apply merge_sort_Permutation. }
  exists (merge_sort kv_ge L). split; [reflexivity|]. split; [done|]. split.
  - intros id. rewrite Hperm. rewrite list_elem_of_fmap. split.
    + intros [[i x] [-> Hin]]. apply elem_of_map_to_list in Hin. simpl. by eexists.
    + intros [x Hx]. exists (id, x). split; [done|]. by apply elem_of_map_to_list.
  - apply (Sorted_convert kv_ge _ (fun x => kv_scores x = kv_scores_of s sort_fields match_score (kv_seq_id x))).
    + apply Sorted_merge_sort. apply kv_ge_total.
    + apply Forall_forall. intros x Hx.
      rewrite (merge_sort_Permutation kv_ge L) in Hx. unfold L in Hx.
      apply list_elem_of_In, in_map_iff in Hx as (id & <- & _). done.
    + intros x y Hx Hy Hxy. unfold kv_ge in Hxy. rewrite Hx, Hy in Hxy.
      rewrite !kv_scores_of_split in Hxy by done.
      rewrite lex_ge_scores in Hxy; [exact Hxy|exact Hr|].
      apply lex_ge_refl.
Qed.

Lemma wildcard_ranks_all_documents_witness :
  exists ranked,
    wildcard_search 0 wildcard_index wildcard_schema [mk_sort_by "points" "ASC"] 2 true [] [] [] = Some (take 2 ranked) /\
    map kv_seq_id ranked ≡ₚ (map_to_list ({[ 1 := 5; 2 := 9; 3 := 7 ]} : gmap Z Z)).*1 /\
    (forall id, id ∈ map kv_seq_id ranked <-> is_Some (({[ 1 := 5; 2 := 9; 3 := 7 ]} : gmap Z Z) !! id)) /\
    Sorted (fun x y => spec_ranks_before 0 wildcard_index [mk_sort_by "points" "ASC"] (kv_seq_id x) (kv_seq_id y) = true) ranked.
Proof.
  apply wildcard_ranks_all_documents.
  - vm_compute. reflexivity.
  - vm_compute. reflexivity.
  - simpl. lia.
  - intros sb id [<-|[]] _.
    unfold sort_value. cbn [sort_name sort_index wildcard_index].
    rewrite lookup_singleton_eq. simpl.
    destruct (({[1 := 5; 2 := 9; 3 := 7]} : gmap Z Z) !! id) as [z|] eqn:E; simpl.
    + rewrite !lookup_insert_Some, lookup_singleton_Some in E.
      assert (z = 5 \/ z = 9 \/ z = 7) by naive_solver. lia.
    + lia.
Defined.

(** C5: sorted ASC on an int64 field, a document indexed with the value
    INT64_MIN comes before one with the value 0 in the sort specification, but its
    score [-INT64_MIN] wraps to INT64_MIN and the wildcard search returns it
    last. *)
Lemma wildcard_int64_min_ranked_last :
  wildcard_search 0 int64_min_index int64_schema [mk_sort_by "points" "ASC"] 10 true [] [] []
    = Some [mk_kv 2 [0; 0; 0]; mk_kv 1 [- 2 ^ 63; 0; 0]] /\
  spec_ranks_before 0 int64_min_index [mk_sort_by "points" "ASC"] 1 2 = true /\
  spec_ranks_before 0 int64_min_index [mk_sort_by "points" "ASC"] 2 1 = false.
Proof.
  split; [|split]; vm_compute; reflexivity.
Qed.

(* ================================================================= *)
(** * Further properties of the index code *)
(* ================================================================= *)

(** ** Facet hashes of integer values *)
Import Json Schema Ingest.

(** The facet value of an integer field, which [index_field] writes with
    [std::to_string], hashes to the integer itself as a uint64, which reads
    back as the int64 value. *)
Theorem facet_token_hash_integer_roundtrip hash_wy stof f z :
  is_integer f = true -> - 2 ^ 63 <= z < 2 ^ 63 ->
  facet_token_hash hash_wy stof f (int_to_string z) = to_uint64 z /\
  to_int64 (facet_token_hash hash_wy stof f (int_to_string z)) = z.
Proof.
  intros Hi Hz.
  assert (facet_token_hash hash_wy stof f (int_to_string z) = to_uint64 z) as ->.
  { unfold facet_token_hash, int_to_string.
    assert (Schema.is_float f = false) as ->.
    { unfold is_integer, is_int32, is_int64 in Hi. unfold Schema.is_float.
      destruct (type f); done. }
    rewrite Hi, atoll_pretty by done. reflexivity. }
  split; [done|].
  rewrite <- (to_int64_id z Hz) at 2. unfold to_int64, to_uint64.
  rewrite Zmod_mod. reflexivity.
Qed.

(** ** The points of a float default sorting field *)
Import FloatBits.

Lemma lxor_mod_pow2 a c k : 0 <= k -> Z.lxor a c mod 2 ^ k = Z.lxor (a mod 2 ^ k) (c mod 2 ^ k).
Proof.
  intros Hk. apply Z.bits_inj'; intros n Hn. rewrite Z.lxor_spec.
  destruct (Z.lt_ge_cases n k).
  - rewrite !Z.mod_pow2_bits_low by lia. apply Z.lxor_spec.
  - rewrite !Z.mod_pow2_bits_high by lia. done.
Qed.
Lemma lor_mod_pow2 a c k : 0 <= k -> Z.lor a c mod 2 ^ k = Z.lor (a mod 2 ^ k) (c mod 2 ^ k).
Proof.
  intros Hk. apply Z.bits_inj'; intros n Hn. rewrite Z.lor_spec.
  destruct (Z.lt_ge_cases n k).
  - rewrite !Z.mod_pow2_bits_low by lia. apply Z.lor_spec.
  - rewrite !Z.mod_pow2_bits_high by lia. done.
Qed.

(** a bitwise operation splits at bit [k]: the bits above and the bits below *)
Lemma lxor_split a c k : 0 <= k ->
  Z.lxor a c = Z.lxor (a / 2 ^ k) (c / 2 ^ k) * 2 ^ k + Z.lxor (a mod 2 ^ k) (c mod 2 ^ k).
Proof.
  intros Hk. rewrite (Z.div_mod (Z.lxor a c) (2 ^ k)) at 1 by (apply Z.pow_nonzero; lia).
  rewrite <- !Z.shiftr_div_pow2, Z.shiftr_lxor by lia. rewrite lxor_mod_pow2 by lia. lia.
Qed.
Lemma lor_split a c k : 0 <= k ->
  Z.lor a c = Z.lor (a / 2 ^ k) (c / 2 ^ k) * 2 ^ k + Z.lor (a mod 2 ^ k) (c mod 2 ^ k).
Proof.
  intros Hk. rewrite (Z.div_mod (Z.lor a c) (2 ^ k)) at 1 by (apply Z.pow_nonzero; lia).
  rewrite <- !Z.shiftr_div_pow2, Z.shiftr_lor by lia. rewrite lor_mod_pow2 by lia. lia.
Qed.

Lemma lxor_bound x y k : 0 <= k -> 0 <= x < 2 ^ k -> 0 <= y < 2 ^ k -> 0 <= Z.lxor x y < 2 ^ k.
Proof.
  intros Hk Hx Hy. rewrite <- (Z.mod_small x (2 ^ k)), <- (Z.mod_small y (2 ^ k)) by done.
  rewrite <- lxor_mod_pow2 by done. apply Z.mod_pos_bound. lia.
Qed.

(** the mask [(points >> 30) | INT32_MIN] *)
Lemma points_mask s : 0 <= s < 2 ^ 31 -> Z.lor s INT32_MIN = INT32_MIN + s.
Proof.
  intros Hs. rewrite (lor_split _ _ 31) by lia.
  rewrite (Z.div_small s) by lia. rewrite (Z.mod_small s) by lia.
  unfold INT32_MIN. rewrite Z.lor_0_l.
  replace (-2147483648 / 2 ^ 31) with (-1) by reflexivity.
  replace (-2147483648 mod 2 ^ 31) with 0 by reflexivity.
  rewrite Z.lor_0_r. lia.
Qed.

(** [x ^ s] with [s] below [2^k] only changes the low [k] bits of [x] *)
Lemma lxor_low_bits x s k : 0 <= k -> 0 <= x -> 0 <= s < 2 ^ k ->
  exists r, 0 <= r < 2 ^ k /\ Z.lxor x s = 2 ^ k * (x / 2 ^ k) + r.
Proof.
  intros Hk Hx Hs. rewrite (lxor_split _ _ k) by lia.
  rewrite (Z.div_small s), Z.lxor_0_r, (Z.mod_small s) by lia.
  exists (Z.lxor (x mod 2 ^ k) s). split; [|lia].
  apply lxor_bound; [lia| |lia]. apply Z.mod_pos_bound; lia.
Qed.

(** the float branch of [get_points_from_doc] in closed form *)
Lemma float_points_closed b : 0 <= b < 2 ^ 32 ->
  -1 * (INT32_MAX - Z.lxor b (Z.lor (Z.shiftr b (31 - 1)) INT32_MIN)) =
  if b <? 2 ^ 31 then Z.lxor b (b / 2 ^ 30) - (2 ^ 32 - 1)
  else Z.lxor (b - 2 ^ 31) (b / 2 ^ 30) - (2 ^ 32 + 2 ^ 31 - 1).
Proof.
  intros Hb. rewrite Z.shiftr_div_pow2 by lia. replace (31 - 1) with 30 by reflexivity.
  assert (2 ^ 32 = 2 ^ 30 * 4) by reflexivity. assert (2 ^ 31 = 2 ^ 30 * 2) by reflexivity.
  assert (Hs : 0 <= b / 2 ^ 30 < 4).
  { split; [apply Z.div_pos; lia|apply Z.div_lt_upper_bound; lia]. }
  rewrite points_mask by lia.
  rewrite (lxor_split _ _ 31) by lia.
  replace ((INT32_MIN + b / 2 ^ 30) / 2 ^ 31) with (-1)
    by (unfold INT32_MIN; apply Z.div_unique with (b / 2 ^ 30); lia).
  replace ((INT32_MIN + b / 2 ^ 30) mod 2 ^ 31) with (b / 2 ^ 30)
    by (unfold INT32_MIN; apply Z.mod_unique with (-1); lia).
  rewrite Z.lxor_m1_r. unfold Z.lnot, INT32_MAX.
  destruct (Z.ltb_spec b (2 ^ 31)).
  - rewrite (Z.div_small b), (Z.mod_small b) by lia. lia.
  - replace (b / 2 ^ 31) with 1 by (apply Z.div_unique with (b - 2 ^ 31); lia).
    replace (b mod 2 ^ 31) with (b - 2 ^ 31) by (apply Z.mod_unique with 1; lia). lia.
Qed.

Lemma get_points_float j2f d2i d k b :
  k <> "" -> is_number_float (field_value d k) = true -> j2f (field_value d k) = b -> is_bits32 b ->
  get_points_from_doc j2f d2i d k =
  Ok (if b <? 2 ^ 31 then Z.lxor b (b / 2 ^ 30) - (2 ^ 32 - 1)
      else Z.lxor (b - 2 ^ 31) (b / 2 ^ 30) - (2 ^ 32 + 2 ^ 31 - 1)).
Proof.
  intros Hk Hf Hb Hbits. unfold get_points_from_doc.
  replace (String.eqb k "") with false by (symmetry; apply String.eqb_neq; done).
  rewrite Hf, Hb, float_points_closed by exact Hbits. done.
Qed.

Lemma float_to_in64_t_nonneg_bits b : 0 <= b < 2 ^ 31 -> float_to_in64_t b = b.
Proof.
  intros Hb. unfold float_to_in64_t, bits_as_int32.
  replace (b >=? 2 ^ 31) with false by (symmetry; rewrite Z.geb_leb; apply Z.leb_gt; lia).
  replace (b <? 0) with false by (symmetry; apply Z.ltb_ge; lia). done.
Qed.

Lemma float_to_in64_t_neg_bits b : 2 ^ 31 <= b < 2 ^ 32 -> float_to_in64_t b = -1 - (b - 2 ^ 31).
Proof.
  intros Hb. unfold float_to_in64_t, bits_as_int32.
  replace (b >=? 2 ^ 31) with true by (symmetry; rewrite Z.geb_leb; apply Z.leb_le; lia).
  replace (b - 2 ^ 32 <? 0) with true by (symmetry; apply Z.ltb_lt; lia).
  replace (b - 2 ^ 32) with (INT32_MIN + (b - 2 ^ 31)) by (unfold INT32_MIN; lia).
  apply lxor_negative_int32. lia.
Qed.

Lemma ext_lt_or_le x y : ext_lt x y \/ ext_le y x.
Proof.
  unfold ext_le. destruct x as [|a|], y as [|c|]; simpl; auto.
  destruct (Z.lt_trichotomy a c) as [H|[->|H]]; auto.
Qed.

(** a negative float in the default sorting field always gets fewer points
    than a non-negative one. *)
Theorem float_points_negative_below j2f d2i d1 d2 k b1 b2 :
  k <> "" ->
  is_number_float (field_value d1 k) = true -> is_number_float (field_value d2 k) = true ->
  j2f (field_value d1 k) = b1 -> j2f (field_value d2 k) = b2 -> is_bits32 b1 -> is_bits32 b2 ->
  f_sign b1 = true -> f_sign b2 = false ->
  exists p1 p2, get_points_from_doc j2f d2i d1 k = Ok p1 /\
                get_points_from_doc j2f d2i d2 k = Ok p2 /\ p1 < p2.
Proof.
  intros Hk Hf1 Hf2 Hb1 Hb2 Hbits1 Hbits2 Hs1 Hs2.
  unfold f_sign, is_bits32 in *. apply Z.geb_le in Hs1. rewrite Z.geb_leb, Z.leb_gt in Hs2.
  do 2 eexists. split; [apply (get_points_float _ _ _ _ _ Hk Hf1 Hb1 Hbits1)|].
  split; [apply (get_points_float _ _ _ _ _ Hk Hf2 Hb2 Hbits2)|].
  replace (b1 <? 2 ^ 31) with false by (symmetry; apply Z.ltb_ge; lia).
  replace (b2 <? 2 ^ 31) with true by (symmetry; apply Z.ltb_lt; lia).
  assert (0 <= b1 / 2 ^ 30 < 4) by (split; [apply Z.div_pos|apply Z.div_lt_upper_bound]; lia).
  assert (0 <= b2 / 2 ^ 30 < 4) by (split; [apply Z.div_pos|apply Z.div_lt_upper_bound]; lia).
  pose proof (lxor_bound (b1 - 2 ^ 31) (b1 / 2 ^ 30) 31 ltac:(lia) ltac:(lia) ltac:(lia)).
  pose proof (lxor_bound b2 (b2 / 2 ^ 30) 31 ltac:(lia) ltac:(lia) ltac:(lia)).
  lia.
Qed.

Ltac points_unfold Hk :=
  match goal with
  | Hf : is_number_float (field_value ?d ?k) = true, Hb : ?j (field_value ?d ?k) = ?b,
    Hbits : is_bits32 ?b |- context [get_points_from_doc ?j ?i ?d ?k] =>
      rewrite (get_points_float j i d k b Hk Hf Hb Hbits)
  end.

(** among non-negative floats the points follow the float order, except
    between two floats whose patterns differ only in the last bit. *)
Theorem float_points_nonneg_order j2f d2i d1 d2 k b1 b2 :
  k <> "" ->
  is_number_float (field_value d1 k) = true -> is_number_float (field_value d2 k) = true ->
  j2f (field_value d1 k) = b1 -> j2f (field_value d2 k) = b2 -> is_bits32 b1 -> is_bits32 b2 ->
  is_nan b1 = false -> is_nan b2 = false -> f_sign b1 = false -> f_sign b2 = false ->
  ext_lt (value b1) (value b2) -> b1 / 2 <> b2 / 2 ->
  exists p1 p2, get_points_from_doc j2f d2i d1 k = Ok p1 /\
                get_points_from_doc j2f d2i d2 k = Ok p2 /\ p1 < p2.
Proof.
  intros Hk Hf1 Hf2 Hb1 Hb2 Hbits1 Hbits2 Hn1 Hn2 Hs1 Hs2 Hlt Hhalf.
  destruct (float_to_in64_t_monotone b1 b2 Hbits1 Hbits2 Hn1 Hn2) as [Hmono _].
  specialize (Hmono Hlt).
  pose proof Hbits1 as Hr1'. pose proof Hbits2 as Hr2'. unfold is_bits32 in Hr1', Hr2'.
  unfold f_sign in *. rewrite Z.geb_leb, Z.leb_gt in Hs1, Hs2.
  rewrite !float_to_in64_t_nonneg_bits in Hmono by lia.
  do 2 eexists. split; [points_unfold Hk; reflexivity|]. split; [points_unfold Hk; reflexivity|].
  replace (b1 <? 2 ^ 31) with true by (symmetry; apply Z.ltb_lt; lia).
  replace (b2 <? 2 ^ 31) with true by (symmetry; apply Z.ltb_lt; lia).
  assert (0 <= b1 / 2 ^ 30 < 2) by (split; [apply Z.div_pos|apply Z.div_lt_upper_bound]; lia).
  assert (0 <= b2 / 2 ^ 30 < 2) by (split; [apply Z.div_pos|apply Z.div_lt_upper_bound]; lia).
  destruct (lxor_low_bits b1 (b1 / 2 ^ 30) 1 ltac:(lia) ltac:(lia) ltac:(simpl; lia)) as (r1 & Hr1 & ->).
  destruct (lxor_low_bits b2 (b2 / 2 ^ 30) 1 ltac:(lia) ltac:(lia) ltac:(simpl; lia)) as (r2 & Hr2 & ->).
  change (2 ^ 1) with 2 in *.
  assert (b1 / 2 <= b2 / 2) by (apply Z.div_le_mono; lia).
  lia.
Qed.

(** from 2.0 up, a float with an even pattern gets more points than the
    next float. *)
Theorem float_points_adjacent_swap j2f d2i d1 d2 k b :
  k <> "" ->
  is_number_float (field_value d1 k) = true -> is_number_float (field_value d2 k) = true ->
  j2f (field_value d1 k) = b -> j2f (field_value d2 k) = b + 1 ->
  2 ^ 30 <= b -> b + 1 < 2 ^ 31 -> Z.even b = true ->
  is_nan b = false -> is_nan (b + 1) = false ->
  ext_lt (value b) (value (b + 1)) /\
  exists p1 p2, get_points_from_doc j2f d2i d1 k = Ok p1 /\
                get_points_from_doc j2f d2i d2 k = Ok p2 /\ p2 < p1.
Proof.
  intros Hk Hf1 Hf2 Hb1 Hb2 Hlo Hhi Hev Hn1 Hn2.
  assert (Hbits1 : is_bits32 b) by (unfold is_bits32; lia).
  assert (Hbits2 : is_bits32 (b + 1)) by (unfold is_bits32; lia).
  split.
  - destruct (ext_lt_or_le (value b) (value (b + 1))) as [|Hle]; [done|].
    destruct (float_to_in64_t_monotone (b + 1) b Hbits2 Hbits1 Hn2 Hn1) as [_ Hmono].
    destruct (Hmono Hle) as [Hm|[Hz _]]; [|unfold pos_zero in Hz; lia].
    rewrite !float_to_in64_t_nonneg_bits in Hm by lia. lia.
  - do 2 eexists. split; [points_unfold Hk; reflexivity|]. split; [points_unfold Hk; reflexivity|].
    replace (b <? 2 ^ 31) with true by (symmetry; apply Z.ltb_lt; lia).
    replace (b + 1 <? 2 ^ 31) with true by (symmetry; apply Z.ltb_lt; lia).
    replace (b / 2 ^ 30) with 1 by (apply Z.div_unique with (b - 2 ^ 30); lia).
    replace ((b + 1) / 2 ^ 30) with 1 by (apply Z.div_unique with (b + 1 - 2 ^ 30); lia).
    apply Z.even_spec in Hev as [h ->].
    rewrite (lxor_split (2 * h) 1 1), (lxor_split (2 * h + 1) 1 1) by lia.
    replace (2 * h / 2 ^ 1) with h by (apply Z.div_unique with 0; simpl; lia).
    replace ((2 * h + 1) / 2 ^ 1) with h by (apply Z.div_unique with 1; simpl; lia).
    replace (2 * h mod 2 ^ 1) with 0 by (apply Z.mod_unique with h; simpl; lia).
    replace ((2 * h + 1) mod 2 ^ 1) with 1 by (apply Z.mod_unique with h; simpl; lia).
    simpl. rewrite Z.lxor_0_r. replace (Z.lxor 1 (1 mod 2 ^ 1)) with 0 by reflexivity.
    replace (Z.lxor 0 (1 mod 2 ^ 1)) with 1 by reflexivity. change (2 ^ 1) with 2. lia.
Qed.

(** among negative floats the order of the points is reversed: the
    smaller float gets more points, unless the two patterns differ only in
    their two lowest bits. *)
Theorem float_points_negative_reversed j2f d2i d1 d2 k b1 b2 :
  k <> "" ->
  is_number_float (field_value d1 k) = true -> is_number_float (field_value d2 k) = true ->
  j2f (field_value d1 k) = b1 -> j2f (field_value d2 k) = b2 -> is_bits32 b1 -> is_bits32 b2 ->
  is_nan b1 = false -> is_nan b2 = false -> f_sign b1 = true -> f_sign b2 = true ->
  ext_lt (value b1) (value b2) -> b1 / 4 <> b2 / 4 ->
  exists p1 p2, get_points_from_doc j2f d2i d1 k = Ok p1 /\
                get_points_from_doc j2f d2i d2 k = Ok p2 /\ p2 < p1.
Proof.
  intros Hk Hf1 Hf2 Hb1 Hb2 Hbits1 Hbits2 Hn1 Hn2 Hs1 Hs2 Hlt Hq.
  destruct (float_to_in64_t_monotone b1 b2 Hbits1 Hbits2 Hn1 Hn2) as [Hmono _].
  specialize (Hmono Hlt).
  pose proof Hbits1 as Hr1'. pose proof Hbits2 as Hr2'. unfold is_bits32 in Hr1', Hr2'.
  unfold f_sign in *. apply Z.geb_le in Hs1, Hs2.
  rewrite !float_to_in64_t_neg_bits in Hmono by lia.
  do 2 eexists. split; [points_unfold Hk; reflexivity|]. split; [points_unfold Hk; reflexivity|].
  replace (b1 <? 2 ^ 31) with false by (symmetry; apply Z.ltb_ge; lia).
  replace (b2 <? 2 ^ 31) with false by (symmetry; apply Z.ltb_ge; lia).
  assert (0 <= b1 / 2 ^ 30 < 4) by (split; [apply Z.div_pos|apply Z.div_lt_upper_bound]; lia).
  assert (0 <= b2 / 2 ^ 30 < 4) by (split; [apply Z.div_pos|apply Z.div_lt_upper_bound]; lia).
  destruct (lxor_low_bits (b1 - 2 ^ 31) (b1 / 2 ^ 30) 2 ltac:(lia) ltac:(lia) ltac:(simpl; lia))
    as (r1 & Hr1 & ->).
  destruct (lxor_low_bits (b2 - 2 ^ 31) (b2 / 2 ^ 30) 2 ltac:(lia) ltac:(lia) ltac:(simpl; lia))
    as (r2 & Hr2 & ->).
  change (2 ^ 2) with 4 in *.
  replace ((b1 - 2 ^ 31) / 4) with (b1 / 4 - 2 ^ 29).
  2:{ replace (b1 - 2 ^ 31) with (b1 + (- 2 ^ 29) * 4) by lia. rewrite Z.div_add by lia. lia. }
  replace ((b2 - 2 ^ 31) / 4) with (b2 / 4 - 2 ^ 29).
  2:{ replace (b2 - 2 ^ 31) with (b2 + (- 2 ^ 29) * 4) by lia. rewrite Z.div_add by lia. lia. }
  assert (b2 / 4 <= b1 / 4) by (apply Z.div_le_mono; lia).
  lia.
Qed.

(** ** Removing a document from a posting container *)
Import Leaf.

Lemma at_drop l i : drop i l = match l !! i with Some x => at_ l i :: drop (S i) l | None => [] end.
Proof.
  unfold at_. revert l; induction i as [|i IH]; intros [|x l]; simpl; auto.
Qed.

Lemma shift_loop_tail fuel oi indices curr counter shift acc :
  (length indices <= counter)%nat -> (length oi - curr <= fuel)%nat ->
  shift_loop fuel oi indices curr counter shift acc =
  acc ++ map (fun x => to_uint32 (x - shift)) (drop curr oi).
Proof.
  revert curr acc. induction fuel as [|fuel IH]; intros curr acc Hc Hf; simpl.
  - rewrite drop_ge by lia. simpl. rewrite app_nil_r. done.
  - destruct (curr <? length oi)%nat eqn:E.
    + apply Nat.ltb_lt in E.
      replace ((counter <? length indices)%nat) with false by (symmetry; apply Nat.ltb_ge; lia).
      simpl. rewrite IH by lia. rewrite (at_drop oi curr).
      destruct (oi !! curr) eqn:El; [|apply lookup_ge_None in El; lia].
      simpl. rewrite <- app_assoc. done.
    + apply Nat.ltb_ge in E. rewrite drop_ge by lia. simpl. rewrite app_nil_r. done.
Qed.

Lemma shift_loop_single fuel oi d curr acc :
  (curr <= d)%nat -> (d < length oi)%nat -> (length oi - curr + 1 <= fuel)%nat ->
  shift_loop fuel oi [Z.of_nat d] curr 0 0 acc =
  acc ++ map (fun x => to_uint32 (x - 0)) (take (d - curr) (drop curr oi)) ++
  map (fun x => to_uint32 (x - to_uint32 (0 + (if (S d =? length oi)%nat then 0
                         else to_uint32 (at_ oi (S d) - at_ oi d)))))
      (drop (S d) oi).
Proof.
  revert curr acc. induction fuel as [|fuel IH]; intros curr acc Hc Hd Hf; [lia|].
  simpl. replace ((curr <? length oi)%nat) with true by (symmetry; apply Nat.ltb_lt; lia).
  unfold at_ at 1 2. simpl nth.
  destruct (decide (curr = d)) as [->|Hne].
  - replace (Z.of_nat d >=? Z.of_nat d) with true by (symmetry; apply Z.geb_le; lia).
    rewrite Z.eqb_refl. simpl.
    rewrite shift_loop_tail by (simpl; lia). rewrite Nat.sub_diag. simpl.
    replace (d - 0)%nat with d by lia. done.
  - replace (Z.of_nat curr >=? Z.of_nat d) with false.
    2:{ symmetry. rewrite Z.geb_leb. apply Z.leb_gt. lia. }
    simpl. rewrite IH by lia. rewrite <- !app_assoc. f_equal.
    rewrite (at_drop oi curr). destruct (oi !! curr) eqn:El; [|apply lookup_ge_None in El; lia].
    replace (d - curr)%nat with (S (d - S curr)) by lia. simpl. done.
Qed.

Lemma to_uint32_id x : 0 <= x < 2 ^ 32 -> to_uint32 x = x.
Proof. intros. unfold to_uint32. apply Z.mod_small. done. Qed.

Lemma at_lookup l i : (i < length l)%nat -> l !! i = Some (at_ l i).
Proof.
  intros H. unfold at_. destruct (nth_lookup_or_length l i 0) as [E|E]; [done|lia].
Qed.

(** [remove_and_shift_offset_index] with the single index [d] of a
    nondecreasing uint32 offset index drops entry [d] and lowers every later
    entry by the length of the removed slice, [oi[d+1] - oi[d]] (nothing when
    [d] is the last entry). *)
Lemma remove_and_shift_single oi d :
  Forall (fun x => 0 <= x < 2 ^ 32) oi -> nondecreasing oi -> (d < length oi)%nat ->
  remove_and_shift_offset_index oi [Z.of_nat d] =
  take d oi ++ map (fun x => x - (if (S d =? length oi)%nat then 0 else at_ oi (S d) - at_ oi d))
                   (drop (S d) oi).
Proof.
  intros Hr Hs Hd. unfold remove_and_shift_offset_index.
  rewrite shift_loop_single by (simpl; lia). rewrite Nat.sub_0_r, drop_0, app_nil_l. f_equal.
  - rewrite <- (map_id (take d oi)) at 2. apply map_ext_in. intros x Hx.
    rewrite Z.sub_0_r. apply to_uint32_id.
    rewrite Forall_forall in Hr. apply Hr. apply list_elem_of_In in Hx.
    apply elem_of_take in Hx as [i [Hi _]]. eapply list_elem_of_lookup_2; eauto.
  - apply map_ext_in. intros x Hx. apply list_elem_of_In, list_elem_of_lookup in Hx as [j Hj].
    rewrite lookup_drop in Hj.
    assert (Hl : (S d + j < length oi)%nat) by (apply lookup_lt_Some in Hj; done).
    assert (x = at_ oi (S d + j)) as ->.
    { rewrite at_lookup in Hj by done. congruence. }
    assert (Hb : forall i, (i < length oi)%nat -> 0 <= at_ oi i < 2 ^ 32).
    { intros i Hi. rewrite Forall_lookup in Hr. apply (Hr i). apply at_lookup. done. }
    destruct (S d =? length oi)%nat eqn:E.
    + apply Nat.eqb_eq in E. lia.
    + apply Nat.eqb_neq in E.
      pose proof (Hs d (S d) ltac:(lia) ltac:(lia)).
      pose proof (Hs (S d) (S d + j)%nat ltac:(lia) ltac:(lia)).
      pose proof (Hb d ltac:(lia)). pose proof (Hb (S d) ltac:(lia)). pose proof (Hb (S d + j)%nat Hl).
      replace (S d - 1)%nat with d by lia.
      rewrite Z.add_0_l, !(to_uint32_id (at_ oi (S d) - at_ oi d)) by lia.
      apply to_uint32_id. lia.
Qed.

Lemma index_of_le l v : (index_of l v <= length l)%nat.
Proof. induction l as [|x l IH]; simpl; [lia|]. destruct (x =? v); lia. Qed.

Lemma index_of_lookup l v : (index_of l v < length l)%nat -> l !! index_of l v = Some v.
Proof.
  induction l as [|x l IH]; simpl; [lia|]. destruct (x =? v) eqn:E.
  - apply Z.eqb_eq in E. subst. done.
  - intros H. simpl. apply IH. lia.
Qed.

Lemma index_of_absent l v : index_of l v = length l -> forall i x, l !! i = Some x -> x <> v.
Proof.
  induction l as [|y l IH]; simpl; intros E i x Hi; [done|].
  destruct (y =? v) eqn:Ey; [discriminate|]. destruct i as [|i]; simpl in Hi.
  - injection Hi as <-. apply Z.eqb_neq. done.
  - eapply IH; [lia|exact Hi].
Qed.

Lemma filter_id {A} (f : A -> bool) l : (forall x, In x l -> f x = true) -> List.filter f l = l.
Proof.
  induction l as [|x l IH]; simpl; intros H; [done|].
  rewrite H by auto. f_equal. apply IH. auto.
Qed.

Lemma filter_remove_at {A} (f : A -> bool) l d x : l !! d = Some x -> f x = false ->
  (forall i y, l !! i = Some y -> i <> d -> f y = true) ->
  List.filter f l = take d l ++ drop (S d) l.
Proof.
  intros Hd Hx Hother. rewrite <- (take_drop_middle l d x Hd) at 1.
  rewrite List.filter_app. simpl. rewrite Hx. f_equal.
  - apply filter_id. intros y Hy. apply list_elem_of_In, list_elem_of_lookup in Hy as [i Hi].
    pose proof (lookup_lt_Some _ _ _ Hi) as Hl. rewrite length_take in Hl.
    rewrite lookup_take_lt in Hi by lia. eapply Hother; [exact Hi|lia].
  - apply filter_id. intros y Hy. apply list_elem_of_In, list_elem_of_lookup in Hy as [i Hi].
    rewrite lookup_drop in Hi. eapply Hother; [exact Hi|lia].
Qed.

Lemma remove_value_at l d v : NoDup l -> l !! d = Some v -> remove_value l v = take d l ++ drop (S d) l.
Proof.
  intros Hnd Hd. unfold remove_value. eapply filter_remove_at; [exact Hd| |].
  - rewrite Z.eqb_refl. done.
  - intros i y Hi Hne. apply negb_true_iff, Z.eqb_neq. intros ->.
    apply Hne. eapply NoDup_lookup; eauto.
Qed.

Lemma at_remove_index l s e k : (s <= e <= length l)%nat ->
  at_ (remove_index l s e) k = if (k <? s)%nat then at_ l k else at_ l (k + (e - s)).
Proof.
  intros H. unfold remove_index, at_. rewrite !nth_lookup.
  destruct (Nat.ltb_spec k s).
  - rewrite lookup_app_l by (rewrite length_take; lia). rewrite lookup_take_lt by lia. done.
  - rewrite lookup_app_r by (rewrite length_take; lia). rewrite length_take, lookup_drop.
    rewrite Nat.min_l by lia. f_equal. f_equal. lia.
Qed.

Lemma at_shifted oi d h k : (d < length oi)%nat ->
  at_ (take d oi ++ map h (drop (S d) oi)) k =
  if (k <? d)%nat then at_ oi k else if (S k <? length oi)%nat then h (at_ oi (S k)) else 0.
Proof.
  intros H. unfold at_. rewrite !nth_lookup.
  destruct (Nat.ltb_spec k d).
  - rewrite lookup_app_l by (rewrite length_take; lia). rewrite lookup_take_lt by lia. done.
  - rewrite lookup_app_r by (rewrite length_take; lia). rewrite length_take.
    rewrite Nat.min_l by lia. rewrite list_lookup_fmap, lookup_drop.
    destruct (Nat.ltb_spec (S k) (length oi)).
    + destruct (nth_lookup_or_length oi (S k) 0) as [E|E]; [|lia].
      replace (S d + (k - d))%nat with (S k) by lia. rewrite E. simpl.
      done.
    + rewrite (lookup_ge_None_2 oi); [done|lia].
Qed.

Lemma map_seq_shift (f g : nat -> Z) a m c : (forall k, (a <= k < a + m)%nat -> f k = g (k + c)%nat) ->
  map f (seq a m) = map g (seq (a + c) m).
Proof.
  revert a. induction m as [|m IH]; intros a H; simpl; [done|].
  f_equal; [apply H; lia|]. replace (S (a + c)) with (S a + c)%nat by lia. apply IH. intros. apply H. lia.
Qed.

Lemma length_remove_at {A} (l : list A) d : (d < length l)%nat -> length (take d l ++ drop (S d) l) = (length l - 1)%nat.
Proof. intros. rewrite length_app, length_take, length_drop. lia. Qed.

Lemma slice_shift (f g : nat -> Z) s1 e1 s2 e2 (c : nat) :
  0 <= s1 -> 0 <= e1 -> s2 = s1 + Z.of_nat c -> e2 = e1 + Z.of_nat c ->
  (forall k, (Z.to_nat s1 <= k < Z.to_nat e1)%nat -> f k = g (k + c)%nat) ->
  map f (seq (Z.to_nat s1) (Z.to_nat e1 - Z.to_nat s1)) = map g (seq (Z.to_nat s2) (Z.to_nat e2 - Z.to_nat s2)).
Proof.
  intros H1 H2 -> -> H. replace (Z.to_nat (e1 + Z.of_nat c) - Z.to_nat (s1 + Z.of_nat c))%nat
    with (Z.to_nat e1 - Z.to_nat s1)%nat by lia.
  replace (Z.to_nat (s1 + Z.of_nat c)) with (Z.to_nat s1 + c)%nat by lia.
  apply map_seq_shift. intros k Hk. apply H. lia.
Qed.

(** Removing a document from a well-formed leaf ([Index::remove]) takes
    exactly its posting out: every other document keeps its id, its order
    and the offsets read for it.  A document the leaf does not hold leaves
    it unchanged. *)
Theorem remove_doc_postings v seq_id : wf_values v ->
  postings (remove_doc v seq_id) = List.filter (fun p => negb (p.1 =? seq_id)) (postings v).
Proof.
  intros [Hnd Hlen Hs Hnn Hlast Hu].
  unfold remove_doc. set (d := index_of (ids v) seq_id).
  destruct (Nat.eqb_spec d (length (ids v))) as [E|E].
  - symmetry. apply filter_id. intros p Hp.
    apply list_elem_of_In, list_elem_of_lookup in Hp as [i Hi].
    unfold postings in Hi. rewrite list_lookup_imap in Hi.
    destruct (ids v !! i) eqn:Ei; simpl in Hi; [|discriminate]. injection Hi as <-. simpl.
    apply negb_true_iff, Z.eqb_neq. eapply index_of_absent; eauto.
  - assert (Hd : (d < length (ids v))%nat) by (pose proof (index_of_le (ids v) seq_id); lia).
    assert (Hl : ids v !! d = Some seq_id) by (apply index_of_lookup; done).
    clearbody d. clear E.
    destruct v as [ids oi offs]; simpl in *.
    set (n := length ids) in *. set (L := length offs) in *.
    assert (Hb : forall k, (k < n)%nat -> 0 <= at_ oi k <= Z.of_nat L).
    { intros k Hk. split; [|apply Hlast; lia].
      rewrite Forall_lookup in Hnn. apply (Hnn k). apply at_lookup. lia. }
    rewrite remove_and_shift_single.
    2:{ apply Forall_lookup. intros k x Hk. pose proof (lookup_lt_Some _ _ _ Hk).
        rewrite at_lookup in Hk by lia. injection Hk as <-. pose proof (Hb k). lia. }
    2: done. 2: lia.
    rewrite (remove_value_at ids d seq_id) by done.
    rewrite (filter_remove_at _ _ d (seq_id, doc_offsets (mk_values ids oi offs) d)).
    2:{ unfold postings. simpl. rewrite list_lookup_imap, Hl. done. }
    2:{ simpl. rewrite Z.eqb_refl. done. }
    2:{ intros i y Hi Hne. unfold postings in Hi. simpl in Hi. rewrite list_lookup_imap in Hi.
        destruct (ids !! i) eqn:Ei; simpl in Hi; [|discriminate]. injection Hi as <-. simpl.
        apply negb_true_iff, Z.eqb_neq. intros ->. apply Hne. eapply NoDup_lookup; eauto. }
    set (S0 := at_ oi d). set (E0 := if (d =? n - 1)%nat then Z.of_nat L else at_ oi (S d)).
    set (diff := if (S d =? length oi)%nat then 0 else at_ oi (S d) - at_ oi d).
    set (v' := mk_values (take d ids ++ drop (S d) ids) (take d oi ++ map (fun x => x - diff) (drop (S d) oi))
                         (remove_index offs (Z.to_nat S0) (Z.to_nat E0))).
    assert (Hmono : forall i j, (i <= j)%nat -> (j < n)%nat -> at_ oi i <= at_ oi j) by (intros; apply Hs; lia).
    assert (HS0 : 0 <= S0 <= Z.of_nat L) by (apply Hb; lia).
    assert (HE0 : S0 <= E0 <= Z.of_nat L).
    { unfold E0. destruct (Nat.eqb_spec d (n - 1)); [lia|].
      split; [apply Hmono; lia|apply Hb; lia]. }
    assert (Hoffs : forall k, at_ (remove_index offs (Z.to_nat S0) (Z.to_nat E0)) k =
              if (k <? Z.to_nat S0)%nat then at_ offs k else at_ offs (k + (Z.to_nat E0 - Z.to_nat S0))).
    { intros k. apply at_remove_index. lia. }
    assert (HL' : length (offsets v') = (Z.to_nat S0 + (L - Z.to_nat E0))%nat).
    { simpl. unfold remove_index. rewrite length_app, length_take, length_drop. lia. }
    assert (Hkey : forall i, (i < n - 1)%nat ->
              doc_offsets v' i = doc_offsets (mk_values ids oi offs) (if decide (i < d)%nat then i else S i)).
    { intros i Hi. unfold doc_offsets, offset_bounds.
      replace (length (Leaf.ids v')) with (n - 1)%nat by (simpl; rewrite length_remove_at; lia).
      rewrite HL'. cbn [Leaf.ids Leaf.offsets Leaf.offset_index v'].
      rewrite !at_shifted by lia. fold n L. rewrite Hlen.
      destruct (decide (i < d)%nat) as [Hid|Hid].
      - replace (i <? d)%nat with true by (symmetry; apply Nat.ltb_lt; lia).
        replace (i =? n - 1)%nat with false by (symmetry; apply Nat.eqb_neq; lia).
        destruct (Nat.ltb_spec (S i) d).
        + replace (i =? n - 1 - 1)%nat with false by (symmetry; apply Nat.eqb_neq; lia).
          symmetry. apply (slice_shift _ _ _ _ _ _ 0); [apply Hb; lia|apply Hb; lia|lia|lia|].
          intros k Hk. rewrite Nat.add_0_r.
          rewrite Hoffs. replace (k <? Z.to_nat S0)%nat with true; [done|].
          symmetry. apply Nat.ltb_lt. pose proof (Hmono (S i) d ltac:(lia) ltac:(lia)). unfold S0. lia.
        + assert (S i = d) as <- by lia.
          symmetry. apply (slice_shift _ _ _ _ _ _ 0); [apply Hb; lia|apply Hb; lia|lia| |].
          * destruct (Nat.eqb_spec i (n - 1 - 1)).
            -- unfold E0. replace (S i =? n - 1)%nat with true by (symmetry; apply Nat.eqb_eq; lia).
               fold S0. lia.
            -- replace (S i <? S i)%nat with false by (symmetry; apply Nat.ltb_ge; lia).
               replace (S (S i) <? n)%nat with true by (symmetry; apply Nat.ltb_lt; lia).
               unfold diff. rewrite Hlen. replace (S (S i) =? n)%nat with false by (symmetry; apply Nat.eqb_neq; lia).
               fold S0. lia.
          * intros k Hk. rewrite Nat.add_0_r.
            rewrite Hoffs. replace (k <? Z.to_nat S0)%nat with true; [done|].
            symmetry. apply Nat.ltb_lt. fold S0 in Hk. lia.
      - assert (Hdn : (d <> n - 1)%nat) by lia.
        assert (Hdiff : diff = E0 - S0).
        { unfold diff, E0. rewrite Hlen.
          replace (S d =? n)%nat with false by (symmetry; apply Nat.eqb_neq; lia).
          replace (d =? n - 1)%nat with false by (symmetry; apply Nat.eqb_neq; lia). done. }
        assert (HE0' : E0 = at_ oi (S d)).
        { unfold E0. replace (d =? n - 1)%nat with false by (symmetry; apply Nat.eqb_neq; lia). done. }
        replace (i <? d)%nat with false by (symmetry; apply Nat.ltb_ge; lia).
        replace (S i <? n)%nat with true by (symmetry; apply Nat.ltb_lt; lia).
        pose proof (Hmono (S d) (S i) ltac:(lia) ltac:(lia)).
        apply (slice_shift _ _ _ _ _ _ (Z.to_nat E0 - Z.to_nat S0)).
        + lia.
        + destruct (Nat.eqb_spec i (n - 1 - 1)); [lia|].
          replace (S i <? d)%nat with false by (symmetry; apply Nat.ltb_ge; lia).
          replace (S (S i) <? n)%nat with true by (symmetry; apply Nat.ltb_lt; lia).
          pose proof (Hmono (S i) (S (S i)) ltac:(lia) ltac:(lia)). lia.
        + lia.
        + destruct (Nat.eqb_spec i (n - 1 - 1)).
          * replace (S i =? n - 1)%nat with true by (symmetry; apply Nat.eqb_eq; lia). lia.
          * replace (S i =? n - 1)%nat with false by (symmetry; apply Nat.eqb_neq; lia).
            replace (S i <? d)%nat with false by (symmetry; apply Nat.ltb_ge; lia).
            replace (S (S i) <? n)%nat with true by (symmetry; apply Nat.ltb_lt; lia). lia.
        + intros k Hk.
          rewrite Hoffs. replace (k <? Z.to_nat S0)%nat with false; [done|].
          symmetry. apply Nat.ltb_ge. lia. }
    change (postings v' = take d (postings (mk_values ids oi offs)) ++ drop (S d) (postings (mk_values ids oi offs))).
    assert (HP : length (postings (mk_values ids oi offs)) = n) by (unfold postings; rewrite length_imap; done).
    apply list_eq. intros i. unfold postings at 1. rewrite list_lookup_imap. cbn [v' Leaf.ids].
    destruct (decide (i < d)%nat) as [Hid|Hid].
    + rewrite lookup_app_l, lookup_take_lt by (rewrite ?length_take; lia).
      rewrite lookup_app_l, lookup_take_lt by (rewrite ?length_take; lia).
      unfold postings. rewrite list_lookup_imap. cbn [Leaf.ids].
      destruct (ids !! i) eqn:Ei; [|done]. simpl. rewrite Hkey by lia. rewrite decide_True by done. done.
    + rewrite lookup_app_r by (rewrite ?length_take; lia).
      rewrite lookup_app_r by (rewrite ?length_take; lia).
      rewrite !length_take, !lookup_drop. rewrite Nat.min_l by lia. rewrite Nat.min_l by lia.
      replace (S d + (i - d))%nat with (S i) by lia.
      unfold postings. rewrite list_lookup_imap. cbn [Leaf.ids].
      destruct (ids !! S i) eqn:Ei; [|done]. simpl. apply lookup_lt_Some in Ei.
      rewrite Hkey by lia. rewrite decide_False by done. done.
Qed.

(** Removing a document keeps the posting container well formed: unique ids,
    one offset-index entry per id, slices in order within [offsets]. *)
Theorem remove_doc_wf v seq_id : wf_values v -> wf_values (remove_doc v seq_id).
Proof.
  intros Hwf. pose proof Hwf as [Hnd Hlen Hs Hnn Hlast Hu].
  unfold remove_doc. set (d := index_of (ids v) seq_id).
  destruct (Nat.eqb_spec d (length (ids v))) as [E|E]; [done|].
  assert (Hd : (d < length (ids v))%nat) by (pose proof (index_of_le (ids v) seq_id); lia).
  assert (Hl : ids v !! d = Some seq_id) by (apply index_of_lookup; done).
  clearbody d. clear E Hwf.
  destruct v as [ids oi offs]; simpl in *.
  set (n := length ids) in *. set (L := length offs) in *.
  assert (Hb : forall k, (k < n)%nat -> 0 <= at_ oi k <= Z.of_nat L).
  { intros k Hk. split; [|apply Hlast; lia].
    rewrite Forall_lookup in Hnn. apply (Hnn k). apply at_lookup. lia. }
  rewrite remove_and_shift_single.
  2:{ apply Forall_lookup. intros k x Hk. pose proof (lookup_lt_Some _ _ _ Hk).
      rewrite at_lookup in Hk by lia. injection Hk as <-. pose proof (Hb k). lia. }
  2: done. 2: lia.
  rewrite (remove_value_at ids d seq_id) by done.
  assert (Hmono : forall i j, (i <= j)%nat -> (j < n)%nat -> at_ oi i <= at_ oi j) by (intros; apply Hs; lia).
  set (diff := if (S d =? length oi)%nat then 0 else at_ oi (S d) - at_ oi d).
  set (S0 := at_ oi d). set (E0 := if (d =? n - 1)%nat then Z.of_nat L else at_ oi (S d)).
  assert (HS0 : 0 <= S0 <= Z.of_nat L) by (apply Hb; lia).
  assert (HE0 : S0 <= E0 <= Z.of_nat L).
  { unfold E0. destruct (Nat.eqb_spec d (n - 1)); [lia|].
    split; [apply Hmono; lia|apply Hb; lia]. }
  assert (HL' : length (remove_index offs (Z.to_nat S0) (Z.to_nat E0)) = (Z.to_nat S0 + (L - Z.to_nat E0))%nat).
  { unfold remove_index. rewrite length_app, length_take, length_drop. lia. }
  assert (Hlen' : length (take d oi ++ map (fun x => x - diff) (drop (S d) oi)) = (n - 1)%nat).
  { rewrite length_app, length_take, length_map, length_drop. lia. }
  (* the entry at [k] of the new offset index *)
  assert (Hat : forall k, (k < n - 1)%nat ->
            at_ (take d oi ++ map (fun x => x - diff) (drop (S d) oi)) k =
            if (k <? d)%nat then at_ oi k else at_ oi (S k) - diff).
  { intros k Hk. rewrite at_shifted by lia.
    destruct (k <? d)%nat; [done|]. replace (S k <? length oi)%nat with true; [done|].
    symmetry. apply Nat.ltb_lt. lia. }
  (* entries after [d] shift down by [diff] and stay at or above [S0] *)
  assert (Hafter : forall k, (d <= k)%nat -> (S k < n)%nat -> S0 <= at_ oi (S k) - diff <= Z.of_nat L - (E0 - S0)).
  { intros k Hk1 Hk2. unfold diff, E0. rewrite Hlen.
    replace (S d =? n)%nat with false by (symmetry; apply Nat.eqb_neq; lia).
    replace (d =? n - 1)%nat with false by (symmetry; apply Nat.eqb_neq; lia).
    pose proof (Hmono (S d) (S k) ltac:(lia) ltac:(lia)). pose proof (Hb (S k) ltac:(lia)). unfold S0. lia. }
  constructor; simpl.
  - pose proof Hnd as Hnd'. rewrite <- (take_drop_middle ids d seq_id Hl) in Hnd'.
    apply NoDup_app in Hnd' as (H1 & H2 & H3). apply NoDup_cons in H3 as [_ H3].
    apply NoDup_app. split; [done|]. split; [|done].
    intros x Hx1 Hx2. apply (H2 x Hx1). apply elem_of_cons. right. done.
  - rewrite Hlen', length_remove_at by lia. done.
  - intros i j Hij Hj. rewrite Hlen' in Hj. rewrite !Hat by lia.
    destruct (Nat.ltb_spec i d), (Nat.ltb_spec j d).
    + apply Hmono; lia.
    + pose proof (Hafter j ltac:(lia) ltac:(lia)). pose proof (Hmono i d ltac:(lia) ltac:(lia)). unfold S0 in *. lia.
    + lia.
    + pose proof (Hmono (S i) (S j) ltac:(lia) ltac:(lia)). lia.
  - apply Forall_lookup. intros k x Hk. pose proof (lookup_lt_Some _ _ _ Hk) as Hkl. rewrite Hlen' in Hkl.
    rewrite at_lookup in Hk by (rewrite Hlen'; lia). injection Hk as <-. rewrite Hat by lia.
    destruct (Nat.ltb_spec k d); [apply Hb; lia|]. pose proof (Hafter k ltac:(lia) ltac:(lia)). lia.
  - intros k Hk. rewrite Hlen' in Hk. rewrite Hat by lia. rewrite HL'.
    destruct (Nat.ltb_spec k d).
    + pose proof (Hmono k d ltac:(lia) ltac:(lia)). unfold S0 in *. lia.
    + pose proof (Hafter k ltac:(lia) ltac:(lia)). lia.
  - rewrite HL'. lia.
Qed.

Lemma to_int32_uint16 x : 0 <= x < 2 ^ 16 -> to_int32 x = x.
Proof.
  intros H. unfold to_int32. rewrite Z.mod_small by lia.
  replace (x >=? 2 ^ 31) with false by (symmetry; rewrite Z.geb_leb; apply Z.leb_gt; lia). done.
Qed.

Lemma to_uint16_small x : 0 <= x < 2 ^ 16 -> to_uint16 x = x.
Proof. intros H. unfold to_uint16. apply Z.mod_small. done. Qed.

(** reading the positions of one element *)
Lemma positions_loop_read fuel A s e prev cur out ps :
  good_positions ps -> Forall (fun x => prev < x) ps ->
  (forall j, (j < length ps)%nat -> at_ A (s + j) = nth j ps 0) ->
  (s + length ps <= e)%nat -> (length ps <= fuel)%nat ->
  positions_loop fuel A s e prev cur out =
  positions_loop (fuel - length ps) A (s + length ps) e (default prev (last ps)) (cur ++ ps) out.
Proof.
  revert fuel s prev cur. induction ps as [|p ps IH]; intros fuel s prev cur [Hsort Hrange] Hprev HA He Hf.
  - simpl. rewrite Nat.sub_0_r, Nat.add_0_r, app_nil_r. done.
  - destruct fuel as [|fuel]; [simpl in Hf; lia|]. simpl.
    replace ((s <? e)%nat) with true by (symmetry; apply Nat.ltb_lt; simpl in He; lia).
    pose proof (HA 0%nat ltac:(simpl; lia)) as H0. rewrite Nat.add_0_r in H0. simpl in H0. rewrite H0.
    apply Forall_cons in Hrange as [Hp Hrange]. apply Forall_cons in Hprev as [Hpp _].
    apply StronglySorted_inv in Hsort as [Hsort Hlt].
    rewrite to_int32_uint16 by done.
    replace (p =? prev) with false by (symmetry; apply Z.eqb_neq; lia).
    rewrite to_uint16_small by done.
    rewrite IH; [| split; done | exact Hlt | | simpl in He; lia | simpl in Hf; lia].
    + replace (S s + length ps)%nat with (s + length (p :: ps))%nat by (simpl; lia).
      rewrite <- app_assoc. simpl. f_equal.
      destruct ps as [|q ps']; [done|]. simpl. destruct (last (q :: ps')) eqn:El; [done|].
      exfalso. rewrite last_None in El. discriminate.
    + intros j Hj. replace (S s + j)%nat with (s + S j)%nat by lia. apply (HA (S j)). simpl. lia.
Qed.

(** one element: its positions, the repeated last position, its index *)
Lemma positions_loop_chunk fuel A s e out ai ps :
  ps <> [] -> good_positions ps ->
  (forall j, (j < length ps + 2)%nat -> at_ A (s + j) = nth j (ps ++ [default 0 (last ps); Z.of_nat ai]) 0) ->
  (s + length ps + 2 <= e)%nat -> (e - s <= fuel)%nat ->
  exists fuel', (e - (s + length ps + 2) <= fuel')%nat /\
  positions_loop fuel A s e (-1) [] out = positions_loop fuel' A (s + length ps + 2) e (-1) [] (out ++ [(ai, ps)]).
Proof.
  intros Hne Hgood HA He Hf.
  assert (Hlast : exists lp, last ps = Some lp /\ In lp ps).
  { destruct (last ps) eqn:El; [|apply last_None in El; done].
    exists z. split; [done|]. apply list_elem_of_In. eapply last_Some_elem_of; eauto. }
  destruct Hlast as (lp & Hlp & Hin).
  rewrite (positions_loop_read fuel A s e (-1) [] out ps Hgood).
  - rewrite Hlp. simpl. remember (fuel - length ps)%nat as f1.
    destruct f1 as [|f1]; [lia|]. simpl.
    replace ((s + length ps <? e)%nat) with true by (symmetry; apply Nat.ltb_lt; lia).
    destruct Hgood as [_ Hr]. rewrite Forall_forall in Hr.
    rewrite (HA (length ps)) by lia. rewrite app_nth2 by lia. rewrite Nat.sub_diag. simpl. rewrite Hlp.
    rewrite to_int32_uint16 by (apply Hr; apply list_elem_of_In; done). rewrite Z.eqb_refl.
    replace (S (s + length ps)) with (s + S (length ps))%nat by lia.
    rewrite (HA (S (length ps))) by lia. rewrite app_nth2 by lia.
    replace (S (length ps) - length ps)%nat with 1%nat by lia. simpl. rewrite Nat2Z.id.
    destruct ps as [|p ps']; [done|].
    exists f1. split; [lia|]. f_equal. lia.
  - destruct Hgood as [_ Hr]. eapply Forall_impl; [exact Hr|]. simpl. lia.
  - intros j Hj. rewrite HA by lia. rewrite app_nth1 by lia. done.
  - lia.
  - lia.
Qed.

Lemma length_enc_cons ai ps l : length (enc ((ai, ps) :: l)) = (length ps + 2 + length (enc l))%nat.
Proof. simpl. rewrite length_app, length_app. simpl. lia. Qed.

(** the whole slice of a token in an array field *)
Lemma positions_loop_enc l fuel A s e out :
  Forall (fun p => p.2 <> [] /\ good_positions p.2) l ->
  (forall j, (j < length (enc l))%nat -> at_ A (s + j) = nth j (enc l) 0) ->
  (s + length (enc l) = e)%nat -> (e - s <= fuel)%nat ->
  positions_loop fuel A s e (-1) [] out = (out ++ l, []).
Proof.
  revert fuel s out. induction l as [|[ai ps] l IH]; intros fuel s out Hl HA He Hf.
  - simpl in He. rewrite app_nil_r. destruct fuel; simpl; [done|].
    replace ((s <? e)%nat) with false by (symmetry; apply Nat.ltb_ge; lia). done.
  - apply Forall_cons in Hl as [[Hne Hgood] Hl]. rewrite length_enc_cons in He.
    destruct (positions_loop_chunk fuel A s e out ai ps Hne Hgood) as (f' & Hf' & ->).
    + intros j Hj. rewrite HA by (rewrite length_enc_cons; lia). simpl.
      rewrite app_nth1 by (rewrite length_app; simpl; lia). done.
    + lia.
    + lia.
    + rewrite (IH f' (s + length ps + 2)%nat (out ++ [(ai, ps)])); [| done | | lia | lia].
      * rewrite <- app_assoc. done.
      * intros j Hj. replace (s + length ps + 2 + j)%nat with (s + (length ps + 2 + j))%nat by lia.
        rewrite HA by (rewrite length_enc_cons; lia). simpl.
        rewrite app_nth2 by (rewrite length_app; simpl; lia). rewrite length_app. simpl.
        f_equal. lia.
Qed.

Lemma push_offsets_lookup toks m t :
  foldl (fun m p => push_offset m p.1 p.2) m toks !! t =
  match map snd (List.filter (fun p => String.eqb p.1 t) toks) with
  | [] => m !! t
  | ps => Some (default [] (m !! t) ++ ps)
  end.
Proof.
  revert m. induction toks as [|[tok i] toks IH]; intros m; [done|]. simpl. rewrite IH.
  unfold push_offset. simpl.
  destruct (String.eqb_spec tok t) as [->|Hne]; simpl.
  - rewrite lookup_insert_eq. simpl.
    destruct (map snd (List.filter (fun p => String.eqb p.1 t) toks)); simpl; [done|].
    rewrite <- app_assoc. done.
  - rewrite lookup_insert_ne by done. done.
Qed.

Lemma token_set_lookup (ts : list string) (m : gmap string (list Z)) ai t : NoDup ts ->
  foldl (fun m tok => let l := default [] (m !! tok) in
                      <[tok := l ++ [default 0 (last l); Z.of_nat ai]]> m) m ts !! t =
  if bool_decide (t ∈ ts)
  then Some (default [] (m !! t) ++ [default 0 (last (default [] (m !! t))); Z.of_nat ai])
  else m !! t.
Proof.
  revert m. induction ts as [|tok ts IH]; intros m Hnd; [done|].
  apply NoDup_cons in Hnd as [Hnin Hnd]. simpl. rewrite IH by done.
  destruct (String.eq_dec tok t) as [->|Hne].
  - rewrite bool_decide_false by done. rewrite bool_decide_true by (apply elem_of_cons; left; done).
    rewrite lookup_insert_eq. done.
  - rewrite lookup_insert_ne by done.
    replace (bool_decide (t ∈ tok :: ts)) with (bool_decide (t ∈ ts)); [done|].
    apply bool_decide_ext. rewrite elem_of_cons. naive_solver.
Qed.

Lemma in_token_set toks t :
  t ∈ remove_dups (map fst toks) <-> map snd (List.filter (fun p : string * Z => String.eqb p.1 t) toks) <> [].
Proof.
  rewrite elem_of_remove_dups. induction toks as [|[tok i] toks IH]; simpl.
  - split; [intros H; inversion H|done].
  - rewrite elem_of_cons, IH. destruct (String.eqb_spec tok t) as [->|Hne]; simpl.
    + split; [done|]. intros _. left. done.
    + split; [intros [->|H]; done|]. intros H. right. done.
Qed.

Lemma array_element_lookup tokenizer hash_wy stof a_field acc ai str t :
  (array_element tokenizer hash_wy stof a_field acc (ai, str)).2 !! t =
  match positions_of tokenizer a_field t str with
  | [] => acc.2 !! t
  | ps => Some (default [] (acc.2 !! t) ++ ps ++ [default 0 (last ps); Z.of_nat ai])
  end.
Proof.
  unfold array_element, positions_of. simpl.
  rewrite token_set_lookup by apply NoDup_remove_dups.
  rewrite push_offsets_lookup.
  destruct (bool_decide_reflect (t ∈ remove_dups (map fst (nonempty_tokens tokenizer str a_field)))) as [Hin|Hin];
    rewrite in_token_set in Hin.
  - destruct (map snd _) as [|p ps] eqn:E; [done|]. simpl. f_equal.
    rewrite <- app_assoc. f_equal. f_equal. f_equal. f_equal.
    rewrite last_app. simpl. destruct (last (p :: ps)) eqn:El; [done|]. rewrite last_None in El. done.
  - destruct (map snd _) as [|p ps] eqn:E; [done|]. exfalso. apply Hin. discriminate.
Qed.

Lemma enc_app l1 l2 : enc (l1 ++ l2) = enc l1 ++ enc l2.
Proof. unfold enc. apply flat_map_app. Qed.

Lemma array_fold_lookup tokenizer hash_wy stof a_field elems acc t :
  default [] ((foldl (array_element tokenizer hash_wy stof a_field) acc elems).2 !! t) =
  default [] (acc.2 !! t) ++
  enc (flat_map (fun '(i, str) => match positions_of tokenizer a_field t str with
                                  | [] => []
                                  | ps => [(i, ps)]
                                  end) elems).
Proof.
  revert acc. induction elems as [|[i str] elems IH]; intros acc; cbn [foldl flat_map].
  - rewrite app_nil_r. done.
  - rewrite IH, array_element_lookup, enc_app, app_assoc. f_equal.
    destruct (positions_of tokenizer a_field t str) as [|p ps]; simpl.
    + rewrite app_nil_r. done.
    + rewrite app_nil_r. done.
Qed.

Lemma sorted_filter_snd (f : string * Z -> bool) l :
  StronglySorted Z.lt (map snd l) -> StronglySorted Z.lt (map snd (List.filter f l)).
Proof.
  induction l as [|p l IH]; simpl; [done|]. intros H. apply StronglySorted_inv in H as [Hs Hf].
  destruct (f p); simpl; [|auto]. constructor; [auto|].
  rewrite Forall_forall in *. intros x Hx. apply Hf.
  apply list_elem_of_In in Hx. apply list_elem_of_In. apply in_map_iff in Hx as (q & <- & Hq).
  apply filter_In in Hq as [Hq _]. apply in_map. done.
Qed.

Lemma range_filter_snd (f : string * Z -> bool) l (P : Z -> Prop) :
  Forall P (map snd l) -> Forall P (map snd (List.filter f l)).
Proof.
  rewrite !Forall_forall. intros H x Hx. apply H.
  apply list_elem_of_In in Hx. apply list_elem_of_In. apply in_map_iff in Hx as (q & <- & Hq).
  apply filter_In in Hq as [Hq _]. apply in_map. done.
Qed.


Lemma positions_of_good tokenizer a_field t str :
  increasing_indices tokenizer a_field str -> good_positions (positions_of tokenizer a_field t str).
Proof.
  intros [Hs Hr]. unfold positions_of, nonempty_tokens. split.
  - apply sorted_filter_snd, sorted_filter_snd. done.
  - apply range_filter_snd, range_filter_snd. done.
Qed.

Lemma element_entries_good tokenizer a_field t (elems : list (nat * string)) :
  Forall (fun p => increasing_indices tokenizer a_field p.2) elems ->
  Forall (fun p => p.2 <> [] /\ good_positions p.2)
    (flat_map (fun '(i, str) => match positions_of tokenizer a_field t str with
                                | [] => []
                                | ps => [(i, ps)]
                                end) elems).
Proof.
  induction elems as [|[i str] elems IH]; intros H; simpl; [constructor|].
  apply Forall_cons in H as [Hh H]. apply Forall_app. split; [|auto].
  pose proof (positions_of_good tokenizer a_field t str Hh) as Hg.
  destruct (positions_of tokenizer a_field t str) as [|p ps]; [constructor|].
  constructor; [|constructor]. simpl. split; [done|exact Hg].
Qed.

Lemma length_enc_zero l : length (enc l) = 0%nat -> l = [].
Proof. destruct l as [|[ai ps] l]; [done|]. rewrite length_enc_cons. lia. Qed.

(** Round trip of the array offsets: when the tokenizer numbers every
    element's tokens in increasing order within uint16, the offsets
    [index_string_array_field] stores for [token] (each element's positions,
    the last one repeated, then the element's index), read back by the loop
    of [populate_token_positions], give for each element containing [token],
    in order, its index and the token's positions in it. *)
Theorem array_positions_roundtrip tokenizer hash_wy stof a_field strings token v d :
  Forall (increasing_indices tokenizer a_field) strings ->
  doc_offsets v d = default [] ((foldl (array_element tokenizer hash_wy stof a_field) ([], ∅)
                                   (zip (seq 0 (length strings)) strings)).2 !! token) ->
  token_positions v d = element_positions tokenizer a_field token strings.
Proof.
  intros Hstr Hdoc. rewrite array_fold_lookup in Hdoc. simpl (([] : list Z, ∅ : gmap string (list Z)).2) in Hdoc.
  rewrite lookup_empty, app_nil_l in Hdoc.
  fold (element_positions tokenizer a_field token strings) in Hdoc.
  set (L := element_positions tokenizer a_field token strings) in *.
  assert (HL : Forall (fun p => p.2 <> [] /\ good_positions p.2) L).
  { apply element_entries_good. apply Forall_lookup. intros k [i str] Hk.
    apply lookup_zip_with_Some in Hk as (x & y & [= <- <-] & _ & Hy). simpl.
    rewrite Forall_lookup in Hstr. eapply Hstr. exact Hy. }
  unfold token_positions. unfold doc_offsets in Hdoc.
  destruct (offset_bounds v d) as [s e]. set (A := offsets v) in *.
  assert (Hlen : length (enc L) = (Z.to_nat e - Z.to_nat s)%nat) by (rewrite <- Hdoc, length_map, length_seq; done).
  destruct (decide (length (enc L) = 0%nat)) as [H0|H0].
  - rewrite <- Hlen, H0. simpl. apply length_enc_zero in H0. rewrite H0. done.
  - rewrite (positions_loop_enc L _ A (Z.to_nat s) (Z.to_nat e) []); [done|done| |lia|lia].
    intros j Hj. rewrite <- Hdoc. rewrite nth_lookup, list_lookup_fmap, lookup_seq_lt by lia. done.
Qed.

(** Round trip of the plain-string offsets: when the tokenizer numbers the
    tokens in increasing order within uint16, the offsets [index_string_field]
    stores for [token], read back by [populate_token_positions], give one
    entry at array index 0 with the token's positions, or nothing if the
    token does not occur. *)
Theorem string_positions_roundtrip tokenizer a_field text token v d :
  increasing_indices tokenizer a_field text ->
  doc_offsets v d = default [] (foldl (fun m p => push_offset m p.1 p.2) ∅
                                  (nonempty_tokens tokenizer text a_field) !! token) ->
  token_positions v d = match positions_of tokenizer a_field token text with
                        | [] => []
                        | ps => [(0%nat, ps)]
                        end.
Proof.
  intros Hstr Hdoc. rewrite push_offsets_lookup in Hdoc. fold (positions_of tokenizer a_field token text) in Hdoc.
  pose proof (positions_of_good tokenizer a_field token text Hstr) as Hg.
  set (ps := positions_of tokenizer a_field token text) in *.
  assert (Hps : doc_offsets v d = ps) by (rewrite Hdoc; destruct ps; done).
  clear Hdoc. unfold token_positions. unfold doc_offsets in Hps.
  destruct (offset_bounds v d) as [s e]. set (A := offsets v) in *.
  assert (Hlen : length ps = (Z.to_nat e - Z.to_nat s)%nat) by (rewrite <- Hps, length_map, length_seq; done).
  destruct (decide (ps = [])) as [E|E].
  { rewrite E in Hlen |- *. simpl in Hlen. rewrite <- Hlen. done. }
  rewrite (positions_loop_read _ A (Z.to_nat s) (Z.to_nat e) (-1) [] [] ps Hg).
  - replace (Z.to_nat e - Z.to_nat s - length ps)%nat with 0%nat by lia. simpl. destruct ps; done.
  - destruct Hg as [_ Hr]. eapply Forall_impl; [exact Hr|]. simpl. lia.
  - intros j Hj. rewrite <- Hps. rewrite nth_lookup, list_lookup_fmap, lookup_seq_lt by lia. done.
  - assert (length ps <> 0%nat) by (intros H; apply E, length_zero_iff_nil; done). lia.
  - lia.
Qed.

Lemma push_element_positions tokenizer a_field token strs k m ai :
  foldl push_positions m
    (flat_map (fun '(i, str) => match positions_of tokenizer a_field token str with
                                | [] => []
                                | ps => [(i, ps)]
                                end) (zip (seq k (length strs)) strs)) !! ai =
  if decide (k <= ai < k + length strs)%nat then
    match positions_of tokenizer a_field token (nth (ai - k) strs "") with
    | [] => m !! ai
    | ps => Some (default [] (m !! ai) ++ [ps])
    end
  else m !! ai.
Proof.
  revert k m. induction strs as [|str strs IH]; intros k m; cbn [length seq zip flat_map].
  - rewrite decide_False by lia. done.
  - rewrite foldl_app, IH.
    destruct (decide (k = ai)) as [->|Hne].
    + rewrite decide_False by lia. rewrite decide_True by lia. rewrite Nat.sub_diag. cbn [nth].
      destruct (positions_of tokenizer a_field token str) as [|p ps]; cbn [foldl].
      * done.
      * unfold push_positions. cbn [fst snd]. rewrite lookup_insert_eq. done.
    + assert (Hm : foldl push_positions m match positions_of tokenizer a_field token str with
                                          | [] => [] | ps => [(k, ps)] end !! ai = m !! ai).
      { destruct (positions_of tokenizer a_field token str); cbn [foldl]; [done|].
        unfold push_positions. cbn [fst snd]. rewrite lookup_insert_ne by done. done. }
      destruct (decide (S k <= ai < S k + length strs)%nat);
        destruct (decide (k <= ai < k + S (length strs))%nat); try lia.
      * replace (ai - k)%nat with (S (ai - S k)) by lia. cbn [nth]. rewrite Hm. done.
      * exact Hm.
Qed.

(** For a leaf built from an array field and a document index that is not
    the "absent" sentinel, [populate_token_positions] maps each array index
    [ai] to the single list of the token's positions in element [ai], and
    has no entry for an index beyond the array or an element without the
    token. *)
Theorem populate_array_positions tokenizer hash_wy stof a_field strings token v d ai :
  Forall (increasing_indices tokenizer a_field) strings ->
  doc_offsets v d = default [] ((foldl (array_element tokenizer hash_wy stof a_field) ([], ∅)
                                   (zip (seq 0 (length strings)) strings)).2 !! token) ->
  d <> length (ids v) ->
  populate_token_positions [v] [[d]] 0 ∅ !! ai =
  if decide (ai < length strings)%nat then
    match positions_of tokenizer a_field token (nth ai strings "") with
    | [] => None
    | ps => Some [ps]
    end
  else None.
Proof.
  intros Hstr Hdoc Hd. unfold populate_token_positions. simpl.
  replace (d =? length (ids v))%nat with false by (symmetry; apply Nat.eqb_neq; done).
  rewrite (array_positions_roundtrip tokenizer hash_wy stof a_field strings token v d Hstr Hdoc).
  unfold element_positions. rewrite push_element_positions, lookup_empty.
  rewrite Nat.sub_0_r. destruct (decide (0 <= ai < 0 + length strings)%nat), (decide (ai < length strings)%nat);
    try lia; [|done].
  destruct (positions_of tokenizer a_field token (nth ai strings "")); done.
Qed.

Import Suggest.

Lemma suggestion_indices_bounds sizes q :
  Forall (fun s => 0 < s) sizes -> 0 <= q < product sizes ->
  Forall2 (fun r s => 0 <= r < s) (suggestion_indices sizes q) sizes /\
  decode_indices sizes (suggestion_indices sizes q) = q.
Proof.
  revert q. induction sizes as [|s ss IH]; intros q Hs Hq; simpl in *.
  - split; [constructor|lia].
  - inversion Hs as [|? ? Hs0 Hss]; subst.
    rewrite Z.rem_mod_nonneg, Z.quot_div_nonneg by lia.
    assert (Hd : 0 <= q / s < product ss).
    { split; [apply Z.div_pos; lia|]. apply Z.div_lt_upper_bound; lia. }
    destruct (IH (q / s) Hss Hd) as [Hb Hdec]. split.
    + constructor; [apply Z.mod_pos_bound; lia|done].
    + rewrite Hdec. pose proof (Z.div_mod q s ltac:(lia)). lia.
Qed.

Lemma product_pos sizes : Forall (fun s => 0 < s) sizes -> 0 < product sizes.
Proof. induction 1; simpl; lia. Qed.

Lemma combinations_from {A} (tcv : list (list A)) a :
  Forall (fun c => c <> []) tcv -> 1 <= a ->
  a * product (map (fun c => Z.of_nat (length c)) tcv) < 2 ^ 63 ->
  foldl (fun a b => to_int64 (a * Z.of_nat (length b))) a tcv =
  a * product (map (fun c => Z.of_nat (length c)) tcv).
Proof.
  revert a. induction tcv as [|c cs IH]; intros a Hne Ha Hp; simpl in *; [lia|].
  inversion Hne as [|? ? Hc Hcs]; subst.
  assert (Hl : 1 <= Z.of_nat (length c)) by (destruct c; [done|simpl; lia]).
  assert (Hpc : 1 <= product (map (fun c => Z.of_nat (length c)) cs)).
  { pose proof (product_pos (map (fun c => Z.of_nat (length c)) cs)) as Hpos.
    assert (0 < product (map (fun c => Z.of_nat (length c)) cs)); [|lia]. apply Hpos.
    apply Forall_map. eapply Forall_impl; [exact Hcs|]. intros x Hx. destruct x; [done|simpl; lia]. }
  rewrite to_int64_id by nia. rewrite IH by (try done; nia). lia.
Qed.

Lemma combinations_product {A} (tcv : list (list A)) :
  Forall (fun c => c <> []) tcv ->
  product (map (fun c => Z.of_nat (length c)) tcv) < 2 ^ 63 ->
  combinations tcv = product (map (fun c => Z.of_nat (length c)) tcv).
Proof.
  intros Hne Hp. unfold combinations. rewrite combinations_from by (try done; lia). lia.
Qed.

Lemma sizes_pos {A} (tcv : list (list A)) :
  Forall (fun c => c <> []) tcv -> Forall (fun s => 0 < s) (map (fun c => Z.of_nat (length c)) tcv).
Proof.
  intros H. apply Forall_map. eapply Forall_impl; [exact H|]. intros x Hx. destruct x; [done|simpl; lia].
Qed.

Lemma indices_bounds_tcv {A} (tcv : list (list A)) n :
  Forall (fun c => c <> []) tcv ->
  product (map (fun c => Z.of_nat (length c)) tcv) < 2 ^ 63 ->
  0 <= n < combinations tcv ->
  Forall2 (fun r c => 0 <= r < Z.of_nat (length c))
    (suggestion_indices (map (fun c => Z.of_nat (length c)) tcv) n) tcv /\
  decode_indices (map (fun c => Z.of_nat (length c)) tcv)
    (suggestion_indices (map (fun c => Z.of_nat (length c)) tcv) n) = n.
Proof.
  intros Hne Hp Hn. rewrite combinations_product in Hn by done.
  destruct (suggestion_indices_bounds _ n (sizes_pos tcv Hne) Hn) as [Hb Hd].
  split; [|done]. apply Forall2_fmap_r in Hb. done.
Qed.

Lemma pick_lookup {A} (dflt : A) (c : list A) r :
  0 <= r < Z.of_nat (length c) -> c !! Z.to_nat r = Some (nth (Z.to_nat r) c dflt).
Proof.
  intros Hr. destruct (lookup_lt_is_Some_2 c (Z.to_nat r) ltac:(lia)) as [x Hx].
  rewrite Hx, (nth_lookup_Some c _ dflt x Hx). done.
Qed.

Lemma pick_in {A} (dflt : A) (tcv : list (list A)) rs :
  Forall2 (fun r c => 0 <= r < Z.of_nat (length c)) rs tcv ->
  Forall2 (fun x c => x ∈ c) (zip_with (fun candidates rem => nth (Z.to_nat rem) candidates dflt) tcv rs) tcv.
Proof.
  induction 1 as [|r c rs cs Hr _ IH]; simpl; constructor; [|done].
  apply list_elem_of_lookup_2 with (Z.to_nat r). apply pick_lookup. done.
Qed.

Lemma pick_inj {A} (dflt : A) (tcv : list (list A)) rs1 rs2 :
  Forall NoDup tcv ->
  Forall2 (fun r c => 0 <= r < Z.of_nat (length c)) rs1 tcv ->
  Forall2 (fun r c => 0 <= r < Z.of_nat (length c)) rs2 tcv ->
  zip_with (fun candidates rem => nth (Z.to_nat rem) candidates dflt) tcv rs1 =
  zip_with (fun candidates rem => nth (Z.to_nat rem) candidates dflt) tcv rs2 ->
  rs1 = rs2.
Proof.
  intros Hnd H1. revert rs2 Hnd. induction H1 as [|r1 c rs1 cs Hr1 _ IH]; intros rs2 Hnd H2 Heq.
  - inversion H2. done.
  - inversion H2 as [|r2 ? rs2' ? Hr2 H2']; subst. inversion Hnd as [|? ? Hc Hcs]; subst.
    simpl in Heq. injection Heq as Hx Hrest.
    assert (Z.to_nat r1 = Z.to_nat r2) as Hi.
    { eapply (NoDup_lookup c); [done|apply (pick_lookup dflt); done|].
      rewrite Hx. apply pick_lookup. done. }
    f_equal; [lia|]. apply IH; done.
Qed.

(** Every combination [next_suggestion] builds for an [n] below [N]
    takes, for each query token, one of that token's candidates: it never
    reads past a candidate list. *)
Theorem next_suggestion_candidates {A} (dflt : A) (token_candidates_vec : list (list A)) n :
  Forall (fun c => c <> []) token_candidates_vec ->
  product (map (fun c => Z.of_nat (length c)) token_candidates_vec) < 2 ^ 63 ->
  0 <= n < combinations token_candidates_vec ->
  Forall2 (fun leaf candidates => leaf ∈ candidates) (next_suggestion dflt token_candidates_vec n)
    token_candidates_vec.
Proof.
  intros Hne Hp Hn. apply pick_in. apply (indices_bounds_tcv token_candidates_vec n); done.
Qed.

(** Different [n] below [N] give different combinations: whichever prefix
    of [0 .. N-1] the loop of [search_candidates] goes through before it
    stops (at [combination_limit] or at [typo_tokens_threshold] results), it
    never intersects the same combination of leaves twice. *)
Theorem next_suggestion_injective {A} (dflt : A) (token_candidates_vec : list (list A)) n m :
  Forall (fun c => c <> []) token_candidates_vec ->
  Forall NoDup token_candidates_vec ->
  product (map (fun c => Z.of_nat (length c)) token_candidates_vec) < 2 ^ 63 ->
  0 <= n < combinations token_candidates_vec ->
  0 <= m < combinations token_candidates_vec ->
  next_suggestion dflt token_candidates_vec n = next_suggestion dflt token_candidates_vec m -> n = m.
Proof.
  intros Hne Hnd Hp Hn Hm Heq.
  destruct (indices_bounds_tcv token_candidates_vec n Hne Hp Hn) as [Hb1 Hd1].
  destruct (indices_bounds_tcv token_candidates_vec m Hne Hp Hm) as [Hb2 Hd2].
  unfold next_suggestion in Heq. pose proof (pick_inj dflt _ _ _ Hnd Hb1 Hb2 Heq) as Hr.
  rewrite Hr in Hd1. lia.
Qed.

(** A query token without candidates makes [N] zero: [search_candidates]
    then goes through no combination and leaves [field_num_results] as it
    was. *)
Theorem search_candidates_empty filter_ids exclude_token_ids curated_ids tcs tc field_num_results
    typo_tokens_threshold :
  In tc tcs -> Search.tc_candidates tc = [] ->
  Search.search_candidates filter_ids exclude_token_ids curated_ids tcs field_num_results typo_tokens_threshold
    = (field_num_results, 0%nat).
Proof.
  intros Hin Hc. unfold Search.search_candidates, Search.candidate_combinations.
  assert (Hz : forall l, fold_left (fun a tc => to_int64 (a * Z.of_nat (length (Search.tc_candidates tc)))) l 0 = 0).
  { induction l as [|c l IH]; [done|]. simpl. rewrite Z.mul_0_l. exact IH. }
  apply in_split in Hin as (l1 & l2 & ->).
  rewrite fold_left_app. cbn [fold_left]. rewrite Hc. simpl (Z.of_nat (length [])).
  rewrite Z.mul_0_r. change (to_int64 0) with 0. rewrite Hz. reflexivity.
Qed.

(** ** Examples *)
Import Wildcard.

Lemma sorted_b_nondecreasing l : sorted_b l = true -> nondecreasing l.
Proof.
  induction l as [|x l IH]; intros H i j Hij Hj; simpl in Hj; [lia|].
  destruct i as [|i], j as [|j]; unfold at_; simpl; try lia.
  - destruct l as [|y l]; simpl in Hj; [lia|].
    simpl in H. apply andb_true_iff in H as [Hxy Hl]. apply Z.leb_le in Hxy.
    pose proof (IH Hl 0%nat j ltac:(lia) ltac:(simpl; lia)). unfold at_ in *. simpl in *. lia.
  - destruct l as [|y l]; simpl in Hj; [lia|].
    simpl in H. apply andb_true_iff in H as [Hxy Hl].
    pose proof (IH Hl i j ltac:(lia) ltac:(simpl; lia)). unfold at_ in *. simpl in *. lia.
Qed.

Lemma leaf_357_wf : wf_values leaf_357.
Proof.
  constructor; simpl.
  - repeat constructor; set_solver.
  - done.
  - apply sorted_b_nondecreasing. reflexivity.
  - repeat constructor; lia.
  - intros i Hi. unfold at_. simpl in Hi. destruct i as [|[|[|i]]]; simpl; lia.
  - lia.
Qed.

Lemma remove_doc_postings_witness :
  postings (remove_doc leaf_357 5) = List.filter (fun p => negb (p.1 =? 5)) (postings leaf_357).
Proof. apply remove_doc_postings. apply leaf_357_wf. Defined.

Lemma remove_doc_wf_witness : wf_values (remove_doc leaf_357 5).
Proof. apply remove_doc_wf. apply leaf_357_wf. Defined.

Lemma remove_and_shift_single_witness :
  remove_and_shift_offset_index [0; 2; 5; 9] [1] =
  take 1 [0; 2; 5; 9] ++ map (fun x => x - (at_ [0; 2; 5; 9] 2 - at_ [0; 2; 5; 9] 1)) (drop 2 [0; 2; 5; 9]).
Proof.
  apply (remove_and_shift_single [0; 2; 5; 9] 1).
  - repeat constructor; lia.
  - apply sorted_b_nondecreasing. reflexivity.
  - simpl. lia.
Defined.

Lemma facet_token_hash_integer_roundtrip_witness :
  facet_token_hash (fun _ => 0) (fun _ => 0) points_field (int_to_string (-42)) = to_uint64 (-42) /\
  to_int64 (facet_token_hash (fun _ => 0) (fun _ => 0) points_field (int_to_string (-42))) = -42.
Proof. apply facet_token_hash_integer_roundtrip; [reflexivity|lia]. Defined.

Lemma float_points_negative_below_witness :
  exists p1 p2, get_points_from_doc float_bits_of (fun _ => 0) [("p", JFloat 3212836864)] "p" = Ok p1 /\
                get_points_from_doc float_bits_of (fun _ => 0) [("p", JFloat 1065353216)] "p" = Ok p2 /\ p1 < p2.
Proof.
  apply (float_points_negative_below float_bits_of (fun _ => 0) _ _ "p" 3212836864 1065353216);
    try reflexivity; try discriminate; unfold is_bits32; lia.
Defined.

Lemma float_points_nonneg_order_witness :
  exists p1 p2, get_points_from_doc float_bits_of (fun _ => 0) [("p", JFloat 1065353216)] "p" = Ok p1 /\
                get_points_from_doc float_bits_of (fun _ => 0) [("p", JFloat 1069547520)] "p" = Ok p2 /\ p1 < p2.
Proof.
  apply (float_points_nonneg_order float_bits_of (fun _ => 0) _ _ "p" 1065353216 1069547520);
    try reflexivity; try discriminate; try (unfold is_bits32; lia).
Defined.

Lemma float_points_adjacent_swap_witness :
  ext_lt (value 1073741824) (value (1073741824 + 1)) /\
  exists p1 p2, get_points_from_doc float_bits_of (fun _ => 0) [("p", JFloat 1073741824)] "p" = Ok p1 /\
                get_points_from_doc float_bits_of (fun _ => 0) [("p", JFloat 1073741825)] "p" = Ok p2 /\ p2 < p1.
Proof.
  apply (float_points_adjacent_swap float_bits_of (fun _ => 0) _ _ "p" 1073741824); try reflexivity; try discriminate; lia.
Defined.

Lemma float_points_negative_reversed_witness :
  exists p1 p2, get_points_from_doc float_bits_of (fun _ => 0) [("p", JFloat 3221225472)] "p" = Ok p1 /\
                get_points_from_doc float_bits_of (fun _ => 0) [("p", JFloat 3212836864)] "p" = Ok p2 /\ p2 < p1.
Proof.
  apply (float_points_negative_reversed float_bits_of (fun _ => 0) _ _ "p" 3221225472 3212836864);
    try reflexivity; try discriminate; try (unfold is_bits32; lia).
Defined.

Lemma array_positions_roundtrip_witness :
  token_positions apple_leaf 0 =
  element_positions SpecTokenizer.tokenizer (mk_field "tags" STRING_ARRAY false false) "apple"
    ["red apple"; "apple pie"].
Proof.
  apply (array_positions_roundtrip SpecTokenizer.tokenizer (fun _ => 0) (fun _ => 0)
           (mk_field "tags" STRING_ARRAY false false) _ _ apple_leaf 0).
  - repeat constructor; unfold increasing_indices; vm_compute; repeat constructor; discriminate.
  - vm_compute. reflexivity.
Defined.

Lemma string_positions_roundtrip_witness :
  token_positions apple_title_leaf 0 =
  match positions_of SpecTokenizer.tokenizer title_field "apple" "apple pie apple" with
  | [] => []
  | ps => [(0%nat, ps)]
  end.
Proof.
  apply (string_positions_roundtrip SpecTokenizer.tokenizer title_field "apple pie apple" "apple"
           apple_title_leaf 0).
  - unfold increasing_indices; vm_compute; repeat constructor; discriminate.
  - vm_compute. reflexivity.
Defined.

Lemma populate_array_positions_witness :
  populate_token_positions [apple_leaf] [[0%nat]] 0 ∅ !! 1%nat =
  if decide (1 < length ["red apple"; "apple pie"])%nat then
    match positions_of SpecTokenizer.tokenizer (mk_field "tags" STRING_ARRAY false false) "apple"
            (nth 1 ["red apple"; "apple pie"] "") with
    | [] => None
    | ps => Some [ps]
    end
  else None.
Proof.
  apply (populate_array_positions SpecTokenizer.tokenizer (fun _ => 0) (fun _ => 0)
           (mk_field "tags" STRING_ARRAY false false) _ _ apple_leaf 0).
  - repeat constructor; unfold increasing_indices; vm_compute; repeat constructor; discriminate.
  - vm_compute. reflexivity.
  - vm_compute. discriminate.
Defined.

Lemma next_suggestion_candidates_witness :
  Forall2 (fun leaf candidates => leaf ∈ candidates) (next_suggestion 0 [[1; 2]; [3; 4; 5]] 4)
    [[1; 2]; [3; 4; 5]].
Proof.
  apply next_suggestion_candidates.
  - repeat constructor; discriminate.
  - vm_compute. reflexivity.
  - split; [lia|vm_compute; reflexivity].
Defined.

Lemma next_suggestion_injective_witness :
  0 <= 1 < combinations [[1; 2]; [3; 4; 5]] /\ (1 : Z) = 1.
Proof.
  split; [split; [lia|vm_compute; reflexivity]|].
  apply (next_suggestion_injective 0 [[1; 2]; [3; 4; 5]] 1 1).
  - repeat constructor; discriminate.
  - repeat constructor; set_solver.
  - vm_compute. reflexivity.
  - split; [lia|vm_compute; reflexivity].
  - split; [lia|vm_compute; reflexivity].
  - reflexivity.
Defined.

Lemma search_candidates_empty_witness :
  Search.search_candidates None [] [] [Search.mk_tc "a" 0 [[1]]; Search.mk_tc "b" 0 []] 3 100 = (3%nat, 0%nat).
Proof. apply (search_candidates_empty _ _ _ _ (Search.mk_tc "b" 0 [])); [simpl; auto|reflexivity]. Defined.
